(** * Vehicle counter: tracking, line crossing and count aggregation

    A shallow embedding of [vehicle_counter.py] (classes [VehicleTracker]
    and [VehicleCounter]) and the properties of its tracking-and-counting
    engine.

    Conventions of the embedding.
    - Python floats (bounding-box coordinates, confidences, IoU values,
      [line_position], means) are exact rationals [Q]; results are compared
      with [==] ([Qeq]).  Rounding of IEEE doubles is not modelled.
    - Python ints (pixel centers, [line_x], counts, track ids) are [Z].
    - [datetime.now()] is an oracle [now : nat -> Z] giving, for the n-th
      reading of the clock, the time in microseconds; every function that
      reads the clock takes the index of its next reading and returns the
      index after its last one.
    - [self.trackers] is a Python dict, iterated in insertion order: an
      association list from track ids to trackers.
    - [self.counts[event]] is a [defaultdict(int)]: a [gmap string Z] read
      with default 0.
    - [direction_mapping] is a dict from the directions ['LEFT'] and
      ['RIGHT'] to the events ['IN'] and ['OUT'] that may lack a key: a
      function [Direction -> option Event].
    - The line printed by the counting branch of [update] is kept as a
      count event, together with the id of the tracker that caused it. *)

From Stdlib Require Import QArith Lqa Lia ZArith.
From stdpp Require Import gmap strings list fin_maps.

Local Open Scope Z_scope.

(** ** Python primitives *)

(** [max(a, b)] and [min(a, b)] on numbers: the first argument is kept
    unless the second is strictly better. *)
Definition py_max (a b : Q) : Q := if Qlt_le_dec a b then b else a.
Definition py_min (a b : Q) : Q := if Qlt_le_dec b a then b else a.

(** [a > b] on floats. *)
Definition Qgtb (a b : Q) : bool := if Qlt_le_dec b a then true else false.

(** [int(x)] on a float: truncation toward zero. *)
Definition py_int (x : Q) : Z := Z.quot (Qnum x) (Zpos (Qden x)).

(** [abs(x)] *)
Definition py_abs (x : Q) : Q := if Qlt_le_dec x 0 then (- x)%Q else x.

(** ** Bounding boxes and IoU *)

(** A box is the 4-tuple [(x1, y1, x2, y2)]. *)
Record BBox := mkBBox { bx1 : Q; by1 : Q; bx2 : Q; by2 : Q }.

Definition box_area (b : BBox) : Q := ((bx2 b - bx1 b) * (by2 b - by1 b))%Q.

Definition inter_area (box1 box2 : BBox) : Q :=
  let inter_x_min := py_max (bx1 box1) (bx1 box2) in
  let inter_y_min := py_max (by1 box1) (by1 box2) in
  let inter_x_max := py_min (bx2 box1) (bx2 box2) in
  let inter_y_max := py_min (by2 box1) (by2 box2) in
  (py_max 0 (inter_x_max - inter_x_min) * py_max 0 (inter_y_max - inter_y_min))%Q.

(** The clamped overlap of two intervals, the factor of [inter_area] on
    each axis. *)
Definition overlap (lo1 hi1 lo2 hi2 : Q) : Q :=
  py_max 0 (py_min hi1 hi2 - py_max lo1 lo2).

Definition union_area (box1 box2 : BBox) : Q :=
  (box_area box1 + box_area box2 - inter_area box1 box2)%Q.

(** [VehicleCounter.calculate_iou]; the division is reached only with a
    positive divisor. *)
Definition calculate_iou (box1 box2 : BBox) : Q :=
  if Qlt_le_dec 0 (union_area box1 box2)
  then (inter_area box1 box2 / union_area box1 box2)%Q
  else 0%Q.

(** The boxes the engine assumes: [x1 <= x2] and [y1 <= y2]. *)
Definition box_ok (b : BBox) : Prop := (bx1 b <= bx2 b)%Q /\ (by1 b <= by2 b)%Q.

(** Two boxes are disjoint when one lies entirely to one side of the other
    (touching edges included). *)
Definition disjoint_boxes (a b : BBox) : Prop :=
  (bx2 a <= bx1 b \/ bx2 b <= bx1 a \/ by2 a <= by1 b \/ by2 b <= by1 a)%Q.

(** ** Insertion-ordered dictionaries *)

(** A Python dict keeps its keys in insertion order; assigning to a key
    that is present keeps its place, and [del] removes the entry. *)
Section OrderedDict.
Context {K V : Type} `{EqDecision K}.

Fixpoint dict_get (k : K) (d : list (K * V)) : option V :=
  match d with
  | [] => None
  | (k', v) :: d' => if decide (k = k') then Some v else dict_get k d'
  end.

Fixpoint dict_set (k : K) (v : V) (d : list (K * V)) : list (K * V) :=
  match d with
  | [] => [(k, v)]
  | (k', v') :: d' =>
      if decide (k = k') then (k, v) :: d' else (k', v') :: dict_set k v d'
  end.

Fixpoint dict_del (k : K) (d : list (K * V)) : list (K * V) :=
  match d with
  | [] => []
  | (k', v') :: d' => if decide (k = k') then d' else (k', v') :: dict_del k d'
  end.

Definition dict_keys (d : list (K * V)) : list K := map fst d.
End OrderedDict.

(** ** Tracks *)

Inductive Direction := LEFT | RIGHT.
Inductive Event := IN | OUT.

#[global] Instance Event_eq_dec : EqDecision Event.
Proof. solve_decision. Defined.

(** A dict with exactly the keys ['IN'] and ['OUT']. *)
Record PerEvent (A : Type) := mkPerEvent { at_IN : A; at_OUT : A }.
Arguments mkPerEvent {A} _ _.
Arguments at_IN {A} _.
Arguments at_OUT {A} _.

Definition pe_get {A} (e : Event) (p : PerEvent A) : A :=
  match e with IN => at_IN p | OUT => at_OUT p end.

Definition pe_set {A} (e : Event) (a : A) (p : PerEvent A) : PerEvent A :=
  match e with
  | IN => mkPerEvent a (at_OUT p)
  | OUT => mkPerEvent (at_IN p) a
  end.

(** One element of the detector's output. *)
Record Detection := mkDetection {
  det_bbox : BBox;
  det_display_category : string;
  det_confidence : Q
}.

Record VehicleTracker := mkTracker {
  track_id : Z;
  category : string;
  confidence : Q;
  positions : list (Z * Z);      (* deque(maxlen=30) *)
  bbox : BBox;
  counted : bool;
  direction : option Event;      (* None, 'IN' or 'OUT' *)
  crossed_line : bool;
  last_seen : Z                  (* microseconds *)
}.

Definition maxlen : nat := 30.

(** [deque.append] on a deque bounded by [maxlen]: a full deque drops its
    leftmost element. *)
Definition deque_append (d : list (Z * Z)) (p : Z * Z) : list (Z * Z) :=
  if (maxlen <=? length d)%nat then drop 1 d ++ [p] else d ++ [p].

(** [VehicleTracker.get_center] *)
Definition get_center (b : BBox) : Z * Z :=
  (py_int ((bx1 b + bx2 b) / 2), py_int ((by1 b + by2 b) / 2)).

(** [VehicleTracker.__init__]; [now_t] is its reading of the clock. *)
Definition VehicleTracker_init (tid : Z) (b : BBox) (cat : string) (conf : Q)
    (now_t : Z) : VehicleTracker :=
  {| track_id := tid; category := cat; confidence := conf;
     positions := deque_append [] (get_center b);
     bbox := b; counted := false; direction := None; crossed_line := false;
     last_seen := now_t |}.

(** [VehicleTracker.update] *)
Definition tracker_update (tr : VehicleTracker) (b : BBox) (now_t : Z) : VehicleTracker :=
  {| track_id := track_id tr; category := category tr; confidence := confidence tr;
     positions := deque_append (positions tr) (get_center b);
     bbox := b; counted := counted tr; direction := direction tr;
     crossed_line := crossed_line tr; last_seen := now_t |}.

Definition set_confidence (tr : VehicleTracker) (conf : Q) : VehicleTracker :=
  {| track_id := track_id tr; category := category tr; confidence := conf;
     positions := positions tr; bbox := bbox tr; counted := counted tr;
     direction := direction tr; crossed_line := crossed_line tr;
     last_seen := last_seen tr |}.

Definition sum_Z (xs : list Z) : Z := foldr Z.add 0 xs.

(** [np.mean] of a list of ints. *)
Definition mean (xs : list Z) : Q := (inject_Z (sum_Z xs) / inject_Z (Z.of_nat (length xs)))%Q.

(** [end_x - start_x] of [get_trajectory_direction]: the mean x of the
    last five positions minus the mean x of the first five. *)
Definition displacement (ps : list (Z * Z)) : Q :=
  let start_x := mean (map fst (take 5 ps)) in
  let end_x := mean (map fst (drop (length ps - 5) ps)) in
  (end_x - start_x)%Q.

(** [VehicleTracker.get_trajectory_direction] *)
Definition get_trajectory_direction (tr : VehicleTracker) : option Direction :=
  if (length (positions tr) <? 5)%nat then None
  else
    if Qgtb (py_abs (displacement (positions tr))) 30
    then Some (if Qgtb (displacement (positions tr)) 0 then RIGHT else LEFT)
    else None.

(** [timedelta.total_seconds] *)
Definition total_seconds (us : Z) : Q := (inject_Z us / 1000000)%Q.

(** [VehicleTracker.is_stale]; [now_t] is its reading of the clock. *)
Definition is_stale (tr : VehicleTracker) (max_age_seconds : Q) (now_t : Z) : bool :=
  let age := total_seconds (now_t - last_seen tr) in
  Qgtb age max_age_seconds.

(** ** The counter *)

Record VehicleCounter := mkCounter {
  line_position : Q;
  direction_mapping : Direction -> option Event;
  trackers : list (Z * VehicleTracker);
  next_track_id : Z;
  counts : PerEvent (gmap string Z);
  total_counts : PerEvent Z;
  max_distance : Q;
  max_age : Q
}.

(** The default argument [{'LEFT': 'OUT', 'RIGHT': 'IN'}]. *)
Definition default_direction_mapping (d : Direction) : option Event :=
  match d with LEFT => Some OUT | RIGHT => Some IN end.

(** [VehicleCounter.__init__] *)
Definition VehicleCounter_init (line_position : Q)
    (direction_mapping : Direction -> option Event) : VehicleCounter :=
  {| line_position := line_position;
     direction_mapping := direction_mapping;
     trackers := [];
     next_track_id := 1;
     counts := mkPerEvent ∅ ∅;
     total_counts := mkPerEvent 0 0;
     max_distance := 100;
     max_age := 2 |}.

(** How a call ends: it returns a value or raises an exception. *)
Inductive outcome (A : Type) :=
  | Returned (a : A)
  | Raised (exc : string).
Arguments Returned {A} _.
Arguments Raised {A} _.

(** The call [VehicleCounter(line_position, direction_mapping)]: the body
    of [__init__] is a sequence of assignments and has no [raise]. *)
Definition construct (line_position : Q)
    (direction_mapping : Direction -> option Event) : outcome VehicleCounter :=
  Returned (VehicleCounter_init line_position direction_mapping).

(** [VehicleCounter.reset_counts] *)
Definition reset_counts (c : VehicleCounter) : VehicleCounter :=
  {| line_position := line_position c;
     direction_mapping := direction_mapping c;
     trackers := trackers c;
     next_track_id := next_track_id c;
     counts := mkPerEvent ∅ ∅;
     total_counts := mkPerEvent 0 0;
     max_distance := max_distance c;
     max_age := max_age c |}.

(** Reading [d[k]] on a [defaultdict(int)]: the value, 0 when absent. *)
Definition dd_get (k : string) (d : gmap string Z) : Z := default 0 (d !! k).

(** The dict after the read [d[k]]: an absent key is inserted with 0. *)
Definition dd_touch (k : string) (d : gmap string Z) : gmap string Z :=
  match d !! k with Some _ => d | None => <[k := 0]> d end.

(** [d[k] += 1] on a [defaultdict(int)]. *)
Definition dd_incr (k : string) (d : gmap string Z) : gmap string Z :=
  <[k := dd_get k d + 1]> d.

(** The sum of a per-category table over all its categories. *)
Definition sum_counts (d : gmap string Z) : Z :=
  map_fold (fun _ v acc => v + acc) 0 d.

(** ** Association of detections with tracks *)

(** [iou_matrix[d, t]]: the IoU of detection [d] with the [t]-th tracker
    of the dict.  The matrix starts as [np.zeros] and the loops read it
    only inside its bounds. *)
Definition iou_matrix (trs : list (Z * VehicleTracker)) (detections : list Detection)
    (d t : nat) : Q :=
  match detections !! d, trs !! t with
  | Some det, Some (_, tracker) => calculate_iou (det_bbox det) (bbox tracker)
  | _, _ => 0%Q
  end.

(** The body of the inner loop over [t]: the accumulator is
    [(best_iou, best_tracker_idx)], with [None] for the index -1. *)
Definition best_step (row : nat -> Q) (matched_trackers : gset nat)
    (acc : Q * option nat) (t : nat) : Q * option nat :=
  if bool_decide (t ∈ matched_trackers) then acc
  else if Qgtb (row t) (fst acc) then (row t, Some t)
  else acc.

(** The inner loop [for t in range(len(self.trackers))], started from the
    minimum IoU threshold 0.3. *)
Definition best_tracker (row : nat -> Q) (matched_trackers : gset nat) (n_trackers : nat)
    : Q * option nat :=
  foldl (best_step row matched_trackers) ((3 # 10)%Q, None) (seq 0 n_trackers).

Record MatchState := mkMatchState {
  ms_matched : list (nat * Z);            (* dict: detection index -> track id *)
  ms_unmatched_detections : list nat;
  ms_matched_trackers : gset nat
}.

(** The body of the greedy loop over [d]. *)
Definition match_step (trs : list (Z * VehicleTracker)) (detections : list Detection)
    (st : MatchState) (d : nat) : MatchState :=
  match snd (best_tracker (iou_matrix trs detections d) (ms_matched_trackers st) (length trs)) with
  | Some best_tracker_idx =>
      let track_id := nth best_tracker_idx (dict_keys trs) 0 in
      {| ms_matched := dict_set d track_id (ms_matched st);
         ms_unmatched_detections := ms_unmatched_detections st;
         ms_matched_trackers := {[best_tracker_idx]} ∪ ms_matched_trackers st |}
  | None =>
      {| ms_matched := ms_matched st;
         ms_unmatched_detections := ms_unmatched_detections st ++ [d];
         ms_matched_trackers := ms_matched_trackers st |}
  end.

Definition match_loop (trs : list (Z * VehicleTracker)) (detections : list Detection)
    (ds : list nat) : MatchState :=
  foldl (match_step trs detections) (mkMatchState [] [] ∅) ds.

(** [VehicleCounter.match_detections_to_trackers]: it reads
    [self.trackers] and returns [(matched, unmatched_detections)]. *)
Definition match_detections_to_trackers (trs : list (Z * VehicleTracker))
    (detections : list Detection) : list (nat * Z) * list nat :=
  if (length trs =? 0)%nat then ([], seq 0 (length detections))
  else if (length detections =? 0)%nat then ([], [])
  else
    let st := match_loop trs detections (seq 0 (length detections)) in
    (ms_matched st, ms_unmatched_detections st).

(** ** Line crossing *)

(** [VehicleCounter.check_line_crossing] *)
Definition check_line_crossing (tracker : VehicleTracker) (line_x : Z) : bool :=
  let ps := positions tracker in
  if (length ps <? 2)%nat then false
  else
    match ps !! (length ps - 2)%nat, ps !! (length ps - 1)%nat with
    | Some prev_pos, Some curr_pos =>
        ((fst prev_pos <? line_x) && (line_x <=? fst curr_pos))
        || ((fst prev_pos >? line_x) && (line_x >=? fst curr_pos))
    | _, _ => false
    end.

(** The event a tracker is counted for when the loop of [update] reaches
    the crossing test with it: the tracker is not counted yet, it crossed
    the line, and its trajectory direction is a key of the mapping. *)
Definition count_decision (dm : Direction -> option Event) (line_x : Z)
    (tracker : VehicleTracker) : option (Direction * Event) :=
  if negb (counted tracker) && check_line_crossing tracker line_x then
    match get_trajectory_direction tracker with
    | Some dir =>
        match dm dir with
        | Some count_type => Some (dir, count_type)
        | None => None
        end
    | None => None
    end
  else None.

(** The assignments to the tracker in the counting branch. *)
Definition mark_counted (tr : VehicleTracker) (count_type : Event) : VehicleTracker :=
  {| track_id := track_id tr; category := category tr; confidence := confidence tr;
     positions := positions tr; bbox := bbox tr; counted := true;
     direction := Some count_type; crossed_line := true;
     last_seen := last_seen tr |}.

(** One line printed by the counting branch, with the id of the tracker
    that caused it. *)
Record CountEvent := mkCountEvent {
  ev_track : Z;
  ev_category : string;
  ev_direction : Direction;
  ev_count_type : Event
}.

(** ** The frame update *)

(** The loop over the matched pairs: [self.trackers[track_id].update(bbox)]
    and the assignment of the confidence.  The pairs come from
    [match_detections_to_trackers], so both lookups succeed. *)
Definition apply_matched (now : nat -> Z) (detections : list Detection)
    (acc : list (Z * VehicleTracker) * nat) (m : nat * Z) : list (Z * VehicleTracker) * nat :=
  let '(trs, tick) := acc in
  let '(det_idx, track_id) := m in
  match detections !! det_idx, dict_get track_id trs with
  | Some detection, Some tr =>
      (dict_set track_id
         (set_confidence (tracker_update tr (det_bbox detection) (now tick))
                         (det_confidence detection)) trs,
       S tick)
  | _, _ => acc
  end.

(** The loop over the unmatched detections: a new tracker under the next
    track id. *)
Definition create_tracker (now : nat -> Z) (detections : list Detection)
    (acc : list (Z * VehicleTracker) * Z * nat) (det_idx : nat)
    : list (Z * VehicleTracker) * Z * nat :=
  let '(trs, next_id, tick) := acc in
  match detections !! det_idx with
  | Some detection =>
      let tracker := VehicleTracker_init next_id (det_bbox detection)
                       (det_display_category detection) (det_confidence detection)
                       (now tick) in
      (dict_set next_id tracker trs, next_id + 1, S tick)
  | None => acc
  end.

Record CountLoop := mkCountLoop {
  cl_trackers : list (Z * VehicleTracker);
  cl_counts : PerEvent (gmap string Z);
  cl_total_counts : PerEvent Z;
  cl_remove : list Z;                (* trackers_to_remove *)
  cl_log : list CountEvent;
  cl_tick : nat
}.

(** The loop [for track_id, tracker in list(self.trackers.items())].  The
    trackers of the snapshot are the objects of the dict and the loop does
    not change the keys, so the loop rewrites the entries in place; every
    iteration reads the clock once, in [is_stale]. *)
Fixpoint count_loop (now : nat -> Z) (dm : Direction -> option Event) (max_age : Q)
    (line_x : Z) (items : list (Z * VehicleTracker))
    (cnts : PerEvent (gmap string Z)) (totals : PerEvent Z) (tick : nat) : CountLoop :=
  match items with
  | [] => mkCountLoop [] cnts totals [] [] tick
  | (tid, tracker) :: rest =>
      if is_stale tracker max_age (now tick) then
        let r := count_loop now dm max_age line_x rest cnts totals (S tick) in
        mkCountLoop ((tid, tracker) :: cl_trackers r) (cl_counts r) (cl_total_counts r)
                    (tid :: cl_remove r) (cl_log r) (cl_tick r)
      else
        match count_decision dm line_x tracker with
        | Some (dir, count_type) =>
            let cnts' := pe_set count_type
                           (dd_incr (category tracker) (pe_get count_type cnts)) cnts in
            let totals' := pe_set count_type (pe_get count_type totals + 1) totals in
            let r := count_loop now dm max_age line_x rest cnts' totals' (S tick) in
            mkCountLoop ((tid, mark_counted tracker count_type) :: cl_trackers r)
                        (cl_counts r) (cl_total_counts r) (cl_remove r)
                        (mkCountEvent tid (category tracker) dir count_type :: cl_log r)
                        (cl_tick r)
        | None =>
            let r := count_loop now dm max_age line_x rest cnts totals (S tick) in
            mkCountLoop ((tid, tracker) :: cl_trackers r) (cl_counts r) (cl_total_counts r)
                        (cl_remove r) (cl_log r) (cl_tick r)
        end
  end.

(** [line_x = int(width * self.line_position)] for
    [frame_shape = (height, width)]. *)
Definition line_x_of (c : VehicleCounter) (frame_shape : Z * Z) : Z :=
  py_int (inject_Z (snd frame_shape) * line_position c).

(** The trackers after the matched ones are updated, and the index of the
    next clock reading. *)
Definition updated_trackers (now : nat -> Z) (tick : nat) (c : VehicleCounter)
    (detections : list Detection) : list (Z * VehicleTracker) * nat :=
  foldl (apply_matched now detections) (trackers c, tick)
        (fst (match_detections_to_trackers (trackers c) detections)).

(** The trackers after the new ones are created, with [next_track_id] and
    the index of the next clock reading: the trackers the crossing loop
    runs over. *)
Definition created_trackers (now : nat -> Z) (tick : nat) (c : VehicleCounter)
    (detections : list Detection) : list (Z * VehicleTracker) * Z * nat :=
  let '(trs1, tick1) := updated_trackers now tick c detections in
  foldl (create_tracker now detections) (trs1, next_track_id c, tick1)
        (snd (match_detections_to_trackers (trackers c) detections)).

(** The crossing loop of [update]. *)
Definition crossing_loop (now : nat -> Z) (tick : nat) (c : VehicleCounter)
    (detections : list Detection) (frame_shape : Z * Z) : CountLoop :=
  let '(trs2, _, tick2) := created_trackers now tick c detections in
  count_loop now (direction_mapping c) (max_age c) (line_x_of c frame_shape)
             trs2 (counts c) (total_counts c) tick2.

Record UpdateResult := mkUpdateResult {
  ur_counter : VehicleCounter;
  ur_tick : nat;
  ur_log : list CountEvent
}.

(** [VehicleCounter.update] *)
Definition update (now : nat -> Z) (tick : nat) (c : VehicleCounter)
    (detections : list Detection) (frame_shape : Z * Z) : UpdateResult :=
  let '(_, next_id2, _) := created_trackers now tick c detections in
  let r := crossing_loop now tick c detections frame_shape in
  let trs3 := foldl (fun trs track_id => dict_del track_id trs) (cl_trackers r) (cl_remove r) in
  {| ur_counter :=
       {| line_position := line_position c;
          direction_mapping := direction_mapping c;
          trackers := trs3;
          next_track_id := next_id2;
          counts := cl_counts r;
          total_counts := cl_total_counts r;
          max_distance := max_distance c;
          max_age := max_age c |};
     ur_tick := cl_tick r;
     ur_log := cl_log r |}.

(** ** Parking availability *)

Record Availability := mkAvailability {
  av_total_capacity : Z;
  av_cars_in : Z;
  av_cars_out : Z;
  av_currently_parked : Z;
  av_available : Z;
  av_occupancy_percent : Q
}.

(** [a / b] on ints: true division, which raises on a zero divisor. *)
Definition py_truediv (a b : Z) : outcome Q :=
  if b =? 0 then Raised "ZeroDivisionError" else Returned (inject_Z a / inject_Z b)%Q.

Definition outcome_map {A B} (f : A -> B) (o : outcome A) : outcome B :=
  match o with
  | Returned a => Returned (f a)
  | Raised exc => Raised exc
  end.

(** [VehicleCounter.get_parking_availability]: the returned dict. *)
Definition get_parking_availability (c : VehicleCounter) (total_capacity : Z)
    : outcome Availability :=
  let cars_in := dd_get "Car" (pe_get IN (counts c)) in
  let cars_out := dd_get "Car" (pe_get OUT (counts c)) in
  let net_cars := cars_in - cars_out in
  let available := total_capacity - net_cars in
  outcome_map
    (fun occupancy_percent =>
       {| av_total_capacity := total_capacity;
          av_cars_in := cars_in;
          av_cars_out := cars_out;
          av_currently_parked := net_cars;
          av_available := Z.max 0 available;
          av_occupancy_percent := occupancy_percent |})
    (if 0 <? total_capacity
     then outcome_map (fun q => (q * 100)%Q) (py_truediv net_cars total_capacity)
     else Returned 0%Q).

(** The counter after [get_parking_availability]: reading the two
    [defaultdict]s inserts the key ['Car'] where it was absent. *)
Definition after_parking_availability (c : VehicleCounter) : VehicleCounter :=
  {| line_position := line_position c;
     direction_mapping := direction_mapping c;
     trackers := trackers c;
     next_track_id := next_track_id c;
     counts := mkPerEvent (dd_touch "Car" (at_IN (counts c)))
                          (dd_touch "Car" (at_OUT (counts c)));
     total_counts := total_counts c;
     max_distance := max_distance c;
     max_age := max_age c |}.

(** ** Sequences of calls *)

Inductive Op :=
  | OpUpdate (detections : list Detection) (frame_shape : Z * Z)
  | OpReset
  | OpAvailability (total_capacity : Z).

(** A counter together with the index of the next clock reading and the
    count events printed so far. *)
Record World := mkWorld {
  w_counter : VehicleCounter;
  w_tick : nat;
  w_log : list CountEvent
}.

Definition step (now : nat -> Z) (w : World) (op : Op) : World :=
  match op with
  | OpUpdate detections frame_shape =>
      let u := update now (w_tick w) (w_counter w) detections frame_shape in
      mkWorld (ur_counter u) (ur_tick u) (w_log w ++ ur_log u)
  | OpReset => mkWorld (reset_counts (w_counter w)) (w_tick w) (w_log w)
  | OpAvailability _ => mkWorld (after_parking_availability (w_counter w)) (w_tick w) (w_log w)
  end.

Definition run (now : nat -> Z) (w : World) (ops : list Op) : World :=
  foldl (step now) w ops.

(** The world right after construction. *)
Definition start (line_position : Q) (dm : Direction -> option Event) : World :=
  mkWorld (VehicleCounter_init line_position dm) 0 [].

(** The number of count events of a log for one event. *)
Definition count_events (e : Event) (log : list CountEvent) : Z :=
  Z.of_nat (length (filter (fun ev => ev_count_type ev = e) log)).

(** ** Invariants of the counter *)

Definition tracker_inv (next_id : Z) (entry : Z * VehicleTracker) : Prop :=
  track_id (snd entry) = fst entry
  /\ fst entry < next_id
  /\ (1 <= length (positions (snd entry)) <= maxlen)%nat
  /\ (counted (snd entry) = true -> 5 <= length (positions (snd entry)))%nat.

Definition counter_inv (c : VehicleCounter) : Prop :=
  NoDup (dict_keys (trackers c))
  /\ Forall (tracker_inv (next_track_id c)) (trackers c)
  /\ (forall e, pe_get e (total_counts c) = sum_counts (pe_get e (counts c))).

(** A track id whose counting is over: it was given out already, and the
    track, if it is still live, is counted. *)
Definition settled (c : VehicleCounter) (tid : Z) : Prop :=
  tid < next_track_id c
  /\ (forall tr, dict_get tid (trackers c) = Some tr -> counted tr = true).

(** The crossing condition on the last two positions. *)
Definition crossing_condition (ps : list (Z * Z)) (line_x : Z) : Prop :=
  (2 <= length ps)%nat
  /\ exists prev_pos curr_pos,
       ps !! (length ps - 2)%nat = Some prev_pos
       /\ ps !! (length ps - 1)%nat = Some curr_pos
       /\ ((fst prev_pos < line_x /\ line_x <= fst curr_pos)
           \/ (fst prev_pos > line_x /\ line_x >= fst curr_pos)).

(** What a matched update keeps of a tracker: everything but the box, the
    confidence and the time it was last seen; the position history gets
    one more entry, within the bound of the deque. *)
Definition evolves (tr0 tr1 : VehicleTracker) : Prop :=
  track_id tr1 = track_id tr0
  /\ category tr1 = category tr0
  /\ counted tr1 = counted tr0
  /\ direction tr1 = direction tr0
  /\ crossed_line tr1 = crossed_line tr0
  /\ (length (positions tr0) <= length (positions tr1))%nat
  /\ (length (positions tr0) <= maxlen -> length (positions tr1) <= maxlen)%nat.

(** A tracker as [VehicleTracker.__init__] leaves it. *)
Definition fresh_tracker (tr : VehicleTracker) : Prop :=
  counted tr = false /\ length (positions tr) = 1%nat.

(** What the crossing loop does to a tracker: nothing, or it marks an
    uncounted tracker with at least five positions as counted. *)
Definition loop_rel (tr0 tr1 : VehicleTracker) : Prop :=
  tr1 = tr0
  \/ (counted tr0 = false
      /\ (5 <= length (positions tr0))%nat
      /\ exists count_type, tr1 = mark_counted tr0 count_type).

(** Dicts with the same keys in the same order and related values. *)
Definition dict_rel {K V} (R : V -> V -> Prop) (d d' : list (K * V)) : Prop :=
  Forall2 (fun e e' => fst e' = fst e /\ R (snd e) (snd e')) d d'.

(** The invariant of a run: the counter invariant, no track id occurs
    twice in the count events, and every track id that occurs in them is
    settled. *)
Definition world_inv (w : World) : Prop :=
  counter_inv (w_counter w)
  /\ NoDup (ev_track <$> w_log w)
  /\ (forall tid, tid ∈ (ev_track <$> w_log w) -> settled (w_counter w) tid).


(** ** Scenarios *)

(** A detection of a car in a box 400 wide and 10 high centered at
    [(x, 5)]. *)
Definition wide_detection (x : Z) : Detection :=
  mkDetection (mkBBox (inject_Z (x - 200)) 0 (inject_Z (x + 200)) 10) "Car" (9 # 10).

(** A clock that advances by 0.1 s between two readings. *)
Definition steady_clock (n : nat) : Z := Z.of_nat n * 100000.

(** A clock that advances by 0.1 s between two readings and jumps to 10 s
    at reading [k]. *)
Definition stalling_clock (k n : nat) : Z :=
  if (n <? k)%nat then Z.of_nat n * 100000 else 10000000.

(** The tracker of a car seen five times at x = 100 and then at x = 260,
    at clock reading 10. *)
Definition crossing_tracker : VehicleTracker :=
  {| track_id := 1; category := "Car"; confidence := 9 # 10;
     positions := [(100, 5); (100, 5); (100, 5); (100, 5); (100, 5); (260, 5)];
     bbox := mkBBox 60 0 460 10;
     counted := false; direction := None; crossed_line := false;
     last_seen := 1000000 |}.

(** Five frames of the given shape with the same car at x = 100. *)
Definition five_frames (frame_shape : Z * Z) : list Op :=
  replicate 5 (OpUpdate [wide_detection 100] frame_shape).

(** ** The greedy matching, stated *)

(** Track id [tid] is claimed by a detection before [d]. *)
Definition claimed_before (matched : list (nat * Z)) (d : nat) (tid : Z) : Prop :=
  exists d', (d' < d)%nat /\ dict_get d' matched = Some tid.

(** The tracker at index [t] of the dict is not claimed by a detection
    before [d]. *)
Definition free_for (trs : list (Z * VehicleTracker)) (matched : list (nat * Z))
    (d t : nat) : Prop :=
  exists tid, dict_keys trs !! t = Some tid /\ ~ claimed_before matched d tid.

(** Detection [d] is matched to the track with the highest IoU among the
    free ones, the first of them in the order of the dict, and that IoU
    exceeds 0.3. *)
Definition greedy_match (trs : list (Z * VehicleTracker)) (detections : list Detection)
    (matched : list (nat * Z)) (d : nat) (tid : Z) : Prop :=
  exists t,
    dict_keys trs !! t = Some tid
    /\ ~ claimed_before matched d tid
    /\ (3 # 10 < iou_matrix trs detections d t)%Q
    /\ (forall t', free_for trs matched d t' ->
                   (iou_matrix trs detections d t' <= iou_matrix trs detections d t)%Q)
    /\ (forall t', (t' < t)%nat -> free_for trs matched d t' ->
                   (iou_matrix trs detections d t' < iou_matrix trs detections d t)%Q).

(** No free track has an IoU above 0.3 with detection [d]. *)
Definition greedy_unmatched (trs : list (Z * VehicleTracker)) (detections : list Detection)
    (matched : list (nat * Z)) (d : nat) : Prop :=
  forall t', free_for trs matched d t' -> (iou_matrix trs detections d t' <= 3 # 10)%Q.

(** The invariant of the greedy loop after the detections below [k]. *)
Definition match_inv (trs : list (Z * VehicleTracker)) (detections : list Detection)
    (k : nat) (st : MatchState) : Prop :=
  (forall d tid, dict_get d (ms_matched st) = Some tid -> (d < k)%nat)
  /\ NoDup (dict_keys (ms_matched st))
  /\ NoDup (ms_unmatched_detections st)
  /\ (forall d, d ∈ ms_unmatched_detections st <->
                (d < k)%nat /\ dict_get d (ms_matched st) = None)
  /\ (forall t, t ∈ ms_matched_trackers st <->
                exists tid d, dict_keys trs !! t = Some tid
                              /\ dict_get d (ms_matched st) = Some tid)
  /\ (forall d tid, dict_get d (ms_matched st) = Some tid ->
                    greedy_match trs detections (ms_matched st) d tid)
  /\ (forall d, d ∈ ms_unmatched_detections st ->
                greedy_unmatched trs detections (ms_matched st) d).

(** ** Further functions and invariants *)

(** The dict returned by [VehicleCounter.get_counts]; the two tables are
    plain-dict copies of the [defaultdict]s. *)
Record Counts := mkCounts {
  in_counts : gmap string Z;
  out_counts : gmap string Z;
  total_in : Z;
  total_out : Z;
  net_count : Z
}.

(** [VehicleCounter.get_counts] *)
Definition get_counts (c : VehicleCounter) : Counts :=
  {| in_counts := pe_get IN (counts c);
     out_counts := pe_get OUT (counts c);
     total_in := pe_get IN (total_counts c);
     total_out := pe_get OUT (total_counts c);
     net_count := pe_get IN (total_counts c) - pe_get OUT (total_counts c) |}.

(** The number of count events of a log for one event and one category. *)
Definition count_events_of (e : Event) (cat : string) (log : list CountEvent) : Z :=
  Z.of_nat (length (filter (fun ev => ev_count_type ev = e /\ ev_category ev = cat) log)).

Definition is_reset (op : Op) : bool :=
  match op with OpReset => true | _ => false end.

(** What holds of every tracker of a counter: its last position is the
    center of its box; the flags [counted] and [crossed_line] agree; a
    counted tracker has an event and at least six positions; an uncounted
    one has no event. *)
Definition tracker_shape (tr : VehicleTracker) : Prop :=
  last (positions tr) = Some (get_center (bbox tr))
  /\ crossed_line tr = counted tr
  /\ (counted tr = true -> is_Some (direction tr) /\ (6 <= length (positions tr))%nat)
  /\ (counted tr = false -> direction tr = None).

(** The entry that [update] creates for the [j]-th unmatched detection. *)
Definition created_entry (now : nat -> Z) (next_id : Z) (tick : nat) (j : nat)
    (detection : Detection) : Z * VehicleTracker :=
  (next_id + Z.of_nat j,
   VehicleTracker_init (next_id + Z.of_nat j) (det_bbox detection)
     (det_display_category detection) (det_confidence detection) (now (tick + j)%nat)).

(** All the frames of a sequence of calls have the width [width]. *)
Definition frames_of_width (width : Z) (ops : list Op) : bool :=
  forallb (fun op => match op with
                     | OpUpdate _ frame_shape => snd frame_shape =? width
                     | _ => true
                     end) ops.

(** ** The parking slot row (database.py) and the counts endpoint (app.py) *)

(** The columns of [ParkingSlot] that its methods use; times are in
    microseconds like the clock of the counter. *)
Record ParkingSlot := mkParkingSlot {
  total_capacity : Z;
  occupied_count : Z;
  available_count : Z;
  last_updated : Z
}.

(** [ParkingSlot.allocate_slot]; [utcnow] is its reading of the clock. *)
Definition allocate_slot (p : ParkingSlot) (utcnow : Z) : ParkingSlot * bool :=
  if 0 <? available_count p then
    ({| total_capacity := total_capacity p;
        occupied_count := occupied_count p + 1;
        available_count := available_count p - 1;
        last_updated := utcnow |}, true)
  else (p, false).

(** [ParkingSlot.release_slot] *)
Definition release_slot (p : ParkingSlot) (utcnow : Z) : ParkingSlot * bool :=
  if 0 <? occupied_count p then
    ({| total_capacity := total_capacity p;
        occupied_count := occupied_count p - 1;
        available_count := available_count p + 1;
        last_updated := utcnow |}, true)
  else (p, false).

Inductive SlotOp :=
  | Allocate (utcnow : Z)
  | Release (utcnow : Z).

Definition slot_step (p : ParkingSlot) (op : SlotOp) : ParkingSlot * bool :=
  match op with
  | Allocate utcnow => allocate_slot p utcnow
  | Release utcnow => release_slot p utcnow
  end.

(** A sequence of calls on one row, with the results of the calls. *)
Fixpoint slot_run (p : ParkingSlot) (ops : list SlotOp) : ParkingSlot * list bool :=
  match ops with
  | [] => (p, [])
  | op :: ops' =>
      let '(p1, ok) := slot_step p op in
      let '(p2, results) := slot_run p1 ops' in
      (p2, ok :: results)
  end.

(** The number of calls of a sequence that are allocations (for
    [alloc = true]) or releases and returned [True]. *)
Fixpoint successes (alloc : bool) (ops : list SlotOp) (results : list bool) : Z :=
  match ops, results with
  | op :: ops', ok :: results' =>
      (match op, alloc with
       | Allocate _, true | Release _, false => if ok then 1 else 0
       | _, _ => 0
       end) + successes alloc ops' results'
  | _, _ => 0
  end.

(** The part of [api_vehicle_counts] that works on the counter: the
    counts, the parking information for the capacity of the row (100
    without a row), and the counter after the call.  [get_counts] copies
    the tables before [get_parking_availability] reads them. *)
Definition api_vehicle_counts (c : VehicleCounter) (parking : option ParkingSlot)
    : Counts * outcome Availability * VehicleCounter :=
  let counts := get_counts c in
  let capacity := match parking with Some p => total_capacity p | None => 100 end in
  let parking_info := get_parking_availability c capacity in
  (counts, parking_info, after_parking_availability c).

(** ** The detection service (detection_service.py) *)

Definition CLASS_MAPPING : list (string * string) :=
  [("bus", "Bus"); ("car", "Car"); ("microbus", "Bus"); ("motorbike", "2-Wheeler");
   ("pickup-van", "Truck"); ("truck", "Truck")].

Definition PARKING_CLASSES : list string := ["car"].

(** [self.class_names] *)
Definition class_names : list string :=
  ["bus"; "car"; "microbus"; "motorbike"; "pickup-van"; "truck"].

(** [VehicleDetectionService.classify_vehicle] *)
Definition classify_vehicle (original_class : string) : string :=
  default "Unknown" (dict_get original_class CLASS_MAPPING).

(** [VehicleDetectionService.is_parking_applicable] *)
Definition is_parking_applicable (original_class : string) : bool :=
  bool_decide (original_class ∈ PARKING_CLASSES).

(** [l[i]] on a list: a negative index counts from the end, an index out
    of range raises. *)
Definition py_index {A} (l : list A) (i : Z) : outcome A :=
  let n := Z.of_nat (length l) in
  let i' := if i <? 0 then i + n else i in
  if (0 <=? i') && (i' <? n) then
    match l !! Z.to_nat i' with
    | Some a => Returned a
    | None => Raised "IndexError"
    end
  else Raised "IndexError".

(** One box of the model's output: [box.cls[0]], [box.conf[0]] and
    [box.xyxy[0]]. *)
Record Box := mkBox {
  box_cls : Q;
  box_conf : Q;
  box_xyxy : BBox
}.

(** One element of the list [detect_vehicles] returns. *)
Record VehicleDetection := mkVehicleDetection {
  vd_class_id : Z;
  vd_original_class : string;
  vd_display_category : string;
  vd_confidence : Q;
  vd_bbox : BBox;
  vd_parking_applicable : bool
}.

(** The body of the loop over the boxes in [detect_vehicles]. *)
Definition make_detection (box : Box) : outcome VehicleDetection :=
  let class_id := py_int (box_cls box) in
  match py_index class_names class_id with
  | Returned original_class =>
      Returned {| vd_class_id := class_id;
                  vd_original_class := original_class;
                  vd_display_category := default "Unknown" (dict_get original_class CLASS_MAPPING);
                  vd_confidence := box_conf box;
                  vd_bbox := box_xyxy box;
                  vd_parking_applicable := bool_decide (original_class ∈ PARKING_CLASSES) |}
  | Raised exc => Raised exc
  end.

(** The two loops of [detect_vehicles], over the boxes of every result:
    the first box that raises ends them. *)
Fixpoint collect_detections (boxes : list Box) (detections : list VehicleDetection)
    : outcome (list VehicleDetection) :=
  match boxes with
  | [] => Returned detections
  | box :: rest =>
      match make_detection box with
      | Returned detection => collect_detections rest (detections ++ [detection])
      | Raised exc => Raised exc
      end
  end.

(** [VehicleDetectionService.detect_vehicles].  The argument is what the
    model does with the image: [None] when the model cannot be loaded,
    otherwise the outcome of the inference call, a list of results with
    their boxes.  Every exception ends in the handler, which returns the
    empty list. *)
Definition detect_vehicles (inference : option (outcome (list (list Box))))
    : list VehicleDetection :=
  match inference with
  | None => []
  | Some (Raised _) => []
  | Some (Returned results) =>
      match collect_detections (concat results) [] with
      | Returned detections => detections
      | Raised _ => []
      end
  end.

(** The dict [get_detection_summary] returns. *)
Record Summary := mkSummary {
  sm_total : Z;
  sm_by_category : gmap string Z;
  sm_parking_applicable : Z
}.

(** The body of the loop of [get_detection_summary]. *)
Definition summary_step (summary : Summary) (det : VehicleDetection) : Summary :=
  let category := vd_display_category det in
  let by_category :=
    match sm_by_category summary !! category with
    | None => <[category := 0]> (sm_by_category summary)
    | Some _ => sm_by_category summary
    end in
  let by_category' := <[category := default 0 (by_category !! category) + 1]> by_category in
  {| sm_total := sm_total summary;
     sm_by_category := by_category';
     sm_parking_applicable :=
       if vd_parking_applicable det then sm_parking_applicable summary + 1
       else sm_parking_applicable summary |}.

(** [VehicleDetectionService.get_detection_summary] *)
Definition get_detection_summary (detections : list VehicleDetection) : Summary :=
  foldl summary_step
        {| sm_total := Z.of_nat (length detections);
           sm_by_category := ∅;
           sm_parking_applicable := 0 |}
        detections.

(** The keys of a detection that [VehicleCounter.update] reads. *)
Definition counter_detection (det : VehicleDetection) : Detection :=
  mkDetection (vd_bbox det) (vd_display_category det) (vd_confidence det).

(** The call [CameraFeed.get_frame_with_counting] makes on the counter
    with one frame: the detections of the frame go to [update] with the
    shape of the frame.  The drawing that follows only reads the trackers
    and the tables (see [after_draw_count_display] below). *)
Definition frame_op (frame : option (outcome (list (list Box))) * (Z * Z)) : Op :=
  OpUpdate (counter_detection <$> detect_vehicles (fst frame)) (snd frame).

Definition display_categories : list string := ["Bus"; "Car"; "2-Wheeler"; "Truck"].

(** The class ids that index [class_names], from the front or, when
    negative, from the end. *)
Definition class_id_in_range (box : Box) : Prop :=
  -6 <= py_int (box_cls box) < 6.

(** The calls that [get_frame_with_counting] and the two endpoints make
    on the counter: the detections of an update are the ones of the
    detection service. *)
Definition from_service (op : Op) : Prop :=
  match op with
  | OpUpdate detections _ =>
      exists inference, detections = counter_detection <$> detect_vehicles inference
  | _ => True
  end.

(** The detections of an update have a category with the property [P]. *)
Definition detections_in (P : string -> Prop) (op : Op) : Prop :=
  match op with
  | OpUpdate detections _ => Forall (fun det => P (det_display_category det)) detections
  | _ => True
  end.

(** ** The count display (vehicle_counter.py) *)

(** The categories [draw_count_display] lists, in its order. *)
Definition drawn_categories : list string := ["Car"; "2-Wheeler"; "Bus"; "Truck"].

(** The counter after [draw_count_display]: each of its two loops reads
    [self.counts[...][category]] for the four categories, which inserts
    the absent ones with 0. *)
Definition after_draw_count_display (c : VehicleCounter) : VehicleCounter :=
  {| line_position := line_position c;
     direction_mapping := direction_mapping c;
     trackers := trackers c;
     next_track_id := next_track_id c;
     counts := mkPerEvent
                 (foldl (fun d cat => dd_touch cat d) (at_IN (counts c)) drawn_categories)
                 (foldl (fun d cat => dd_touch cat d) (at_OUT (counts c)) drawn_categories);
     total_counts := total_counts c;
     max_distance := max_distance c;
     max_age := max_age c |}.

(** * Properties *)

(** ** Python primitives *)

Lemma Qgtb_true a b : Qgtb a b = true <-> (b < a)%Q.
Proof.
  unfold Qgtb. destruct (Qlt_le_dec b a) as [H|H]; split; intros H0; try done.
  exfalso. apply (Qlt_not_le _ _ H0 H).
Qed.

Lemma Qgtb_false a b : Qgtb a b = false <-> (a <= b)%Q.
Proof.
  unfold Qgtb. destruct (Qlt_le_dec b a) as [H|H]; split; intros H0; try done.
  exfalso. apply (Qlt_not_le _ _ H H0).
Qed.

Lemma py_max_spec a b :
  (a <= py_max a b /\ b <= py_max a b /\ (py_max a b == a \/ py_max a b == b))%Q.
Proof.
  unfold py_max. destruct (Qlt_le_dec a b); repeat split; try lra; auto with qarith.
Qed.

Lemma py_min_spec a b :
  (py_min a b <= a /\ py_min a b <= b /\ (py_min a b == a \/ py_min a b == b))%Q.
Proof.
  unfold py_min. destruct (Qlt_le_dec b a); repeat split; try lra; auto with qarith.
Qed.

Lemma py_max_comm a b : (py_max a b == py_max b a)%Q.
Proof. unfold py_max. destruct (Qlt_le_dec a b), (Qlt_le_dec b a); lra. Qed.

Lemma py_min_comm a b : (py_min a b == py_min b a)%Q.
Proof. unfold py_min. destruct (Qlt_le_dec a b), (Qlt_le_dec b a); lra. Qed.

Lemma py_max_0_proper a b : (a == b)%Q -> (py_max 0 a == py_max 0 b)%Q.
Proof. intros H. unfold py_max. destruct (Qlt_le_dec 0 a), (Qlt_le_dec 0 b); lra. Qed.

Lemma py_max_0_nonpos a : (a <= 0)%Q -> (py_max 0 a == 0)%Q.
Proof. intros H. unfold py_max. destruct (Qlt_le_dec 0 a); lra. Qed.

(** ** IoU *)

Lemma overlap_comm lo1 hi1 lo2 hi2 :
  (overlap lo1 hi1 lo2 hi2 == overlap lo2 hi2 lo1 hi1)%Q.
Proof.
  unfold overlap. apply py_max_0_proper.
  rewrite (py_min_comm hi1), (py_max_comm lo1). reflexivity.
Qed.

Lemma overlap_bounds lo1 hi1 lo2 hi2 :
  (lo1 <= hi1)%Q -> (0 <= overlap lo1 hi1 lo2 hi2 <= hi1 - lo1)%Q.
Proof.
  intros H. unfold overlap.
  pose proof (py_max_spec 0 (py_min hi1 hi2 - py_max lo1 lo2)) as (?&?&[?|?]);
    pose proof (py_min_spec hi1 hi2) as (?&?&?);
    pose proof (py_max_spec lo1 lo2) as (?&?&?); split; lra.
Qed.

Lemma overlap_self lo hi : (lo <= hi)%Q -> (overlap lo hi lo hi == hi - lo)%Q.
Proof.
  intros H. unfold overlap, py_max, py_min.
  repeat destruct (Qlt_le_dec _ _); lra.
Qed.

Lemma overlap_apart lo1 hi1 lo2 hi2 :
  (hi1 <= lo2 \/ hi2 <= lo1)%Q -> (overlap lo1 hi1 lo2 hi2 == 0)%Q.
Proof.
  intros H. unfold overlap. apply py_max_0_nonpos.
  pose proof (py_min_spec hi1 hi2) as (?&?&?).
  pose proof (py_max_spec lo1 lo2) as (?&?&?).
  destruct H; lra.
Qed.

Lemma inter_area_overlap a b :
  inter_area a b
  = (overlap (bx1 a) (bx2 a) (bx1 b) (bx2 b) * overlap (by1 a) (by2 a) (by1 b) (by2 b))%Q.
Proof. reflexivity. Qed.

Lemma inter_area_comm a b : (inter_area a b == inter_area b a)%Q.
Proof.
  rewrite !inter_area_overlap.
  rewrite (overlap_comm (bx1 a)), (overlap_comm (by1 a)). reflexivity.
Qed.

Lemma inter_area_nonneg a b : (0 <= inter_area a b)%Q.
Proof.
  rewrite inter_area_overlap.
  apply Qmult_le_0_compat; apply py_max_spec.
Qed.

Lemma inter_area_le_l a b : box_ok a -> (inter_area a b <= box_area a)%Q.
Proof.
  intros [Hx Hy]. rewrite inter_area_overlap. unfold box_area.
  pose proof (overlap_bounds (bx1 a) (bx2 a) (bx1 b) (bx2 b) Hx).
  pose proof (overlap_bounds (by1 a) (by2 a) (by1 b) (by2 b) Hy).
  nra.
Qed.

Lemma inter_area_le_r a b : box_ok b -> (inter_area a b <= box_area b)%Q.
Proof. intros H. rewrite inter_area_comm. by apply inter_area_le_l. Qed.

Lemma inter_area_self a : box_ok a -> (inter_area a a == box_area a)%Q.
Proof.
  intros [Hx Hy]. rewrite inter_area_overlap. unfold box_area.
  rewrite (overlap_self _ _ Hx), (overlap_self _ _ Hy). reflexivity.
Qed.

Lemma inter_area_disjoint a b : disjoint_boxes a b -> (inter_area a b == 0)%Q.
Proof.
  intros H. rewrite inter_area_overlap.
  destruct H as [H|[H|[H|H]]].
  - rewrite (overlap_apart (bx1 a)) by (by left). ring.
  - rewrite (overlap_apart (bx1 a)) by (by right). ring.
  - rewrite (overlap_apart (by1 a)) by (by left). ring.
  - rewrite (overlap_apart (by1 a)) by (by right). ring.
Qed.

Lemma box_area_nonneg a : box_ok a -> (0 <= box_area a)%Q.
Proof. intros [Hx Hy]. unfold box_area. nra. Qed.

Lemma union_area_comm a b : (union_area a b == union_area b a)%Q.
Proof. unfold union_area. rewrite (inter_area_comm a b). ring. Qed.

(** What [calculate_iou] returns, by the sign of the union area. *)
Lemma calculate_iou_cases a b :
  ((0 < union_area a b /\ calculate_iou a b = inter_area a b / union_area a b)
   \/ (union_area a b <= 0 /\ calculate_iou a b = 0))%Q.
Proof. unfold calculate_iou. destruct (Qlt_le_dec 0 (union_area a b)); auto. Qed.

Lemma calculate_iou_zero_inter a b : (inter_area a b == 0)%Q -> (calculate_iou a b == 0)%Q.
Proof.
  intros H. destruct (calculate_iou_cases a b) as [[_ ->]|[_ ->]]; [|reflexivity].
  unfold Qdiv. rewrite H. ring.
Qed.

Lemma calculate_iou_comm a b : (calculate_iou a b == calculate_iou b a)%Q.
Proof.
  pose proof (union_area_comm a b) as Hu.
  destruct (calculate_iou_cases a b) as [[H1 ->]|[H1 ->]];
    destruct (calculate_iou_cases b a) as [[H2 ->]|[H2 ->]]; try lra.
  rewrite (inter_area_comm a b), Hu. reflexivity.
Qed.

Lemma calculate_iou_range a b :
  box_ok a -> box_ok b -> (0 <= calculate_iou a b <= 1)%Q.
Proof.
  intros Ha Hb.
  pose proof (inter_area_nonneg a b) as Hi0.
  pose proof (inter_area_le_l a b Ha) as Hia.
  pose proof (inter_area_le_r a b Hb) as Hib.
  destruct (calculate_iou_cases a b) as [[H1 ->]|[H1 ->]]; [|split; lra].
  split.
  - apply Qle_shift_div_l; [done |]. rewrite Qmult_0_l. exact Hi0.
  - apply Qle_shift_div_r; [done |]. rewrite Qmult_1_l. unfold union_area. lra.
Qed.

Lemma calculate_iou_self a : box_ok a -> (0 < box_area a)%Q -> (calculate_iou a a == 1)%Q.
Proof.
  intros Ha Hpos. pose proof (inter_area_self a Ha) as Hi.
  assert (Hu : (union_area a a == box_area a)%Q) by (unfold union_area; lra).
  destruct (calculate_iou_cases a a) as [[H1 ->]|[H1 ->]]; [|lra].
  rewrite Hi, Hu. field. lra.
Qed.

Lemma calculate_iou_zero_union a b : (union_area a b <= 0)%Q -> calculate_iou a b = 0%Q.
Proof.
  intros H. destruct (calculate_iou_cases a b) as [[H1 ->]|[H1 ->]]; [lra | done].
Qed.

(** C6 (as stated, refuted): the IoU of a box with itself is not 1 for
    every box with [x1 <= x2] and [y1 <= y2]: a box of area zero has union
    area zero with itself, and the guard on the union area returns 0. *)
Lemma iou_self_not_always_one :
  box_ok (mkBBox 0 0 0 0)
  /\ (calculate_iou (mkBBox 0 0 0 0) (mkBBox 0 0 0 0) == 0)%Q
  /\ ~ (calculate_iou (mkBBox 0 0 0 0) (mkBBox 0 0 0 0) == 1)%Q.
Proof.
  split; [|split].
  - split; simpl; lra.
  - reflexivity.
  - vm_compute. discriminate.
Qed.

(** C6 (amended): for boxes with [x1 <= x2] and [y1 <= y2], the IoU of a
    box of positive area with itself is 1 and that of a box of area zero
    with itself is 0; the IoU of disjoint boxes is 0; the IoU is symmetric,
    lies in [0, 1], and is 0 whenever the union area is 0. *)
Theorem iou_correct (a b : BBox) (Ha : box_ok a) (Hb : box_ok b) :
  ((0 < box_area a -> calculate_iou a a == 1)
   /\ (box_area a == 0 -> calculate_iou a a == 0)
   /\ (disjoint_boxes a b -> calculate_iou a b == 0)
   /\ calculate_iou a b == calculate_iou b a
   /\ 0 <= calculate_iou a b <= 1
   /\ (union_area a b == 0 -> calculate_iou a b == 0))%Q.
Proof.
  repeat split.
  - by apply calculate_iou_self.
  - intros H0. apply calculate_iou_zero_inter.
    rewrite (inter_area_self a Ha). exact H0.
  - intros Hd. by apply calculate_iou_zero_inter, inter_area_disjoint.
  - apply calculate_iou_comm.
  - by apply calculate_iou_range.
  - by apply calculate_iou_range.
  - intros Hu. rewrite calculate_iou_zero_union; [reflexivity | lra].
Qed.

Lemma iou_correct_witness :
  let a := mkBBox 0 0 4 2 in
  let b := mkBBox 2 0 6 2 in
  box_ok a /\ box_ok b
  /\ (calculate_iou a a == 1)%Q
  /\ (calculate_iou a b == 1 # 3)%Q
  /\ (calculate_iou a b == calculate_iou b a)%Q.
Proof.
  intros a b.
  assert (Ha : box_ok a) by (split; simpl; lra).
  assert (Hb : box_ok b) by (split; simpl; lra).
  destruct (iou_correct a b Ha Hb) as (Hself & _ & _ & Hsym & _ & _).
  split; [exact Ha|]. split; [exact Hb|].
  split; [apply Hself; reflexivity|].
  split; [reflexivity | exact Hsym].
Defined.

(** ** Parking availability *)

(** C7: for every counter and capacity, [get_parking_availability]
    returns (no division by zero is raised) with
    [net_cars = counts['IN']['Car'] - counts['OUT']['Car']],
    [available = max(0, capacity - net_cars)], the occupancy percent
    [net_cars / capacity * 100] when [capacity > 0] and 0 when
    [capacity = 0]; with capacity 100, 12 cars in and 3 cars out the
    available count is 91 and the occupancy percent is 9. *)
Theorem parking_availability_correct (c : VehicleCounter) (capacity : Z) :
  let net_cars := dd_get "Car" (pe_get IN (counts c)) - dd_get "Car" (pe_get OUT (counts c)) in
  exists r,
    get_parking_availability c capacity = Returned r
    /\ av_currently_parked r = net_cars
    /\ av_available r = Z.max 0 (capacity - net_cars)
    /\ (0 < capacity ->
        av_occupancy_percent r = (inject_Z net_cars / inject_Z capacity * 100)%Q)
    /\ (capacity = 0 -> av_occupancy_percent r = 0%Q)
    /\ (capacity = 100 ->
        dd_get "Car" (pe_get IN (counts c)) = 12 ->
        dd_get "Car" (pe_get OUT (counts c)) = 3 ->
        av_available r = 91 /\ (av_occupancy_percent r == 9)%Q).
Proof.
  intros net_cars. unfold get_parking_availability. fold net_cars.
  unfold py_truediv.
  destruct (0 <? capacity) eqn:Hpos.
  - apply Z.ltb_lt in Hpos.
    destruct (capacity =? 0) eqn:Hz; [apply Z.eqb_eq in Hz; lia|].
    eexists. split; [reflexivity|].
    cbn [av_currently_parked av_available av_occupancy_percent].
    split; [reflexivity|]. split; [reflexivity|].
    split; [reflexivity|]. split; [lia|].
    intros -> Hin Hout. subst net_cars. rewrite Hin, Hout. split; reflexivity.
  - apply Z.ltb_ge in Hpos.
    eexists. split; [reflexivity|].
    cbn [av_currently_parked av_available av_occupancy_percent].
    split; [reflexivity|]. split; [reflexivity|].
    split; [lia|]. split; [reflexivity|]. lia.
Qed.

Lemma parking_availability_correct_witness :
  let c := mkCounter (1 # 2) default_direction_mapping [] 1
             (mkPerEvent {["Car" := 12]} {["Car" := 3]}) (mkPerEvent 12 3) 100 2 in
  exists r,
    get_parking_availability c 100 = Returned r
    /\ av_available r = 91 /\ (av_occupancy_percent r == 9)%Q.
Proof.
  intros c.
  destruct (parking_availability_correct c 100) as (r & Hr & _ & _ & _ & _ & Hscen).
  exists r. split; [exact Hr|].
  apply Hscen; reflexivity.
Defined.

(** ** Construction *)

(** C9 (as stated, refuted): constructing a counter with a line position
    outside the open interval (0, 1) does not fail: the call with line
    position 2 returns a counter whose line position is 2. *)
Lemma construct_out_of_range_succeeds :
  ~ (0 < 2 < 1)%Q
  /\ construct 2 default_direction_mapping
     = Returned (VehicleCounter_init 2 default_direction_mapping)
  /\ ~ (exists exc, construct 2 default_direction_mapping = Raised exc).
Proof.
  split; [|split].
  - intros [_ H]. revert H. apply Qle_not_lt. discriminate.
  - reflexivity.
  - intros [exc H]. discriminate H.
Qed.

(** C9 (amended): the constructor does not validate the line position:
    for every line position, inside (0, 1) or not, construction succeeds
    and the counter holds the line position it was given, no trackers,
    next track id 1 and zero counts. *)
Theorem construct_succeeds (lp : Q) (dm : Direction -> option Event) :
  exists c,
    construct lp dm = Returned c
    /\ line_position c = lp
    /\ trackers c = []
    /\ next_track_id c = 1
    /\ counts c = mkPerEvent ∅ ∅
    /\ total_counts c = mkPerEvent 0 0.
Proof. eexists. repeat split. Qed.

(** ** Insertion-ordered dictionaries *)

Section OrderedDictFacts.
Context {K V : Type} `{EqDecision K}.
Implicit Types (d : list (K * V)) (k : K) (v : V).

Lemma dict_get_Some_elem d k v : dict_get k d = Some v -> (k, v) ∈ d.
Proof.
  induction d as [|[k' v'] d IH]; simpl; [done|].
  destruct (decide (k = k')) as [->|Hne].
  - intros [= ->]. left.
  - intros H1. right. auto.
Qed.

Lemma dict_get_None d k : dict_get k d = None <-> k ∉ dict_keys d.
Proof.
  induction d as [|[k' v'] d IH]; simpl.
  - split; [intros _; apply not_elem_of_nil | done].
  - rewrite not_elem_of_cons. destruct (decide (k = k')) as [->|Hne]; simpl.
    + split; [done | intros [? _]; done].
    + rewrite IH. tauto.
Qed.

Lemma dict_get_is_Some d k : is_Some (dict_get k d) <-> k ∈ dict_keys d.
Proof.
  rewrite <- not_eq_None_Some, dict_get_None.
  split; [apply dec_stable | auto].
Qed.

Lemma elem_dict_keys d k v : (k, v) ∈ d -> k ∈ dict_keys d.
Proof. intros H1. unfold dict_keys. apply (list_elem_of_fmap_2 fst) in H1. exact H1. Qed.

Lemma dict_get_elem d k v : NoDup (dict_keys d) -> (k, v) ∈ d -> dict_get k d = Some v.
Proof.
  induction d as [|[k' v'] d IH]; simpl; intros Hnd Hin.
  - by apply elem_of_nil in Hin.
  - apply NoDup_cons in Hnd as [Hk' Hnd].
    apply elem_of_cons in Hin as [[= -> ->]|Hin].
    + by rewrite decide_True.
    + destruct (decide (k = k')) as [->|Hne]; [|by apply IH].
      exfalso. apply Hk'. by apply elem_dict_keys in Hin.
Qed.

Lemma dict_get_lookup d i k v :
  NoDup (dict_keys d) -> d !! i = Some (k, v) -> dict_get k d = Some v.
Proof.
  intros Hnd Hi. apply dict_get_elem; [done|].
  apply list_elem_of_lookup. eauto.
Qed.

Lemma dict_get_set_eq d k v : dict_get k (dict_set k v d) = Some v.
Proof.
  induction d as [|[k' v'] d IH]; simpl.
  - by rewrite decide_True.
  - destruct (decide (k = k')) as [->|Hne]; simpl.
    + by rewrite decide_True.
    + by rewrite decide_False.
Qed.

Lemma dict_get_set_ne d k k' v : k <> k' -> dict_get k' (dict_set k v d) = dict_get k' d.
Proof.
  intros Hne. induction d as [|[k0 v0] d IH]; simpl.
  - rewrite decide_False; [done | congruence].
  - destruct (decide (k = k0)) as [->|Hne0]; simpl.
    + destruct (decide (k' = k0)); [congruence | done].
    + destruct (decide (k' = k0)); done.
Qed.

Lemma dict_set_fresh d k v : k ∉ dict_keys d -> dict_set k v d = d ++ [(k, v)].
Proof.
  induction d as [|[k' v'] d IH]; simpl; [done|].
  rewrite not_elem_of_cons. intros [Hne Hnin].
  rewrite decide_False by done. by rewrite IH.
Qed.

(** Assigning to a present key relates the old dict and the new one
    entry by entry. *)
Lemma dict_rel_refl (R : V -> V -> Prop) d : (forall v, R v v) -> dict_rel R d d.
Proof. intros Hrefl. apply Forall_Forall2_diag, Forall_forall. auto. Qed.

Lemma dict_rel_trans (R : V -> V -> Prop) d1 d2 d3 :
  (forall x y z, R x y -> R y z -> R x z) ->
  dict_rel R d1 d2 -> dict_rel R d2 d3 -> dict_rel R d1 d3.
Proof.
  intros Htrans H12. revert d3.
  induction H12 as [|e1 e2 d1 d2 [Hk HR] _ IH]; intros d3 H23.
  - inversion H23. constructor.
  - inversion H23 as [|? e3 ? d3' [Hk' HR'] H23']; subst.
    constructor; [|by apply IH]. split; [congruence | eauto].
Qed.

Lemma dict_rel_app (R : V -> V -> Prop) d1 d1' d2 d2' :
  dict_rel R d1 d1' -> dict_rel R d2 d2' -> dict_rel R (d1 ++ d2) (d1' ++ d2').
Proof. apply Forall2_app. Qed.

Lemma dict_rel_impl (R R' : V -> V -> Prop) d d' :
  (forall x y, R x y -> R' x y) -> dict_rel R d d' -> dict_rel R' d d'.
Proof.
  intros HRR' Hd. eapply Forall2_impl; [exact Hd|].
  intros e e' [? ?]. auto.
Qed.

(** Assigning to a present key relates the old dict and the new one
    entry by entry. *)
Lemma dict_set_rel (R : V -> V -> Prop) d k v v' :
  (forall x, R x x) ->
  dict_get k d = Some v -> R v v' ->
  dict_rel R d (dict_set k v' d).
Proof.
  intros Hrefl. induction d as [|[k0 v0] d IH]; simpl; [done|].
  destruct (decide (k = k0)) as [->|Hne].
  - intros [= ->] HR. constructor; [done|]. by apply dict_rel_refl.
  - intros Hget HR. constructor; [done|]. by apply IH.
Qed.

Lemma dict_del_elem d k x : x ∈ dict_del k d -> x ∈ d.
Proof.
  induction d as [|[k' v'] d IH]; simpl; [done|].
  destruct (decide (k = k')) as [->|Hne].
  - intros Hx. by right.
  - intros [->|Hx]%elem_of_cons; [left | right; auto].
Qed.

Lemma dict_del_keys_elem d k k' : k' ∈ dict_keys (dict_del k d) -> k' ∈ dict_keys d.
Proof.
  unfold dict_keys. intros ([k0 v0] & -> & Hin)%list_elem_of_fmap.
  apply dict_del_elem in Hin. by apply (list_elem_of_fmap_2 fst) in Hin.
Qed.

Lemma dict_del_NoDup d k : NoDup (dict_keys d) -> NoDup (dict_keys (dict_del k d)).
Proof.
  induction d as [|[k' v'] d IH]; simpl; [done|].
  intros [Hk' Hnd]%NoDup_cons.
  destruct (decide (k = k')) as [->|Hne]; [done|]. simpl.
  apply NoDup_cons. split; [|auto].
  intros Hin. apply Hk'. by apply dict_del_keys_elem in Hin.
Qed.

Lemma dict_get_del_eq d k : NoDup (dict_keys d) -> dict_get k (dict_del k d) = None.
Proof.
  induction d as [|[k' v'] d IH]; simpl; [done|].
  intros [Hk' Hnd]%NoDup_cons.
  destruct (decide (k = k')) as [->|Hne].
  - by apply dict_get_None.
  - simpl. rewrite decide_False by done. auto.
Qed.

Lemma dict_get_del_ne d k k' : k <> k' -> dict_get k' (dict_del k d) = dict_get k' d.
Proof.
  intros Hne. induction d as [|[k0 v0] d IH]; simpl; [done|].
  destruct (decide (k = k0)) as [->|Hne0]; simpl.
  - rewrite decide_False; [done | congruence].
  - destruct (decide (k' = k0)); done.
Qed.

(** The loop [for k in ks: del d[k]]. *)
Lemma dict_del_all_NoDup d (ks : list K) :
  NoDup (dict_keys d) -> NoDup (dict_keys (foldl (fun d k => dict_del k d) d ks)).
Proof.
  revert d. induction ks as [|k ks IH]; simpl; intros d Hnd; [done|].
  by apply IH, dict_del_NoDup.
Qed.

Lemma dict_del_all_elem d (ks : list K) x :
  x ∈ foldl (fun d k => dict_del k d) d ks -> x ∈ d.
Proof.
  revert d. induction ks as [|k ks IH]; simpl; intros d Hx; [done|].
  apply IH in Hx. by apply dict_del_elem in Hx.
Qed.

Lemma dict_get_del_all d (ks : list K) k :
  NoDup (dict_keys d) ->
  dict_get k (foldl (fun d k => dict_del k d) d ks)
  = if decide (k ∈ ks) then None else dict_get k d.
Proof.
  revert d. induction ks as [|k0 ks IH]; intros d Hnd; cbn [foldl].
  - destruct (decide (k ∈ [])) as [Hin|_]; [by apply elem_of_nil in Hin | done].
  - rewrite IH by by apply dict_del_NoDup.
    destruct (decide (k ∈ ks)) as [Hin|Hnin];
      destruct (decide (k ∈ k0 :: ks)) as [Hin'|Hnin']; try done.
    + exfalso. apply Hnin'. by right.
    + apply elem_of_cons in Hin' as [->|Hin']; [|done].
      by apply dict_get_del_eq.
    + apply dict_get_del_ne. intros ->. apply Hnin'. left.
Qed.

(** Entry-wise related dicts with the same keys have related lookups. *)
Lemma dict_rel_get (R : V -> V -> Prop) d d' k v' :
  dict_rel R d d' ->
  dict_get k d' = Some v' ->
  exists v, dict_get k d = Some v /\ R v v'.
Proof.
  induction 1 as [|[k0 v0] [k1 v1] d d' [Hk HR] _ IH]; simpl; [done|].
  simpl in Hk, HR. subst k1.
  destruct (decide (k = k0)) as [->|Hne]; [|done].
  intros [= ->]. eauto.
Qed.

Lemma dict_rel_get_inv (R : V -> V -> Prop) d d' k v :
  dict_rel R d d' ->
  dict_get k d = Some v ->
  exists v', dict_get k d' = Some v' /\ R v v'.
Proof.
  induction 1 as [|[k0 v0] [k1 v1] d d' [Hk HR] _ IH]; simpl; [done|].
  simpl in Hk, HR. subst k1.
  destruct (decide (k = k0)) as [->|Hne]; [|done].
  intros [= ->]. eauto.
Qed.

Lemma dict_rel_keys (R : V -> V -> Prop) d d' :
  dict_rel R d d' ->
  dict_keys d' = dict_keys d.
Proof.
  induction 1 as [|[k0 v0] [k1 v1] d d' [Hk HR] _ IH]; simpl; [done|].
  simpl in Hk. by rewrite Hk, IH.
Qed.
End OrderedDictFacts.

(** ** Trackers *)

Lemma deque_append_length_ge d p : (length d <= length (deque_append d p))%nat.
Proof.
  unfold deque_append, maxlen.
  destruct (30 <=? length d)%nat eqn:Hfull; rewrite length_app; simpl; [|lia].
  apply Nat.leb_le in Hfull. rewrite length_drop. lia.
Qed.

Lemma deque_append_length_le d p :
  (length d <= maxlen)%nat -> (length (deque_append d p) <= maxlen)%nat.
Proof.
  unfold deque_append, maxlen. intros Hle.
  destruct (30 <=? length d)%nat eqn:Hfull; rewrite length_app; simpl.
  - rewrite length_drop. lia.
  - apply Nat.leb_gt in Hfull. lia.
Qed.

Lemma evolves_refl tr : evolves tr tr.
Proof. unfold evolves. repeat split; auto. Qed.

Lemma evolves_trans tr0 tr1 tr2 : evolves tr0 tr1 -> evolves tr1 tr2 -> evolves tr0 tr2.
Proof.
  unfold evolves. intros (?&?&?&?&?&?&?) (?&?&?&?&?&?&?).
  repeat split; first [congruence | lia].
Qed.

Lemma tracker_update_evolves tr b t conf :
  evolves tr (set_confidence (tracker_update tr b t) conf).
Proof.
  unfold evolves. simpl. repeat split.
  - apply deque_append_length_ge.
  - apply deque_append_length_le.
Qed.

Lemma VehicleTracker_init_fresh tid b cat conf t :
  fresh_tracker (VehicleTracker_init tid b cat conf t).
Proof. split; reflexivity. Qed.

Lemma get_trajectory_direction_length tr dir :
  get_trajectory_direction tr = Some dir -> (5 <= length (positions tr))%nat.
Proof.
  unfold get_trajectory_direction.
  destruct (length (positions tr) <? 5)%nat eqn:Hlen; [done|].
  intros _. by apply Nat.ltb_ge in Hlen.
Qed.

Lemma count_decision_Some dm line_x tr dir count_type :
  count_decision dm line_x tr = Some (dir, count_type) <->
  counted tr = false
  /\ check_line_crossing tr line_x = true
  /\ get_trajectory_direction tr = Some dir
  /\ dm dir = Some count_type.
Proof.
  unfold count_decision.
  destruct (counted tr), (check_line_crossing tr line_x); simpl;
    try (split; [done | intros (?&?&?&?); done]).
  destruct (get_trajectory_direction tr) as [dir'|];
    [|split; [done | intros (?&?&?&?); done]].
  destruct (dm dir') as [ct'|] eqn:Hdm.
  - split.
    + intros [= -> ->]. done.
    + intros (_ & _ & [= ->] & Hdm'). congruence.
  - split; [done|]. intros (_ & _ & [= ->] & Hdm'). congruence.
Qed.

(** ** The phases of [update] *)

(** Updating the matched trackers keeps the keys of the dict and changes
    the trackers only as a matched update does. *)
Lemma apply_matched_rel now detections ms trs tick :
  dict_rel evolves trs (fst (foldl (apply_matched now detections) (trs, tick) ms)).
Proof.
  revert trs tick. induction ms as [|[det_idx tid] ms IH]; intros trs tick.
  - apply dict_rel_refl, evolves_refl.
  - cbn [foldl]. unfold apply_matched at 2.
    destruct (detections !! det_idx) as [det|]; [|apply IH].
    destruct (dict_get tid trs) as [tr|] eqn:Hget; [|apply IH].
    eapply dict_rel_trans; [apply evolves_trans | | apply IH].
    eapply dict_set_rel; [apply evolves_refl | exact Hget | apply tracker_update_evolves].
Qed.

Lemma updated_trackers_rel now tick c detections :
  dict_rel evolves (trackers c) (fst (updated_trackers now tick c detections)).
Proof. apply apply_matched_rel. Qed.

(** Creating trackers appends them to the dict, under the ids from
    [next_track_id] on, when all the keys of the dict are below it. *)
Lemma create_tracker_fold now detections idxs trs next_id tick :
  Forall (fun k => k < next_id) (dict_keys trs) ->
  exists news next_id' tick',
    foldl (create_tracker now detections) (trs, next_id, tick) idxs
    = (trs ++ news, next_id', tick')
    /\ next_id <= next_id'
    /\ NoDup (dict_keys news)
    /\ Forall (fun e => next_id <= fst e < next_id'
                        /\ track_id (snd e) = fst e
                        /\ fresh_tracker (snd e)) news.
Proof.
  revert trs next_id tick. induction idxs as [|i idxs IH]; intros trs next_id tick Hlt.
  - exists [], next_id, tick. rewrite app_nil_r.
    split; [done|]. split; [lia|]. split; constructor.
  - cbn [foldl]. unfold create_tracker at 2.
    destruct (detections !! i) as [det|]; [|by apply IH].
    rewrite dict_set_fresh.
    2:{ intros Hin. rewrite Forall_forall in Hlt. apply Hlt in Hin. lia. }
    set (tr := VehicleTracker_init _ _ _ _ _).
    destruct (IH (trs ++ [(next_id, tr)]) (next_id + 1) (S tick))
      as (news & next_id' & tick' & Heq & Hle & Hnd & Hnews).
    { unfold dict_keys. rewrite fmap_app. apply Forall_app. split.
      - eapply Forall_impl; [exact Hlt|]. simpl. intros; lia.
      - repeat constructor. simpl. lia. }
    exists ((next_id, tr) :: news), next_id', tick'.
    split; [by rewrite Heq, <- app_assoc|].
    split; [lia|]. split.
    + simpl. apply NoDup_cons. split; [|done].
      intros Hin. unfold dict_keys in Hin.
      apply list_elem_of_fmap in Hin as (e & He & Hin).
      rewrite Forall_forall in Hnews. apply Hnews in Hin. lia.
    + constructor.
      * simpl. split; [lia|]. split; [done|]. apply VehicleTracker_init_fresh.
      * eapply Forall_impl; [exact Hnews|]. simpl. intros e (?&?&?). split; [lia | done].
Qed.

(** ** Per-category tables *)

Lemma sum_counts_empty : sum_counts ∅ = 0.
Proof. apply map_fold_empty. Qed.

Lemma sum_counts_insert_fresh k v (d : gmap string Z) :
  d !! k = None -> sum_counts (<[k := v]> d) = v + sum_counts d.
Proof.
  intros Hk. unfold sum_counts.
  apply (map_fold_insert_L (fun _ v acc => v + acc)); [|done].
  intros; lia.
Qed.

Lemma sum_counts_lookup k v (d : gmap string Z) :
  d !! k = Some v -> sum_counts d = v + sum_counts (delete k d).
Proof.
  intros Hk. unfold sum_counts.
  apply (map_fold_delete_L (fun _ v acc => v + acc)); [|done].
  intros; lia.
Qed.

Lemma sum_counts_incr k (d : gmap string Z) : sum_counts (dd_incr k d) = sum_counts d + 1.
Proof.
  unfold dd_incr, dd_get. destruct (d !! k) as [v|] eqn:Hk; simpl.
  - rewrite <- insert_delete_eq.
    rewrite sum_counts_insert_fresh by apply lookup_delete_eq.
    rewrite (sum_counts_lookup k v d Hk). lia.
  - rewrite sum_counts_insert_fresh by done. lia.
Qed.

Lemma sum_counts_touch k (d : gmap string Z) : sum_counts (dd_touch k d) = sum_counts d.
Proof.
  unfold dd_touch. destruct (d !! k) as [v|] eqn:Hk; [done|].
  by rewrite sum_counts_insert_fresh.
Qed.

Lemma dd_get_empty k : dd_get k ∅ = 0.
Proof. unfold dd_get. by rewrite lookup_empty. Qed.

Lemma pe_get_set {A} e e' (a : A) p :
  pe_get e (pe_set e' a p) = if decide (e = e') then a else pe_get e p.
Proof. destruct e, e', p; reflexivity. Qed.

Lemma count_events_nil e : count_events e [] = 0.
Proof. reflexivity. Qed.

Lemma count_events_cons e ev log :
  count_events e (ev :: log)
  = (if decide (ev_count_type ev = e) then 1 else 0) + count_events e log.
Proof.
  unfold count_events. rewrite filter_cons.
  destruct (decide (ev_count_type ev = e)); simpl; lia.
Qed.

Lemma count_events_app e log1 log2 :
  count_events e (log1 ++ log2) = count_events e log1 + count_events e log2.
Proof. unfold count_events. rewrite filter_app, length_app. lia. Qed.

(** ** The crossing loop *)

Section CountLoop.
Variables (now : nat -> Z) (dm : Direction -> option Event) (max_age : Q) (line_x : Z).

Lemma count_loop_tick items cnts totals tick :
  cl_tick (count_loop now dm max_age line_x items cnts totals tick) = (tick + length items)%nat.
Proof.
  revert cnts totals tick. induction items as [|[tid tr] items IH]; intros; simpl.
  - lia.
  - destruct (is_stale tr max_age (now tick)); [|destruct (count_decision dm line_x tr) as [[dir ct]|]];
      simpl; rewrite IH; lia.
Qed.

(** The loop over a concatenation is the loop over the first part
    followed by the loop over the second. *)
Lemma count_loop_app items1 items2 cnts totals tick :
  count_loop now dm max_age line_x (items1 ++ items2) cnts totals tick
  = let r1 := count_loop now dm max_age line_x items1 cnts totals tick in
    let r2 := count_loop now dm max_age line_x items2 (cl_counts r1) (cl_total_counts r1) (cl_tick r1) in
    mkCountLoop (cl_trackers r1 ++ cl_trackers r2) (cl_counts r2) (cl_total_counts r2)
                (cl_remove r1 ++ cl_remove r2) (cl_log r1 ++ cl_log r2) (cl_tick r2).
Proof.
  revert cnts totals tick. induction items1 as [|[tid tr] items1 IH]; intros; simpl.
  - by destruct (count_loop now dm max_age line_x items2 cnts totals tick).
  - destruct (is_stale tr max_age (now tick)); [|destruct (count_decision dm line_x tr) as [[dir ct]|]];
      rewrite IH; reflexivity.
Qed.

Lemma count_loop_rel items cnts totals tick :
  dict_rel loop_rel items (cl_trackers (count_loop now dm max_age line_x items cnts totals tick)).
Proof.
  revert cnts totals tick. induction items as [|[tid tr] items IH]; intros; simpl.
  - constructor.
  - destruct (is_stale tr max_age (now tick)).
    { constructor; [|apply IH]. split; [done | by left]. }
    destruct (count_decision dm line_x tr) as [[dir ct]|] eqn:Hdec.
    + constructor; [|apply IH]. split; [done|]. right.
      apply count_decision_Some in Hdec as (Hc & _ & Hdir & _).
      apply get_trajectory_direction_length in Hdir. eauto.
    + constructor; [|apply IH]. split; [done | by left].
Qed.

Lemma count_loop_log_sublist items cnts totals tick :
  sublist (ev_track <$> cl_log (count_loop now dm max_age line_x items cnts totals tick)) (dict_keys items).
Proof.
  revert cnts totals tick. induction items as [|[tid tr] items IH]; intros; simpl.
  - constructor.
  - destruct (is_stale tr max_age (now tick)); [|destruct (count_decision dm line_x tr) as [[dir ct]|]];
      simpl; constructor; apply IH.
Qed.

(** Every count event comes from a tracker that was not stale at its
    check and for which the counting branch fired. *)
Lemma count_loop_log_elem items cnts totals tick ev :
  ev ∈ cl_log (count_loop now dm max_age line_x items cnts totals tick) ->
  exists i tr,
    items !! i = Some (ev_track ev, tr)
    /\ is_stale tr max_age (now (tick + i)%nat) = false
    /\ count_decision dm line_x tr = Some (ev_direction ev, ev_count_type ev)
    /\ ev_category ev = category tr.
Proof.
  revert cnts totals tick. induction items as [|[tid tr] items IH]; intros cnts totals tick; simpl.
  - intros Hin. by apply elem_of_nil in Hin.
  - assert (Hshift : forall cnts' totals',
               ev ∈ cl_log (count_loop now dm max_age line_x items cnts' totals' (S tick)) ->
               exists i tr0, ((tid, tr) :: items) !! i = Some (ev_track ev, tr0)
                 /\ is_stale tr0 max_age (now (tick + i)%nat) = false
                 /\ count_decision dm line_x tr0 = Some (ev_direction ev, ev_count_type ev)
                 /\ ev_category ev = category tr0).
    { intros cnts' totals' Hin. apply IH in Hin as (i & tr0 & Hi & Hst & Hdec & Hcat).
      exists (S i), tr0. replace (tick + S i)%nat with (S tick + i)%nat by lia. done. }
    destruct (is_stale tr max_age (now tick)) eqn:Hstale; [by apply Hshift|].
    destruct (count_decision dm line_x tr) as [[dir ct]|] eqn:Hdec; [|by apply Hshift].
    simpl. intros [->|Hin]%elem_of_cons; [|by eapply Hshift].
    exists 0%nat, tr. simpl. rewrite Nat.add_0_r. done.
Qed.

(** The trackers scheduled for removal are the ones stale at their
    check. *)
Lemma count_loop_remove_elem items cnts totals tick tid :
  tid ∈ cl_remove (count_loop now dm max_age line_x items cnts totals tick) <->
  exists i tr, items !! i = Some (tid, tr)
               /\ is_stale tr max_age (now (tick + i)%nat) = true.
Proof.
  revert cnts totals tick. induction items as [|[tid0 tr0] items IH]; intros cnts totals tick.
  - simpl. split; [intros Hin; by apply elem_of_nil in Hin | intros (i & tr & Hi & _); done].
  - assert (Hshift : forall cnts' totals',
               tid ∈ cl_remove (count_loop now dm max_age line_x items cnts' totals' (S tick)) <->
               exists i tr, items !! i = Some (tid, tr)
                 /\ is_stale tr max_age (now (tick + S i)%nat) = true).
    { intros cnts' totals'. rewrite IH. 
      split; intros (i & tr & Hi & Hst); exists i, tr;
        (split; [done|]); [replace (tick + S i)%nat with (S tick + i)%nat by lia
                          |replace (S tick + i)%nat with (tick + S i)%nat by lia]; done. }
    assert (Htail : (exists i tr, items !! i = Some (tid, tr)
                       /\ is_stale tr max_age (now (tick + S i)%nat) = true) ->
                    exists i tr, ((tid0, tr0) :: items) !! i = Some (tid, tr)
                       /\ is_stale tr max_age (now (tick + i)%nat) = true).
    { intros (i & tr & Hi & Hst). by exists (S i), tr. }
    simpl. destruct (is_stale tr0 max_age (now tick)) eqn:Hstale.
    + simpl. rewrite elem_of_cons, Hshift. split.
      * intros [->|Hex]; [|by apply Htail].
        exists 0%nat, tr0. simpl. by rewrite Nat.add_0_r.
      * intros ([|i] & tr & Hi & Hst); simpl in Hi.
        -- left. congruence.
        -- right. eauto.
    + assert (Hhead : (exists i tr, ((tid0, tr0) :: items) !! i = Some (tid, tr)
                          /\ is_stale tr max_age (now (tick + i)%nat) = true) ->
                      exists i tr, items !! i = Some (tid, tr)
                          /\ is_stale tr max_age (now (tick + S i)%nat) = true).
      { intros ([|i] & tr & Hi & Hst); simpl in Hi.
        - injection Hi as -> ->. rewrite Nat.add_0_r in Hst. congruence.
        - eauto. }
      destruct (count_decision dm line_x tr0) as [[dir ct]|]; simpl;
        rewrite Hshift; split; auto.
Qed.

(** Every count event is one increment of the grand total of its
    event. *)
Lemma count_loop_totals items cnts totals tick e :
  pe_get e (cl_total_counts (count_loop now dm max_age line_x items cnts totals tick))
  = pe_get e totals + count_events e (cl_log (count_loop now dm max_age line_x items cnts totals tick)).
Proof.
  revert cnts totals tick. induction items as [|[tid tr] items IH]; intros;
    cbn [count_loop].
  - cbn [cl_total_counts cl_log]. rewrite count_events_nil. lia.
  - destruct (is_stale tr max_age (now tick));
      [cbn [cl_total_counts cl_log]; by rewrite IH|].
    destruct (count_decision dm line_x tr) as [[dir ct]|];
      [|cbn [cl_total_counts cl_log]; by rewrite IH].
    cbn [cl_total_counts cl_log]. rewrite IH, count_events_cons, pe_get_set.
    cbn [ev_count_type].
    destruct (decide (e = ct)) as [->|Hne].
    + rewrite decide_True by done. lia.
    + rewrite decide_False by congruence. lia.
Qed.

(** ... and one increment of one per-category count of its event. *)
Lemma count_loop_sums items cnts totals tick e :
  sum_counts (pe_get e (cl_counts (count_loop now dm max_age line_x items cnts totals tick)))
  = sum_counts (pe_get e cnts) + count_events e (cl_log (count_loop now dm max_age line_x items cnts totals tick)).
Proof.
  revert cnts totals tick. induction items as [|[tid tr] items IH]; intros;
    cbn [count_loop].
  - cbn [cl_counts cl_log]. rewrite count_events_nil. lia.
  - destruct (is_stale tr max_age (now tick));
      [cbn [cl_counts cl_log]; by rewrite IH|].
    destruct (count_decision dm line_x tr) as [[dir ct]|];
      [|cbn [cl_counts cl_log]; by rewrite IH].
    cbn [cl_counts cl_log]. rewrite IH, count_events_cons, pe_get_set.
    cbn [ev_count_type].
    destruct (decide (e = ct)) as [->|Hne].
    + rewrite decide_True by done. rewrite sum_counts_incr. lia.
    + rewrite decide_False by congruence. lia.
Qed.
End CountLoop.

(** ** The shape of one update *)

Lemma update_unfold now tick c detections frame_shape trs2 next_id2 tick2 :
  created_trackers now tick c detections = (trs2, next_id2, tick2) ->
  let r := count_loop now (direction_mapping c) (max_age c) (line_x_of c frame_shape)
             trs2 (counts c) (total_counts c) tick2 in
  crossing_loop now tick c detections frame_shape = r
  /\ update now tick c detections frame_shape
     = {| ur_counter :=
            {| line_position := line_position c;
               direction_mapping := direction_mapping c;
               trackers := foldl (fun trs track_id => dict_del track_id trs)
                                 (cl_trackers r) (cl_remove r);
               next_track_id := next_id2;
               counts := cl_counts r;
               total_counts := cl_total_counts r;
               max_distance := max_distance c;
               max_age := max_age c |};
          ur_tick := cl_tick r;
          ur_log := cl_log r |}.
Proof.
  intros Hcreated r.
  assert (Hloop : crossing_loop now tick c detections frame_shape = r).
  { unfold crossing_loop. by rewrite Hcreated. }
  split; [exact Hloop|].
  unfold update. by rewrite Hcreated, Hloop.
Qed.

Lemma dict_rel_Forall {K V} (R : V -> V -> Prop) (P P' : K * V -> Prop) (d d' : list (K * V)) :
  (forall k v v', R v v' -> P (k, v) -> P' (k, v')) ->
  dict_rel R d d' -> Forall P d -> Forall P' d'.
Proof.
  intros HP. induction 1 as [|[k v] [k' v'] d d' [Hk HR] _ IH]; intros Hall.
  - constructor.
  - apply Forall_cons in Hall as [Hhd Htl]. simpl in Hk, HR. subst k'.
    constructor; eauto.
Qed.

Lemma tracker_inv_evolves next_id k tr tr' :
  evolves tr tr' -> tracker_inv next_id (k, tr) -> tracker_inv next_id (k, tr').
Proof.
  unfold evolves, tracker_inv. simpl.
  intros (Hid & _ & Hc & _ & _ & Hge & Hle) (Hk & Hlt & Hlen & H5).
  split; [congruence|]. split; [done|]. split; [lia|].
  rewrite Hc. intros Hcounted. specialize (H5 Hcounted). lia.
Qed.

Lemma tracker_inv_loop_rel next_id k tr tr' :
  loop_rel tr tr' -> tracker_inv next_id (k, tr) -> tracker_inv next_id (k, tr').
Proof.
  intros [->|(Hc & H5 & ct & ->)]; [done|].
  unfold tracker_inv. simpl. intros (Hk & Hlt & Hlen & _). done.
Qed.

Lemma tracker_inv_mono next_id next_id' e :
  next_id <= next_id' -> tracker_inv next_id e -> tracker_inv next_id' e.
Proof. unfold tracker_inv. intros Hle (?&?&?&?). repeat split; auto; lia. Qed.

Lemma tracker_inv_fresh next_id next_id' e :
  next_id <= fst e < next_id' /\ track_id (snd e) = fst e /\ fresh_tracker (snd e) ->
  tracker_inv next_id' e.
Proof.
  unfold tracker_inv, fresh_tracker, maxlen.
  intros (Hrange & Hid & Hc & Hlen). rewrite Hlen, Hc.
  split; [done|]. split; [lia|]. split; [lia | done].
Qed.

(** The trackers the crossing loop runs over: the old ones, changed only
    as a matched update does, followed by the new ones. *)
Lemma update_phases now tick c detections :
  counter_inv c ->
  exists trs1 news next_id2 tick2,
    created_trackers now tick c detections = (trs1 ++ news, next_id2, tick2)
    /\ dict_rel evolves (trackers c) trs1
    /\ next_track_id c <= next_id2
    /\ Forall (fun e => next_track_id c <= fst e < next_id2
                        /\ track_id (snd e) = fst e
                        /\ fresh_tracker (snd e)) news
    /\ NoDup (dict_keys (trs1 ++ news))
    /\ Forall (tracker_inv next_id2) (trs1 ++ news).
Proof.
  intros (Hnd & Hall & _).
  pose proof (updated_trackers_rel now tick c detections) as Hrel.
  unfold created_trackers.
  destruct (updated_trackers now tick c detections) as [trs1 tick1]. simpl in Hrel.
  pose proof (dict_rel_keys _ _ _ Hrel) as Hkeys.
  assert (Hlt : Forall (fun k => k < next_track_id c) (dict_keys trs1)).
  { rewrite Hkeys. unfold dict_keys. apply Forall_fmap.
    eapply Forall_impl; [exact Hall|]. intros e (_ & Hlt & _). exact Hlt. }
  destruct (create_tracker_fold now detections
              (snd (match_detections_to_trackers (trackers c) detections))
              trs1 (next_track_id c) tick1 Hlt)
    as (news & next_id2 & tick2 & Heq & Hle & Hndnews & Hnews).
  exists trs1, news, next_id2, tick2.
  split; [exact Heq|]. split; [exact Hrel|]. split; [exact Hle|]. split; [exact Hnews|].
  split.
  - unfold dict_keys. rewrite fmap_app. apply NoDup_app.
    split; [by rewrite <- Hkeys in Hnd|]. split; [|exact Hndnews].
    intros k Hk Hk'. rewrite Forall_forall in Hlt. apply Hlt in Hk.
    apply list_elem_of_fmap in Hk' as (e & -> & He).
    rewrite Forall_forall in Hnews. apply Hnews in He. lia.
  - apply Forall_app. split.
    + eapply (dict_rel_Forall evolves (tracker_inv (next_track_id c))); [|exact Hrel|exact Hall].
      intros k v v' Hev Hinv. eapply tracker_inv_mono; [exact Hle|].
      by eapply tracker_inv_evolves.
    + eapply Forall_impl; [exact Hnews|]. intros e He.
      apply (tracker_inv_fresh (next_track_id c)). exact He.
Qed.

(** ** The invariant *)

Lemma counter_inv_init lp dm : counter_inv (VehicleCounter_init lp dm).
Proof.
  split; [constructor|]. split; [constructor|].
  intros []; simpl; by rewrite sum_counts_empty.
Qed.

Lemma counter_inv_reset c : counter_inv c -> counter_inv (reset_counts c).
Proof.
  intros (Hnd & Hall & _). split; [done|]. split; [done|].
  intros []; simpl; by rewrite sum_counts_empty.
Qed.

Lemma counter_inv_after_parking_availability c :
  counter_inv c -> counter_inv (after_parking_availability c).
Proof.
  intros (Hnd & Hall & Hsum). split; [done|]. split; [done|].
  intros e. specialize (Hsum e). destruct e; simpl in *; by rewrite sum_counts_touch.
Qed.

Lemma counter_inv_update now tick c detections frame_shape :
  counter_inv c -> counter_inv (ur_counter (update now tick c detections frame_shape)).
Proof.
  intros Hinv.
  destruct (update_phases now tick c detections Hinv)
    as (trs1 & news & next_id2 & tick2 & Hcreated & _ & _ & _ & Hnd2 & Hall2).
  destruct (update_unfold now tick c detections frame_shape _ _ _ Hcreated) as [_ ->].
  set (r := count_loop _ _ _ _ _ _ _ _).
  pose proof (count_loop_rel now (direction_mapping c) (max_age c) (line_x_of c frame_shape)
                (trs1 ++ news) (counts c) (total_counts c) tick2) as Hrel.
  fold r in Hrel.
  destruct Hinv as (_ & _ & Hsum).
  split; [|split]; cbn [ur_counter trackers next_track_id counts total_counts].
  - apply dict_del_all_NoDup. by rewrite (dict_rel_keys _ _ _ Hrel).
  - apply Forall_forall. intros e He. apply dict_del_all_elem in He.
    assert (Hall3 : Forall (tracker_inv next_id2) (cl_trackers r)).
    { eapply (dict_rel_Forall loop_rel); [|exact Hrel|exact Hall2].
      intros k v v'. apply tracker_inv_loop_rel. }
    rewrite Forall_forall in Hall3. auto.
  - intros e. subst r. rewrite count_loop_totals, count_loop_sums, Hsum. done.
Qed.

Lemma counter_inv_step now w op : counter_inv (w_counter w) -> counter_inv (w_counter (step now w op)).
Proof.
  destruct op; simpl.
  - apply counter_inv_update.
  - apply counter_inv_reset.
  - apply counter_inv_after_parking_availability.
Qed.

Lemma counter_inv_run now w ops : counter_inv (w_counter w) -> counter_inv (w_counter (run now w ops)).
Proof.
  revert w. induction ops as [|op ops IH]; intros w Hinv; [done|].
  apply IH. by apply counter_inv_step.
Qed.

Lemma counter_inv_reachable now lp dm ops : counter_inv (w_counter (run now (start lp dm) ops)).
Proof. apply counter_inv_run, counter_inv_init. Qed.

(** C4: after construction and after every further call (update, reset,
    parking availability), the grand total of each event is the sum of
    its per-category counts over all categories. *)
Theorem count_conservation (now : nat -> Z) (lp : Q) (dm : Direction -> option Event)
    (ops : list Op) (e : Event) :
  let c := w_counter (run now (start lp dm) ops) in
  pe_get e (total_counts c) = sum_counts (pe_get e (counts c)).
Proof. intros c. apply (counter_inv_reachable now lp dm ops). Qed.

(** ** What one update does to the trackers *)

Lemma count_loop_lookup now dm max_age line_x items cnts totals tick i tid tr :
  items !! i = Some (tid, tr) ->
  cl_trackers (count_loop now dm max_age line_x items cnts totals tick) !! i
  = Some (tid,
          if is_stale tr max_age (now (tick + i)%nat) then tr
          else match count_decision dm line_x tr with
               | Some (_, count_type) => mark_counted tr count_type
               | None => tr
               end).
Proof.
  revert cnts totals tick i. induction items as [|[tid0 tr0] items IH];
    intros cnts totals tick i Hi; [done|].
  destruct i as [|i].
  - injection Hi as -> ->. rewrite Nat.add_0_r. cbn [count_loop].
    destruct (is_stale tr max_age (now tick)); [done|].
    by destruct (count_decision dm line_x tr) as [[dir ct]|].
  - cbn [lookup list_lookup] in Hi.
    replace (tick + S i)%nat with (S tick + i)%nat by lia.
    cbn [count_loop].
    destruct (is_stale tr0 max_age (now tick));
      [|destruct (count_decision dm line_x tr0) as [[dir ct]|]];
      cbn [cl_trackers]; apply (IH _ _ _ _ Hi).
Qed.

Lemma NoDup_keys_lookup_eq {K V} (d : list (K * V)) i j k v v' :
  NoDup (dict_keys d) -> d !! i = Some (k, v) -> d !! j = Some (k, v') -> i = j /\ v = v'.
Proof.
  intros Hnd Hi Hj.
  assert (i = j) as ->.
  { eapply NoDup_lookup; [exact Hnd | |];
      unfold dict_keys; rewrite list_lookup_fmap; [by rewrite Hi | by rewrite Hj]. }
  split; [done | congruence].
Qed.

Section CreatedFacts.
Variables (now : nat -> Z) (tick : nat) (c : VehicleCounter)
          (detections : list Detection).
Variables (trs2 : list (Z * VehicleTracker)) (next_id2 : Z) (tick2 : nat).
Hypothesis Hinv : counter_inv c.
Hypothesis Hcreated : created_trackers now tick c detections = (trs2, next_id2, tick2).

Lemma created_NoDup : NoDup (dict_keys trs2).
Proof.
  destruct (update_phases now tick c detections Hinv)
    as (trs1 & news & n2 & t2 & Heq & _ & _ & _ & Hnd & _).
  rewrite Hcreated in Heq. by injection Heq as -> _ _.
Qed.

Lemma created_next_le : next_track_id c <= next_id2.
Proof.
  destruct (update_phases now tick c detections Hinv)
    as (trs1 & news & n2 & t2 & Heq & _ & Hle & _).
  rewrite Hcreated in Heq. by injection Heq as _ -> _.
Qed.

Lemma created_tracker_inv : Forall (tracker_inv next_id2) trs2.
Proof.
  destruct (update_phases now tick c detections Hinv)
    as (trs1 & news & n2 & t2 & Heq & _ & _ & _ & _ & Hall).
  rewrite Hcreated in Heq. by injection Heq as -> -> _.
Qed.

(** A tracker the loop runs over is an old one, changed only as a
    matched update does, or one created by this update. *)
Lemma created_lookup tid tr2 :
  dict_get tid trs2 = Some tr2 ->
  (tid < next_track_id c
   /\ exists tr0, dict_get tid (trackers c) = Some tr0 /\ evolves tr0 tr2)
  \/ (next_track_id c <= tid /\ dict_get tid (trackers c) = None /\ fresh_tracker tr2).
Proof.
  destruct (update_phases now tick c detections Hinv)
    as (trs1 & news & n2 & t2 & Heq & Hrel & _ & Hnews & Hnd & _).
  rewrite Hcreated in Heq. injection Heq as -> _ _.
  destruct Hinv as (Hndc & Hallc & _).
  intros Hget. apply dict_get_Some_elem in Hget.
  apply elem_of_app in Hget as [Hin|Hin].
  - left.
    assert (Hnd1 : NoDup (dict_keys trs1)).
    { unfold dict_keys in Hnd. rewrite fmap_app in Hnd. by apply NoDup_app in Hnd as (? & _ & _). }
    apply (dict_get_elem _ _ _ Hnd1) in Hin.
    destruct (dict_rel_get _ _ _ _ _ Hrel Hin) as (tr0 & Hget0 & Hev).
    split; [|eauto].
    apply dict_get_Some_elem in Hget0. rewrite Forall_forall in Hallc.
    by destruct (Hallc _ Hget0) as (_ & Hlt & _).
  - right. rewrite Forall_forall in Hnews.
    destruct (Hnews _ Hin) as (Hrange & _ & Hfresh). simpl in Hrange.
    split; [lia|]. split; [|done].
    apply dict_get_None. intros Hk. unfold dict_keys in Hk.
    apply list_elem_of_fmap in Hk as (e & He & Hine).
    rewrite Forall_forall in Hallc. destruct (Hallc _ Hine) as (_ & Hlt & _).
    simpl in He. lia.
Qed.

Lemma created_keeps tid tr0 :
  dict_get tid (trackers c) = Some tr0 ->
  exists tr2, dict_get tid trs2 = Some tr2 /\ evolves tr0 tr2.
Proof.
  destruct (update_phases now tick c detections Hinv)
    as (trs1 & news & n2 & t2 & Heq & Hrel & _ & _ & Hnd & _).
  rewrite Hcreated in Heq. injection Heq as -> _ _.
  intros Hget. destruct (dict_rel_get_inv _ _ _ _ _ Hrel Hget) as (tr1 & Hget1 & Hev).
  exists tr1. split; [|done].
  apply dict_get_elem; [done|]. apply elem_of_app. left.
  by apply dict_get_Some_elem.
Qed.
End CreatedFacts.

Section UpdateFacts.
Variables (now : nat -> Z) (tick : nat) (c : VehicleCounter)
          (detections : list Detection) (frame_shape : Z * Z).
Variables (trs2 : list (Z * VehicleTracker)) (next_id2 : Z) (tick2 : nat).
Hypothesis Hinv : counter_inv c.
Hypothesis Hcreated : created_trackers now tick c detections = (trs2, next_id2, tick2).

Let u := update now tick c detections frame_shape.
Let r := count_loop now (direction_mapping c) (max_age c) (line_x_of c frame_shape)
           trs2 (counts c) (total_counts c) tick2.
Let Hnd2 := created_NoDup now tick c detections trs2 next_id2 tick2 Hinv Hcreated.

Lemma update_trackers_eq :
  trackers (ur_counter u)
  = foldl (fun trs track_id => dict_del track_id trs) (cl_trackers r) (cl_remove r).
Proof.
  subst u r. by destruct (update_unfold now tick c detections frame_shape _ _ _ Hcreated) as [_ ->].
Qed.

Lemma update_log_eq : ur_log u = cl_log r.
Proof.
  subst u r. by destruct (update_unfold now tick c detections frame_shape _ _ _ Hcreated) as [_ ->].
Qed.

Lemma update_next_track_id_eq : next_track_id (ur_counter u) = next_id2.
Proof.
  subst u. by destruct (update_unfold now tick c detections frame_shape _ _ _ Hcreated) as [_ ->].
Qed.

Lemma update_totals e :
  pe_get e (total_counts (ur_counter u))
  = pe_get e (total_counts c) + count_events e (ur_log u).
Proof.
  subst u. destruct (update_unfold now tick c detections frame_shape _ _ _ Hcreated) as [_ ->].
  cbn [ur_counter ur_log total_counts]. apply count_loop_totals.
Qed.

Lemma update_sums e :
  sum_counts (pe_get e (counts (ur_counter u)))
  = sum_counts (pe_get e (counts c)) + count_events e (ur_log u).
Proof.
  subst u. destruct (update_unfold now tick c detections frame_shape _ _ _ Hcreated) as [_ ->].
  cbn [ur_counter ur_log counts]. apply count_loop_sums.
Qed.

Lemma loop_NoDup : NoDup (dict_keys (cl_trackers r)).
Proof.
  subst r. rewrite (dict_rel_keys _ _ _ (count_loop_rel _ _ _ _ _ _ _ _)).
  exact Hnd2.
Qed.

(** A tracker that is live after the update was not stale at its
    check, and the loop left it alone or counted it. *)
Lemma update_lookup tid tr' :
  dict_get tid (trackers (ur_counter u)) = Some tr' ->
  exists tr2, dict_get tid trs2 = Some tr2 /\ loop_rel tr2 tr' /\ tid ∉ cl_remove r.
Proof.
  rewrite update_trackers_eq, (dict_get_del_all _ _ _ loop_NoDup).
  destruct (decide (tid ∈ cl_remove r)) as [|Hnin]; [done|].
  intros Hget.
  destruct (dict_rel_get _ _ _ _ _ (count_loop_rel _ _ _ _ _ _ _ _) Hget) as (tr2 & ? & ?).
  eauto.
Qed.

(** The fate of the tracker at position [i] of the loop. *)
Lemma update_at i tid tr :
  trs2 !! i = Some (tid, tr) ->
  if is_stale tr (max_age c) (now (tick2 + i)%nat)
  then tid ∈ cl_remove r
       /\ dict_get tid (trackers (ur_counter u)) = None
       /\ tid ∉ (ev_track <$> ur_log u)
  else (tid ∉ cl_remove r)
       /\ match count_decision (direction_mapping c) (line_x_of c frame_shape) tr with
          | Some (dir, count_type) =>
              dict_get tid (trackers (ur_counter u)) = Some (mark_counted tr count_type)
              /\ mkCountEvent tid (category tr) dir count_type ∈ ur_log u
          | None =>
              dict_get tid (trackers (ur_counter u)) = Some tr
              /\ tid ∉ (ev_track <$> ur_log u)
          end.
Proof.
  intros Hi. pose proof Hnd2 as Hnd.
  assert (Hlog : forall ev, ev ∈ cl_log r -> ev_track ev = tid ->
            is_stale tr (max_age c) (now (tick2 + i)%nat) = false
            /\ count_decision (direction_mapping c) (line_x_of c frame_shape) tr
               = Some (ev_direction ev, ev_count_type ev)
            /\ ev_category ev = category tr).
  { intros ev Hev Hid. apply count_loop_log_elem in Hev as (j & tr0 & Hj & Hst & Hdec & Hcat).
    rewrite Hid in Hj. destruct (NoDup_keys_lookup_eq _ _ _ _ _ _ Hnd Hi Hj) as [-> ->]. done. }
  assert (Hrem : tid ∈ cl_remove r <-> is_stale tr (max_age c) (now (tick2 + i)%nat) = true).
  { subst r. rewrite count_loop_remove_elem. split.
    - intros (j & tr0 & Hj & Hst).
      by destruct (NoDup_keys_lookup_eq _ _ _ _ _ _ Hnd Hi Hj) as [-> ->].
    - intros Hst. eauto. }
  pose proof (count_loop_lookup now (direction_mapping c) (max_age c)
                (line_x_of c frame_shape) trs2 (counts c) (total_counts c) tick2 i tid tr Hi)
    as Hlook. fold r in Hlook.
  apply (dict_get_lookup _ _ _ _ loop_NoDup) in Hlook.
  rewrite update_trackers_eq, (dict_get_del_all _ _ _ loop_NoDup), update_log_eq.
  destruct (is_stale tr (max_age c) (now (tick2 + i)%nat)) eqn:Hstale.
  - split; [by apply Hrem|]. split.
    + rewrite decide_True; [done | by apply Hrem].
    + intros (ev & Hid & Hev)%list_elem_of_fmap.
      by destruct (Hlog ev Hev (eq_sym Hid)) as [? _].
  - assert (Hnin : tid ∉ cl_remove r) by (rewrite Hrem; done).
    split; [done|]. rewrite decide_False by done.
    destruct (count_decision (direction_mapping c) (line_x_of c frame_shape) tr)
      as [[dir ct]|] eqn:Hdec.
    + split; [done|].
      subst r. 
      rewrite <- (take_drop_middle trs2 i (tid, tr) Hi), count_loop_app.
      cbn zeta. cbn [cl_log]. apply elem_of_app. right.
      cbn [count_loop]. rewrite count_loop_tick, length_take_le
        by (apply lookup_lt_Some in Hi; lia).
      rewrite Hstale, Hdec. cbn [cl_log]. left.
    + split; [done|].
      intros (ev & Hid & Hev)%list_elem_of_fmap.
      by destruct (Hlog ev Hev (eq_sym Hid)) as (_ & ? & _).
Qed.

(** Every count event belongs to a tracker that was uncounted when the
    loop reached it and is live and counted after the update. *)
Lemma update_log_elem ev :
  ev ∈ ur_log u ->
  exists tr2,
    dict_get (ev_track ev) trs2 = Some tr2
    /\ count_decision (direction_mapping c) (line_x_of c frame_shape) tr2
       = Some (ev_direction ev, ev_count_type ev)
    /\ ev_category ev = category tr2
    /\ dict_get (ev_track ev) (trackers (ur_counter u))
       = Some (mark_counted tr2 (ev_count_type ev)).
Proof.
  rewrite update_log_eq. intros Hev.
  apply count_loop_log_elem in Hev as (i & tr2 & Hi & Hst & Hdec & Hcat).
  exists tr2. split; [by eapply dict_get_lookup; [exact Hnd2|]|].
  split; [done|]. split; [done|].
  pose proof (update_at i _ _ Hi) as Hat. rewrite Hst, Hdec in Hat.
  by destruct Hat as (_ & ? & _).
Qed.

Lemma update_log_NoDup : NoDup (ev_track <$> ur_log u).
Proof.
  rewrite update_log_eq.
  exact (sublist_NoDup _ _ Hnd2 (count_loop_log_sublist _ _ _ _ _ _ _ _)).
Qed.
End UpdateFacts.

(** ** Counting happens once *)

Section OneUpdate.
Variables (now : nat -> Z) (tick : nat) (c : VehicleCounter)
          (detections : list Detection) (frame_shape : Z * Z).
Hypothesis Hinv : counter_inv c.

Let u := update now tick c detections frame_shape.

Lemma update_next_le : next_track_id c <= next_track_id (ur_counter u).
Proof.
  subst u. destruct (created_trackers now tick c detections) as [[trs2 n2] t2] eqn:Hcreated.
  rewrite (update_next_track_id_eq _ _ _ _ _ _ _ _ Hcreated).
  exact (created_next_le _ _ _ _ _ _ _ Hinv Hcreated).
Qed.

(** A counted tracker that stays live stays counted. *)
Lemma update_counted_stays tid tr tr' :
  dict_get tid (trackers c) = Some tr ->
  dict_get tid (trackers (ur_counter u)) = Some tr' ->
  counted tr = true -> counted tr' = true.
Proof.
  subst u. destruct (created_trackers now tick c detections) as [[trs2 n2] t2] eqn:Hcreated.
  intros Hget Hget' Hcounted.
  destruct (update_lookup _ _ _ _ _ _ _ _ Hinv Hcreated _ _ Hget') as (tr2 & Hget2 & Hrel & _).
  destruct (created_keeps _ _ _ _ _ _ _ Hinv Hcreated _ _ Hget) as (tr2' & Hget2' & Hev).
  assert (tr2' = tr2) as -> by congruence.
  destruct Hev as (_ & _ & Hc & _).
  destruct Hrel as [->|(Hc' & _)]; congruence.
Qed.

(** The counting branch does not fire for a counted tracker. *)
Lemma update_counted_not_again tid tr :
  dict_get tid (trackers c) = Some tr -> counted tr = true ->
  tid ∉ (ev_track <$> ur_log u).
Proof.
  subst u. destruct (created_trackers now tick c detections) as [[trs2 n2] t2] eqn:Hcreated.
  intros Hget Hcounted (ev & -> & Hev)%list_elem_of_fmap.
  destruct (update_log_elem _ _ _ _ _ _ _ _ Hinv Hcreated _ Hev) as (tr2 & Hget2 & Hdec & _).
  destruct (created_keeps _ _ _ _ _ _ _ Hinv Hcreated _ _ Hget) as (tr2' & Hget2' & Hev').
  assert (tr2' = tr2) as -> by congruence.
  apply count_decision_Some in Hdec as (Hc & _).
  destruct Hev' as (_ & _ & Hc' & _). congruence.
Qed.

Lemma settled_update tid : settled c tid -> settled (ur_counter u) tid.
Proof.
  intros [Hlt Hsettled]. split; [pose proof update_next_le; lia|].
  subst u. destruct (created_trackers now tick c detections) as [[trs2 n2] t2] eqn:Hcreated.
  intros tr' Hget'.
  destruct (update_lookup _ _ _ _ _ _ _ _ Hinv Hcreated _ _ Hget') as (tr2 & Hget2 & Hrel & _).
  destruct (created_lookup _ _ _ _ _ _ _ Hinv Hcreated _ _ Hget2)
    as [(_ & tr0 & Hget0 & Hev)|(Hge & _)]; [|lia].
  specialize (Hsettled _ Hget0). destruct Hev as (_ & _ & Hc & _).
  destruct Hrel as [->|(Hc' & _)]; congruence.
Qed.

Lemma settled_not_counted tid : settled c tid -> tid ∉ (ev_track <$> ur_log u).
Proof.
  intros [Hlt Hsettled] (ev & -> & Hev)%list_elem_of_fmap.
  subst u. destruct (created_trackers now tick c detections) as [[trs2 n2] t2] eqn:Hcreated.
  destruct (update_log_elem _ _ _ _ _ _ _ _ Hinv Hcreated _ Hev) as (tr2 & Hget2 & Hdec & _).
  apply count_decision_Some in Hdec as (Hc & _).
  destruct (created_lookup _ _ _ _ _ _ _ Hinv Hcreated _ _ Hget2)
    as [(_ & tr0 & Hget0 & Hev0)|(Hge & _)]; [|lia].
  specialize (Hsettled _ Hget0). destruct Hev0 as (_ & _ & Hc' & _). congruence.
Qed.

(** A count event comes from a tracker that was uncounted and had at
    least five positions when the loop reached it; after the update the
    tracker is live and counted, and its id is settled. *)
Lemma update_event ev :
  ev ∈ ur_log u ->
  (exists tr2,
     dict_get (ev_track ev) (fst (fst (created_trackers now tick c detections))) = Some tr2
     /\ counted tr2 = false
     /\ (5 <= length (positions tr2))%nat
     /\ dict_get (ev_track ev) (trackers (ur_counter u))
        = Some (mark_counted tr2 (ev_count_type ev)))
  /\ settled (ur_counter u) (ev_track ev).
Proof.
  subst u. destruct (created_trackers now tick c detections) as [[trs2 n2] t2] eqn:Hcreated.
  intros Hev.
  destruct (update_log_elem _ _ _ _ _ _ _ _ Hinv Hcreated _ Hev)
    as (tr2 & Hget2 & Hdec & _ & Hget').
  apply count_decision_Some in Hdec as (Hc & _ & Hdir & _).
  apply get_trajectory_direction_length in Hdir.
  split; [by exists tr2|]. split.
  - rewrite (update_next_track_id_eq _ _ _ _ _ _ _ _ Hcreated).
    pose proof (created_tracker_inv _ _ _ _ _ _ _ Hinv Hcreated) as Hall.
    rewrite Forall_forall in Hall. apply dict_get_Some_elem in Hget2.
    by destruct (Hall _ Hget2) as (_ & ? & _).
  - intros tr'. rewrite Hget'. by intros [= <-].
Qed.
End OneUpdate.

Lemma world_inv_start lp dm : world_inv (start lp dm).
Proof.
  split; [apply counter_inv_init|]. split; [constructor|].
  intros tid Hin. by apply elem_of_nil in Hin.
Qed.

Lemma world_inv_step now w op : world_inv w -> world_inv (step now w op).
Proof.
  intros (Hinv & Hnd & Hsettled).
  split; [by apply counter_inv_step|].
  destruct op as [detections frame_shape| |capacity]; cbn [step w_log w_counter].
  - split.
    + rewrite fmap_app. apply NoDup_app. split; [done|]. split.
      * intros tid Hin. by apply settled_not_counted, Hsettled.
      * destruct (created_trackers now (w_tick w) (w_counter w) detections)
          as [[trs2 n2] t2] eqn:Hcreated.
        exact (update_log_NoDup _ _ _ _ _ _ _ _ Hinv Hcreated).
    + intros tid. rewrite fmap_app, elem_of_app. intros [Hin|Hin].
      * by apply settled_update, Hsettled.
      * apply list_elem_of_fmap in Hin as (ev & -> & Hev).
        by apply update_event.
  - split; [done|]. intros tid Hin. apply Hsettled in Hin. exact Hin.
  - split; [done|]. intros tid Hin. apply Hsettled in Hin. exact Hin.
Qed.

Lemma world_inv_run now w ops : world_inv w -> world_inv (run now w ops).
Proof.
  revert w. induction ops as [|op ops IH]; intros w Hinv; [done|].
  apply IH. by apply world_inv_step.
Qed.

Lemma run_snoc now w ops op : run now w (ops ++ [op]) = step now (run now w ops) op.
Proof. unfold run. apply foldl_snoc. Qed.

(** A settled track id causes no count event, whatever calls follow. *)
Lemma settled_run now w ops tid :
  counter_inv (w_counter w) -> settled (w_counter w) tid ->
  tid ∉ (ev_track <$> w_log w) ->
  tid ∉ (ev_track <$> w_log (run now w ops)).
Proof.
  revert w. induction ops as [|op ops IH]; intros w Hinv Hsettled Hnin; [done|].
  cbn [run foldl]. apply IH.
  - by apply counter_inv_step.
  - destruct op; cbn [step w_counter]; [by apply settled_update | done | done].
  - destruct op; cbn [step w_log]; [|done|done].
    rewrite fmap_app, not_elem_of_app. split; [done|].
    by apply settled_not_counted.
Qed.

(** C2: in every update of a counter reached by any sequence of calls, a
    counted tracker that stays live stays counted and causes no count
    event; a count event comes from a tracker that was uncounted when the
    loop reached it and is counted afterwards; the grand totals and the
    per-category sums grow by exactly the number of count events; and over
    the whole run no track id causes two count events. *)
Theorem counted_at_most_once (now : nat -> Z) (lp : Q) (dm : Direction -> option Event)
    (ops : list Op) (detections : list Detection) (frame_shape : Z * Z) :
  let w := run now (start lp dm) ops in
  let c := w_counter w in
  let u := update now (w_tick w) c detections frame_shape in
  (forall tid tr tr',
      dict_get tid (trackers c) = Some tr ->
      dict_get tid (trackers (ur_counter u)) = Some tr' ->
      counted tr = true -> counted tr' = true)
  /\ (forall tid tr,
        dict_get tid (trackers c) = Some tr -> counted tr = true ->
        tid ∉ (ev_track <$> ur_log u))
  /\ (forall ev,
        ev ∈ ur_log u ->
        exists tr2,
          dict_get (ev_track ev) (fst (fst (created_trackers now (w_tick w) c detections)))
          = Some tr2
          /\ counted tr2 = false
          /\ dict_get (ev_track ev) (trackers (ur_counter u))
             = Some (mark_counted tr2 (ev_count_type ev)))
  /\ (forall e,
        pe_get e (total_counts (ur_counter u))
        = pe_get e (total_counts c) + count_events e (ur_log u))
  /\ (forall e,
        sum_counts (pe_get e (counts (ur_counter u)))
        = sum_counts (pe_get e (counts c)) + count_events e (ur_log u))
  /\ NoDup (ev_track <$> w_log (run now (start lp dm) (ops ++ [OpUpdate detections frame_shape]))).
Proof.
  intros w c u.
  assert (Hinv : counter_inv c) by apply counter_inv_reachable.
  split; [intros tid tr tr'; by apply update_counted_stays|].
  split; [intros tid tr; by apply update_counted_not_again|].
  split.
  { intros ev Hev.
    destruct (update_event now (w_tick w) c detections frame_shape Hinv ev Hev)
      as [(tr2 & ? & ? & _ & ?) _].
    by exists tr2. }
  destruct (created_trackers now (w_tick w) c detections) as [[trs2 n2] t2] eqn:Hcreated.
  split; [intros e; exact (update_totals _ _ _ _ _ _ _ _ Hcreated e)|].
  split; [intros e; exact (update_sums _ _ _ _ _ _ _ _ Hcreated e)|].
  apply (world_inv_run now (start lp dm) (ops ++ [OpUpdate detections frame_shape])),
    world_inv_start.
Qed.

Lemma counted_at_most_once_witness :
  let ops := five_frames (300, 400) ++ [OpUpdate [wide_detection 260] (300, 400)] in
  let w := run steady_clock (start (1 # 2) default_direction_mapping) ops in
  let u := update steady_clock (w_tick w) (w_counter w) [wide_detection 260] (300, 400) in
  w_log w = [mkCountEvent 1 "Car" RIGHT IN]
  /\ (1 ∉ (ev_track <$> ur_log u))
  /\ total_counts (ur_counter u) = mkPerEvent 1 0.
Proof.
  intros ops w u.
  split; [vm_compute; reflexivity|].
  split; [|vm_compute; reflexivity].
  destruct (counted_at_most_once steady_clock (1 # 2) default_direction_mapping ops
              [wide_detection 260] (300, 400)) as (_ & Hnot & _).
  apply (Hnot 1 (mark_counted crossing_tracker IN)); vm_compute; reflexivity.
Defined.

(** ** Reset *)

(** C8: for the counter reached by any sequence of calls, [reset_counts]
    sets every per-category count and both grand totals to zero and leaves
    the trackers and all the other fields as they are; a track that is
    counted at the reset causes no count event in any calls that follow. *)
Theorem reset_keeps_trackers (now : nat -> Z) (lp : Q) (dm : Direction -> option Event)
    (ops : list Op) :
  let w := run now (start lp dm) ops in
  let c := w_counter w in
  let c' := reset_counts c in
  (forall e cat, dd_get cat (pe_get e (counts c')) = 0)
  /\ (forall e, pe_get e (total_counts c') = 0)
  /\ trackers c' = trackers c
  /\ next_track_id c' = next_track_id c
  /\ line_position c' = line_position c
  /\ direction_mapping c' = direction_mapping c
  /\ max_age c' = max_age c
  /\ (forall tid tr ops',
        dict_get tid (trackers c) = Some tr -> counted tr = true ->
        tid ∉ (ev_track <$> w_log (run now (mkWorld c' (w_tick w) []) ops'))).
Proof.
  intros w c c'.
  split; [intros [] cat; apply dd_get_empty|].
  split; [by intros []|].
  do 5 (split; [reflexivity|]).
  intros tid tr ops' Hget Hcounted.
  assert (Hinv : counter_inv c) by apply counter_inv_reachable.
  apply settled_run; cbn [w_counter w_log].
  - by apply counter_inv_reset.
  - split.
    + destruct Hinv as (_ & Hall & _). rewrite Forall_forall in Hall.
      apply dict_get_Some_elem in Hget. by destruct (Hall _ Hget) as (_ & ? & _).
    + intros tr0 Hget0. change (trackers c') with (trackers c) in Hget0. congruence.
  - rewrite fmap_nil. apply not_elem_of_nil.
Qed.

Lemma reset_keeps_trackers_witness :
  let ops := five_frames (300, 400) ++ [OpUpdate [wide_detection 260] (300, 400)] in
  let w := run steady_clock (start (1 # 2) default_direction_mapping) ops in
  let c' := reset_counts (w_counter w) in
  total_counts (w_counter w) = mkPerEvent 1 0
  /\ total_counts c' = mkPerEvent 0 0
  /\ 1 ∉ (ev_track <$> w_log (run steady_clock (mkWorld c' (w_tick w) [])
                                  [OpUpdate [wide_detection 300] (300, 400)])).
Proof.
  intros ops w c'.
  split; [vm_compute; reflexivity|]. split; [vm_compute; reflexivity|].
  destruct (reset_keeps_trackers steady_clock (1 # 2) default_direction_mapping ops)
    as (_ & _ & _ & _ & _ & _ & _ & Hnever).
  assert (Hget : exists tr, dict_get 1 (trackers (w_counter w)) = Some tr /\ counted tr = true).
  { vm_compute. eexists. split; reflexivity. }
  destruct Hget as (tr & Hget & Hcounted).
  exact (Hnever 1 tr _ Hget Hcounted).
Defined.

(** ** Five positions *)

(** C10: in every counter reached by any sequence of calls, a counted
    tracker has at least five positions; in every update, each count event
    comes from a tracker with at least five positions at that moment, and
    a tracker created by the update enters the crossing loop with exactly
    one position, uncounted, causes no count event and, if it stays live,
    leaves the update as it entered the loop. *)
Theorem counted_needs_five_positions (now : nat -> Z) (lp : Q)
    (dm : Direction -> option Event) (ops : list Op)
    (detections : list Detection) (frame_shape : Z * Z) :
  let w := run now (start lp dm) ops in
  let c := w_counter w in
  let u := update now (w_tick w) c detections frame_shape in
  let trs2 := fst (fst (created_trackers now (w_tick w) c detections)) in
  (forall tid tr,
      dict_get tid (trackers c) = Some tr -> counted tr = true ->
      (5 <= length (positions tr))%nat)
  /\ (forall ev,
        ev ∈ ur_log u ->
        exists tr2, dict_get (ev_track ev) trs2 = Some tr2
                    /\ (5 <= length (positions tr2))%nat)
  /\ (forall tid tr2,
        dict_get tid (trackers c) = None -> dict_get tid trs2 = Some tr2 ->
        length (positions tr2) = 1%nat
        /\ counted tr2 = false
        /\ (tid ∉ (ev_track <$> ur_log u))
        /\ (forall tr', dict_get tid (trackers (ur_counter u)) = Some tr' -> tr' = tr2)).
Proof.
  intros w c u trs2.
  assert (Hinv : counter_inv c) by apply counter_inv_reachable.
  split.
  { intros tid tr Hget Hcounted. destruct Hinv as (_ & Hall & _).
    rewrite Forall_forall in Hall. apply dict_get_Some_elem in Hget.
    destruct (Hall _ Hget) as (_ & _ & _ & H5). by apply H5. }
  split.
  { intros ev Hev.
    destruct (update_event now (w_tick w) c detections frame_shape Hinv ev Hev)
      as [(tr2 & ? & _ & ? & _) _].
    by exists tr2. }
  intros tid tr2 Hnone Hget2. subst u trs2.
  destruct (created_trackers now (w_tick w) c detections) as [[trs2 n2] t2] eqn:Hcreated.
  cbn [fst] in Hget2.
  destruct (created_lookup _ _ _ _ _ _ _ Hinv Hcreated _ _ Hget2)
    as [(_ & tr0 & Hget0 & _)|(_ & _ & Hc & Hlen)]; [congruence|].
  split; [done|]. split; [done|]. split.
  - intros (ev & -> & Hev)%list_elem_of_fmap.
    destruct (update_log_elem _ _ _ _ _ _ _ _ Hinv Hcreated _ Hev) as (tr2' & Hget2' & Hdec & _).
    assert (tr2' = tr2) as -> by congruence.
    apply count_decision_Some in Hdec as (_ & _ & Hdir & _).
    apply get_trajectory_direction_length in Hdir. lia.
  - intros tr' Hget'.
    destruct (update_lookup _ _ _ _ _ _ _ _ Hinv Hcreated _ _ Hget') as (tr2' & Hget2' & Hrel & _).
    assert (tr2' = tr2) as -> by congruence.
    destruct Hrel as [->|(_ & H5 & _)]; [done | lia].
Qed.

Lemma counted_needs_five_positions_witness :
  let w := run steady_clock (start (1 # 2) default_direction_mapping) (five_frames (300, 400)) in
  let detections := [wide_detection 260; wide_detection 1000] in
  let u := update steady_clock (w_tick w) (w_counter w) detections (300, 400) in
  (exists tr2, dict_get 1 (fst (fst (created_trackers steady_clock (w_tick w) (w_counter w)
                                        detections))) = Some tr2
               /\ (5 <= length (positions tr2))%nat)
  /\ 2 ∉ (ev_track <$> ur_log u).
Proof.
  intros w detections u.
  destruct (counted_needs_five_positions steady_clock (1 # 2) default_direction_mapping
              (five_frames (300, 400)) detections (300, 400)) as (_ & Hev & Hnew).
  split.
  - apply (Hev (mkCountEvent 1 "Car" RIGHT IN)). vm_compute. left.
  - assert (Hget : exists tr2,
               dict_get 2 (fst (fst (created_trackers steady_clock (w_tick w) (w_counter w)
                                       detections))) = Some tr2).
    { vm_compute. eexists. reflexivity. }
    destruct Hget as (tr2 & Hget).
    assert (Hnone : dict_get 2 (trackers (w_counter w)) = None) by (vm_compute; reflexivity).
    by destruct (Hnew 2 tr2 Hnone Hget) as (_ & _ & ? & _).
Defined.

(** ** Staleness and crossing *)

(** C1 (as stated, refuted): the staleness check of a tracker comes before
    its crossing test, and a stale tracker skips the test.  First run: a
    car is seen at x = 100 in five frames of width 400 (line at x = 200)
    and at x = 260 in the sixth; the clock jumps after the matched update
    of the sixth frame, so the tracker crosses and goes stale in the same
    frame.  Second run: the same six detections in frames of width 1000
    (line at x = 500, not crossed), then, after the clock jumps, a frame of
    width 400 without detections; the tracker is stale when that update
    starts.  In both, the tracker is uncounted, its last two positions
    cross the line and its direction is mapped, and the update removes it
    without counting it. *)
Lemma stale_crossing_not_counted :
  (let now := stalling_clock 11 in
   let w := run now (start (1 # 2) default_direction_mapping) (five_frames (300, 400)) in
   let c := w_counter w in
   let detections := [wide_detection 260] in
   let u := update now (w_tick w) c detections (300, 400) in
   let tr := crossing_tracker in
   fst (fst (created_trackers now (w_tick w) c detections)) = [(1, tr)]
     /\ counted tr = false
     /\ check_line_crossing tr (line_x_of c (300, 400)) = true
     /\ get_trajectory_direction tr = Some RIGHT
     /\ direction_mapping c RIGHT = Some IN
     /\ ur_log u = []
     /\ total_counts (ur_counter u) = total_counts c
     /\ trackers (ur_counter u) = [])
  /\ (let now := stalling_clock 12 in
      let ops := five_frames (300, 1000) ++ [OpUpdate [wide_detection 260] (300, 1000)] in
      let w := run now (start (1 # 2) default_direction_mapping) ops in
      let c := w_counter w in
      let u := update now (w_tick w) c [] (300, 400) in
      let tr := crossing_tracker in
      trackers c = [(1, tr)]
        /\ is_stale tr (max_age c) (now (w_tick w)) = true
        /\ counted tr = false
        /\ check_line_crossing tr (line_x_of c (300, 400)) = true
        /\ get_trajectory_direction tr = Some RIGHT
        /\ direction_mapping c RIGHT = Some IN
        /\ ur_log u = []
        /\ total_counts (ur_counter u) = total_counts c
        /\ trackers (ur_counter u) = []).
Proof.
  split.
  - vm_compute. repeat split.
  - vm_compute. repeat split.
Qed.

(** C1 (amended): in every update of a counter reached by any sequence of
    calls, for the tracker at each position of the crossing loop: if it is
    stale at its check, it skips the crossing test, causes no count event
    and is removed at the end of the update; if it is not stale, is
    uncounted, crossed the line and its trajectory direction is mapped, it
    is counted during the update (a count event, the counted flag and the
    event set) and stays live; if it is not stale and the counting branch
    does not fire, it stays live and unchanged and causes no count
    event. *)
Theorem stale_check_precedes_crossing (now : nat -> Z) (lp : Q)
    (dm : Direction -> option Event) (ops : list Op)
    (detections : list Detection) (frame_shape : Z * Z)
    (i : nat) (tid : Z) (tr : VehicleTracker) :
  let w := run now (start lp dm) ops in
  let c := w_counter w in
  let u := update now (w_tick w) c detections frame_shape in
  let trs2 := fst (fst (created_trackers now (w_tick w) c detections)) in
  let tick2 := snd (created_trackers now (w_tick w) c detections) in
  let line_x := line_x_of c frame_shape in
  trs2 !! i = Some (tid, tr) ->
  (is_stale tr (max_age c) (now (tick2 + i)%nat) = true ->
     dict_get tid (trackers (ur_counter u)) = None
     /\ tid ∉ (ev_track <$> ur_log u))
  /\ (is_stale tr (max_age c) (now (tick2 + i)%nat) = false ->
      forall dir count_type,
        counted tr = false ->
        check_line_crossing tr line_x = true ->
        get_trajectory_direction tr = Some dir ->
        direction_mapping c dir = Some count_type ->
        mkCountEvent tid (category tr) dir count_type ∈ ur_log u
        /\ dict_get tid (trackers (ur_counter u)) = Some (mark_counted tr count_type))
  /\ (is_stale tr (max_age c) (now (tick2 + i)%nat) = false ->
      count_decision (direction_mapping c) line_x tr = None ->
      dict_get tid (trackers (ur_counter u)) = Some tr
      /\ tid ∉ (ev_track <$> ur_log u)).
Proof.
  intros w c u trs2 tick2 line_x Hi.
  assert (Hinv : counter_inv c) by apply counter_inv_reachable.
  subst u trs2 tick2 line_x.
  destruct (created_trackers now (w_tick w) c detections) as [[trs2 n2] t2] eqn:Hcreated.
  cbn [fst snd] in *.
  pose proof (update_at _ _ _ _ frame_shape _ _ _ Hinv Hcreated _ _ _ Hi) as Hat.
  split; [|split].
  - intros Hstale. rewrite Hstale in Hat. by destruct Hat as (_ & ? & ?).
  - intros Hstale dir ct Hc Hcross Hdir Hdm. rewrite Hstale in Hat.
    assert (Hdec : count_decision (direction_mapping c) (line_x_of c frame_shape) tr
                   = Some (dir, ct)) by by apply count_decision_Some.
    rewrite Hdec in Hat. by destruct Hat as (_ & ? & ?).
  - intros Hstale Hdec. rewrite Hstale, Hdec in Hat. by destruct Hat as (_ & ? & ?).
Qed.

Lemma stale_check_precedes_crossing_witness :
  let now := steady_clock in
  let w := run now (start (1 # 2) default_direction_mapping) (five_frames (300, 400)) in
  let u := update now (w_tick w) (w_counter w) [wide_detection 260] (300, 400) in
  mkCountEvent 1 "Car" RIGHT IN ∈ ur_log u
  /\ dict_get 1 (trackers (ur_counter u)) = Some (mark_counted crossing_tracker IN).
Proof.
  intros now w u.
  assert (Hi : fst (fst (created_trackers now (w_tick w) (w_counter w) [wide_detection 260]))
                 !! 0%nat = Some (1, crossing_tracker)) by (vm_compute; reflexivity).
  assert (Hstale : is_stale crossing_tracker (max_age (w_counter w))
                     (now (snd (created_trackers now (w_tick w) (w_counter w)
                                  [wide_detection 260]) + 0)%nat) = false)
    by (vm_compute; reflexivity).
  assert (Hcross : check_line_crossing crossing_tracker (line_x_of (w_counter w) (300, 400))
                   = true) by (vm_compute; reflexivity).
  assert (Hdir : get_trajectory_direction crossing_tracker = Some RIGHT)
    by (vm_compute; reflexivity).
  assert (Hdm : direction_mapping (w_counter w) RIGHT = Some IN) by (vm_compute; reflexivity).
  destruct (stale_check_precedes_crossing now (1 # 2) default_direction_mapping
              (five_frames (300, 400)) [wide_detection 260] (300, 400) 0 1 crossing_tracker Hi)
    as (_ & Hcount & _).
  exact (Hcount Hstale RIGHT IN eq_refl Hcross Hdir Hdm).
Defined.

(** ** The crossing test and the direction *)

Lemma check_line_crossing_spec tr line_x :
  check_line_crossing tr line_x = true <-> crossing_condition (positions tr) line_x.
Proof.
  unfold check_line_crossing, crossing_condition. cbv zeta.
  destruct (length (positions tr) <? 2)%nat eqn:Hlen.
  - apply Nat.ltb_lt in Hlen. split; [done | intros [? _]; lia].
  - apply Nat.ltb_ge in Hlen.
    destruct (lookup_lt_is_Some_2 (positions tr) (length (positions tr) - 2)) as [prev Hprev];
      [lia|].
    destruct (lookup_lt_is_Some_2 (positions tr) (length (positions tr) - 1)) as [curr Hcurr];
      [lia|].
    rewrite Hprev, Hcurr. split.
    + intros Hb. split; [done|]. exists prev, curr. split; [done|]. split; [done|].
      apply orb_true_iff in Hb as [Hb|Hb]; apply andb_true_iff in Hb as [H1 H2]; [left|right]; lia.
    + intros (_ & prev' & curr' & [= <-] & [= <-] & Hcond).
      apply orb_true_iff.
      destruct Hcond as [[H1 H2]|[H1 H2]]; [left|right]; apply andb_true_iff; lia.
Qed.

Lemma get_trajectory_direction_spec tr dir :
  get_trajectory_direction tr = Some dir <->
  (5 <= length (positions tr))%nat
  /\ (30 < py_abs (displacement (positions tr)))%Q
  /\ dir = (if Qgtb (displacement (positions tr)) 0 then RIGHT else LEFT).
Proof.
  unfold get_trajectory_direction.
  destruct (length (positions tr) <? 5)%nat eqn:Hlen.
  - apply Nat.ltb_lt in Hlen. split; [done | intros [? _]; lia].
  - apply Nat.ltb_ge in Hlen.
    destruct (Qgtb (py_abs (displacement (positions tr))) 30) eqn:Habs.
    + apply Qgtb_true in Habs. split.
      * intros [= <-]. done.
      * intros (_ & _ & ->). done.
    + apply Qgtb_false in Habs. split; [done|].
      intros (_ & Hgt & _). exfalso. apply (Qlt_not_le _ _ Hgt Habs).
Qed.




(** ** Association of detections with tracks *)

Lemma best_tracker_S row claimed m :
  best_tracker row claimed (S m) = best_step row claimed (best_tracker row claimed m) m.
Proof. unfold best_tracker. by rewrite seq_S, foldl_snoc. Qed.

(** The invariant of the inner loop after the trackers below [m]. *)
Lemma best_tracker_inv row (claimed : gset nat) m :
  let b := fst (best_tracker row claimed m) in
  (3 # 10 <= b)%Q
  /\ (forall t, (t < m)%nat -> t ∉ claimed -> (row t <= b)%Q)
  /\ match snd (best_tracker row claimed m) with
     | None => b = (3 # 10)%Q
     | Some t =>
         (t < m)%nat /\ (t ∉ claimed) /\ b = row t /\ (3 # 10 < b)%Q
         /\ (forall t', (t' < t)%nat -> t' ∉ claimed -> (row t' < b)%Q)
     end.
Proof.
  induction m as [|m IH]; cbv zeta.
  - cbn. split; [lra|]. split; [intros; lia | done].
  - rewrite best_tracker_S. cbv zeta in IH.
    destruct (best_tracker row claimed m) as [b o]. cbn [fst snd] in IH.
    destruct IH as (Hb & Hle & Ho). unfold best_step. cbn [fst].
    destruct (bool_decide (m ∈ claimed)) eqn:Hclaimed.
    + apply bool_decide_eq_true in Hclaimed. cbn [fst snd].
      split; [done|]. split.
      * intros t Ht Hfree. apply Hle; [|done].
        destruct (decide (t = m)) as [->|]; [done | lia].
      * destruct o as [t|]; [|done].
        destruct Ho as (? & ? & ? & ? & ?). repeat split; auto; lia.
    + apply bool_decide_eq_false in Hclaimed.
      destruct (Qgtb (row m) b) eqn:Hgt; cbn [fst snd].
      * apply Qgtb_true in Hgt. split; [lra|]. split.
        -- intros t Ht Hfree. destruct (decide (t = m)) as [->|]; [lra|].
           assert (row t <= b)%Q by (apply Hle; [lia | done]). lra.
        -- split; [lia|]. split; [done|]. split; [done|]. split; [lra|].
           intros t' Ht' Hfree. assert (row t' <= b)%Q by (apply Hle; [lia | done]). lra.
      * apply Qgtb_false in Hgt. split; [done|]. split.
        -- intros t Ht Hfree. destruct (decide (t = m)) as [->|]; [done|].
           apply Hle; [lia | done].
        -- destruct o as [t|]; [|done].
           destruct Ho as (? & ? & ? & ? & ?). repeat split; auto; lia.
Qed.

Lemma best_tracker_Some row (claimed : gset nat) m t :
  snd (best_tracker row claimed m) = Some t ->
  (t < m)%nat /\ (t ∉ claimed) /\ (3 # 10 < row t)%Q
  /\ (forall t', (t' < m)%nat -> t' ∉ claimed -> (row t' <= row t)%Q)
  /\ (forall t', (t' < t)%nat -> t' ∉ claimed -> (row t' < row t)%Q).
Proof.
  intros Ho. pose proof (best_tracker_inv row claimed m) as (Hb & Hle & Hsome).
  rewrite Ho in Hsome. destruct Hsome as (? & ? & Heq & ? & ?).
  rewrite Heq in *. done.
Qed.

Lemma best_tracker_None row (claimed : gset nat) m :
  snd (best_tracker row claimed m) = None ->
  forall t, (t < m)%nat -> t ∉ claimed -> (row t <= 3 # 10)%Q.
Proof.
  intros Ho. pose proof (best_tracker_inv row claimed m) as (Hb & Hle & Hnone).
  rewrite Ho in Hnone. rewrite Hnone in Hle. done.
Qed.

Lemma claimed_before_set matched k tid d tid' :
  (d <= k)%nat ->
  claimed_before (dict_set k tid matched) d tid' <-> claimed_before matched d tid'.
Proof.
  intros Hle. unfold claimed_before.
  split; intros (d' & Hlt & Hget); exists d'; (split; [done|]).
  - rewrite dict_get_set_ne in Hget; [done | lia].
  - rewrite dict_get_set_ne; [done | lia].
Qed.

Lemma free_for_ext trs matched matched' d t :
  (forall tid, claimed_before matched d tid <-> claimed_before matched' d tid) ->
  free_for trs matched d t -> free_for trs matched' d t.
Proof. intros Hext (tid & Hk & Hfree). exists tid. by rewrite <- Hext. Qed.

Lemma greedy_match_ext trs detections matched matched' d tid :
  (forall tid, claimed_before matched d tid <-> claimed_before matched' d tid) ->
  greedy_match trs detections matched d tid -> greedy_match trs detections matched' d tid.
Proof.
  intros Hext (t & Hk & Hfree & Hgt & Hmax & Hfirst).
  assert (Hback : forall t', free_for trs matched' d t' -> free_for trs matched d t').
  { intros t'. apply free_for_ext. intros tid'. by rewrite Hext. }
  exists t. split; [done|]. split; [by rewrite <- Hext|]. split; [done|]. split; auto.
Qed.

Lemma greedy_unmatched_ext trs detections matched matched' d :
  (forall tid, claimed_before matched d tid <-> claimed_before matched' d tid) ->
  greedy_unmatched trs detections matched d -> greedy_unmatched trs detections matched' d.
Proof.
  intros Hext Hun t' Hfree. apply Hun. revert Hfree. apply free_for_ext.
  intros tid'. by rewrite Hext.
Qed.

Lemma match_loop_S trs detections k :
  match_loop trs detections (seq 0 (S k))
  = match_step trs detections (match_loop trs detections (seq 0 k)) k.
Proof. unfold match_loop. by rewrite seq_S, foldl_snoc. Qed.

Lemma match_inv_init trs detections : match_inv trs detections 0 (mkMatchState [] [] ∅).
Proof.
  unfold match_inv. cbn.
  split; [done|]. split; [constructor|]. split; [constructor|]. split.
  { intros d. split; [intros Hin; by apply elem_of_nil in Hin | intros [? _]; lia]. }
  split.
  { intros t. split; [intros Hin; by apply not_elem_of_empty in Hin | by intros (? & ? & _ & ?)]. }
  split; [done|]. intros d Hin. by apply elem_of_nil in Hin.
Qed.

Lemma match_inv_step trs detections k st :
  NoDup (dict_keys trs) ->
  match_inv trs detections k st ->
  match_inv trs detections (S k) (match_step trs detections st k).
Proof.
  intros Hnd (Hlt & Hndm & Hndun & Hun & Hmt & Hgm & Hgu).
  assert (Hfresh : dict_get k (ms_matched st) = None).
  { destruct (dict_get k (ms_matched st)) as [tid|] eqn:Hget; [|done].
    apply Hlt in Hget. lia. }
  assert (Hfree : forall t tid, dict_keys trs !! t = Some tid ->
            (t ∉ ms_matched_trackers st <-> ~ claimed_before (ms_matched st) k tid)).
  { intros t tid Hk. rewrite Hmt. split.
    - intros Hno (d' & _ & Hget). apply Hno. eauto.
    - intros Hno (tid' & d' & Hk' & Hget). apply Hno.
      assert (tid' = tid) as -> by congruence. exists d'. split; [|done].
      by apply Hlt in Hget. }
  assert (Hfree' : forall t, (t < length trs)%nat -> t ∉ ms_matched_trackers st ->
            free_for trs (ms_matched st) k t).
  { intros t Ht Hno.
    destruct (lookup_lt_is_Some_2 (dict_keys trs) t) as [tid Hk];
      [unfold dict_keys; by rewrite length_fmap|].
    exists tid. split; [done|]. by apply (Hfree t tid Hk). }
  assert (Hfree'' : forall t, free_for trs (ms_matched st) k t ->
            (t < length trs)%nat /\ t ∉ ms_matched_trackers st).
  { intros t (tid & Hk & Hno). split.
    - apply lookup_lt_Some in Hk. unfold dict_keys in Hk. by rewrite length_fmap in Hk.
    - by apply (Hfree t tid Hk). }
  unfold match_step.
  destruct (snd (best_tracker (iou_matrix trs detections k) (ms_matched_trackers st)
                   (length trs))) as [t|] eqn:Hbest.
  - apply best_tracker_Some in Hbest as (Ht & Hnotin & Hgt & Hmax & Hfirst).
    destruct (lookup_lt_is_Some_2 (dict_keys trs) t) as [tid Hk];
      [unfold dict_keys; by rewrite length_fmap|].
    rewrite (nth_lookup_Some _ _ _ _ Hk).
    unfold match_inv. cbn [ms_matched ms_unmatched_detections ms_matched_trackers].
    assert (Hget : forall d, dict_get d (dict_set k tid (ms_matched st))
                             = if decide (d = k) then Some tid else dict_get d (ms_matched st)).
    { intros d. destruct (decide (d = k)) as [->|Hne].
      - apply dict_get_set_eq.
      - apply dict_get_set_ne. congruence. }
    split; [|split; [|split; [done|split; [|split; [|split]]]]].
    + intros d tid'. rewrite Hget. destruct (decide (d = k)) as [->|]; [lia|].
      intros Hd. apply Hlt in Hd. lia.
    + apply dict_get_None in Hfresh. rewrite (dict_set_fresh _ _ _ Hfresh).
      unfold dict_keys. rewrite fmap_app. apply NoDup_app.
      split; [done|]. split; [|apply NoDup_singleton].
      intros d Hd Hd'. apply list_elem_of_singleton in Hd' as ->. done.
    + intros d. rewrite Hun, Hget. destruct (decide (d = k)) as [->|Hne].
      * split; [intros [? _]; lia | intros [_ ?]; done].
      * split; intros [? ?]; (split; [lia | done]).
    + intros t'. rewrite elem_of_union, elem_of_singleton, Hmt. split.
      * intros [->|(tid' & d & Hk' & Hd)].
        -- exists tid, k. split; [done|]. rewrite Hget. by rewrite decide_True.
        -- exists tid', d. split; [done|]. rewrite Hget.
           rewrite decide_False; [done|]. apply Hlt in Hd. lia.
      * intros (tid' & d & Hk' & Hd). rewrite Hget in Hd.
        destruct (decide (d = k)) as [->|Hne].
        -- left. injection Hd as <-. exact (NoDup_lookup _ _ _ _ Hnd Hk' Hk).
        -- right. eauto.
    + intros d tid'. rewrite Hget. destruct (decide (d = k)) as [->|Hne].
      * intros [= <-]. apply (greedy_match_ext trs detections (ms_matched st));
          [intros tid'; symmetry; by apply claimed_before_set|].
        exists t. split; [done|]. split; [by apply (Hfree t tid Hk)|]. split; [done|].
        split.
        -- intros t' Hf. apply Hfree'' in Hf as [? ?]. by apply Hmax.
        -- intros t' Hlt' Hf. apply Hfree'' in Hf as [? ?]. by apply Hfirst.
      * intros Hd. apply (greedy_match_ext trs detections (ms_matched st)).
        -- intros tid''. symmetry. apply claimed_before_set. apply Hlt in Hd. lia.
        -- by apply Hgm.
    + intros d Hd. apply (greedy_unmatched_ext trs detections (ms_matched st)).
      * intros tid''. symmetry. apply claimed_before_set. apply Hun in Hd as [? _]. lia.
      * by apply Hgu.
  - pose proof (best_tracker_None _ _ _ Hbest) as Hnone.
    unfold match_inv. cbn [ms_matched ms_unmatched_detections ms_matched_trackers].
    split; [|split; [done|split; [|split; [|split; [done|split; [done|]]]]]].
    + intros d tid Hd. apply Hlt in Hd. lia.
    + apply NoDup_app. split; [done|]. split; [|apply NoDup_singleton].
      intros d Hd Hd'. apply list_elem_of_singleton in Hd' as ->.
      apply Hun in Hd as [? _]. lia.
    + intros d. rewrite elem_of_app, list_elem_of_singleton, Hun. split.
      * intros [[? ?]| ->]; (split; [lia | done]).
      * intros [Hd Hget]. destruct (decide (d = k)) as [->|]; [by right|].
        left. split; [lia | done].
    + intros d. rewrite elem_of_app, list_elem_of_singleton.
      intros [Hd| ->]; [by apply Hgu|].
      intros t' Hf. apply Hfree'' in Hf as [? ?]. by apply Hnone.
Qed.

Lemma match_inv_loop trs detections k :
  NoDup (dict_keys trs) ->
  match_inv trs detections k (match_loop trs detections (seq 0 k)).
Proof.
  intros Hnd. induction k as [|k IH].
  - apply match_inv_init.
  - rewrite match_loop_S. by apply match_inv_step.
Qed.

Lemma match_loop_no_trackers detections n :
  match_loop [] detections (seq 0 n) = mkMatchState [] (seq 0 n) ∅.
Proof.
  induction n as [|n IH]; [done|].
  rewrite match_loop_S, IH, seq_S. reflexivity.
Qed.

(** The two early returns give what the greedy loop would give. *)
Lemma match_detections_to_trackers_loop trs detections :
  match_detections_to_trackers trs detections
  = (ms_matched (match_loop trs detections (seq 0 (length detections))),
     ms_unmatched_detections (match_loop trs detections (seq 0 (length detections)))).
Proof.
  unfold match_detections_to_trackers.
  destruct trs as [|e trs]; [by rewrite match_loop_no_trackers|].
  destruct detections as [|det detections]; done.
Qed.



(** * Further properties *)

(** ** Centers, staleness, crossing *)






(** ** Staleness *)

Lemma total_seconds_gt us n :
  (inject_Z n < total_seconds us)%Q <-> n * 1000000 < us.
Proof.
  unfold total_seconds.
  change (inject_Z us / 1000000)%Q with (inject_Z us * (1 # 1000000))%Q.
  assert (H : (inject_Z (n * 1000000) == inject_Z n * 1000000)%Q)
    by (rewrite inject_Z_mult; reflexivity).
  rewrite Zlt_Qlt, H. split; intros; lra.
Qed.

Lemma config_step now w op :
  max_age (w_counter (step now w op)) = max_age (w_counter w)
  /\ line_position (w_counter (step now w op)) = line_position (w_counter w)
  /\ direction_mapping (w_counter (step now w op)) = direction_mapping (w_counter w)
  /\ max_distance (w_counter (step now w op)) = max_distance (w_counter w).
Proof.
  destruct op as [detections frame_shape| |capacity]; cbn [step w_counter]; [|done|done].
  destruct (created_trackers now (w_tick w) (w_counter w) detections) as [[trs2 n2] t2] eqn:Hc.
  destruct (update_unfold now (w_tick w) (w_counter w) detections frame_shape _ _ _ Hc) as [_ ->].
  done.
Qed.

Lemma config_run now w ops :
  max_age (w_counter (run now w ops)) = max_age (w_counter w)
  /\ line_position (w_counter (run now w ops)) = line_position (w_counter w)
  /\ direction_mapping (w_counter (run now w ops)) = direction_mapping (w_counter w)
  /\ max_distance (w_counter (run now w ops)) = max_distance (w_counter w).
Proof.
  revert w. induction ops as [|op ops IH]; intros w; [done|].
  change (run now w (op :: ops)) with (run now (step now w op) ops).
  destruct (IH (step now w op)) as (-> & -> & -> & ->).
  apply config_step.
Qed.

Lemma max_age_reachable now lp dm ops :
  max_age (w_counter (run now (start lp dm) ops)) = 2%Q.
Proof. by destruct (config_run now (start lp dm) ops) as [-> _]. Qed.

Lemma is_stale_two tr t : is_stale tr 2 t = true <-> 2000000 < t - last_seen tr.
Proof.
  unfold is_stale. cbv zeta. rewrite Qgtb_true.
  change 2%Q with (inject_Z 2). rewrite total_seconds_gt. lia.
Qed.

Lemma is_stale_two_false tr t : is_stale tr 2 t = false <-> t - last_seen tr <= 2000000.
Proof.
  pose proof (is_stale_two tr t) as Hiff.
  destruct (is_stale tr 2 t); split; intros H; try done.
  - destruct Hiff as [Hiff _]. specialize (Hiff eq_refl). lia.
  - destruct Hiff as [_ Hiff]. destruct (Z_lt_le_dec 2000000 (t - last_seen tr)) as [Hlt|Hle].
    + by specialize (Hiff Hlt).
    + done.
Qed.

(** X2: in a counter reached from construction by any sequence of calls
    the maximum age is still 2 s, so [is_stale] holds exactly when more
    than 2,000,000 microseconds passed since the tracker was last seen (at
    exactly 2 s it is not stale), and a tracker that is stale stays stale
    at every later time until it is matched again. *)
Theorem stale_after_two_seconds (now : nat -> Z) (lp : Q) (dm : Direction -> option Event)
    (ops : list Op) (tr : VehicleTracker) (t : Z) :
  let c := w_counter (run now (start lp dm) ops) in
  (is_stale tr (max_age c) t = true <-> 2000000 < t - last_seen tr)
  /\ (forall t', t <= t' -> is_stale tr (max_age c) t = true ->
                 is_stale tr (max_age c) t' = true).
Proof.
  intros c. subst c. rewrite max_age_reachable.
  split; [apply is_stale_two|].
  intros t' Hle. rewrite !is_stale_two. lia.
Qed.

Lemma stale_after_two_seconds_witness : is_stale crossing_tracker 2 4000000 = true.
Proof.
  destruct (stale_after_two_seconds steady_clock (1 # 2) default_direction_mapping []
              crossing_tracker 3000001) as [Hiff Hmono].
  apply (Hmono 4000000); [lia|]. apply Hiff. cbn. lia.
Defined.

(** ** Successive crossings *)

Lemma deque_append_last_two ps p curr :
  ps !! (length ps - 1)%nat = Some curr ->
  let ps' := deque_append ps p in
  ps' !! (length ps' - 2)%nat = Some curr /\ ps' !! (length ps' - 1)%nat = Some p.
Proof.
  intros Hcurr. pose proof (lookup_lt_Some _ _ _ Hcurr) as Hlen.
  unfold deque_append, maxlen. destruct (30 <=? length ps)%nat eqn:Hfull; cbv zeta.
  - apply Nat.leb_le in Hfull. rewrite length_app, length_drop. cbn [length]. split.
    + rewrite lookup_app_l by (rewrite length_drop; lia).
      rewrite lookup_drop. rewrite <- Hcurr. f_equal. lia.
    + rewrite lookup_app_r by (rewrite length_drop; lia).
      rewrite length_drop. replace (_ - _)%nat with 0%nat by lia. done.
  - rewrite length_app. cbn [length]. split.
    + rewrite lookup_app_l by lia. rewrite <- Hcurr. f_equal. lia.
    + rewrite lookup_app_r by lia. replace (_ - _)%nat with 0%nat by lia. done.
Qed.

(** X3: if a tracker is on a crossing in one frame and, after its next
    matched update, on a crossing again, the second crossing goes back
    over the line: the first step ends on the far side and the second
    step returns.  A tracker that keeps moving in one direction is
    therefore on a crossing in at most one frame. *)
Theorem consecutive_crossings_reverse (tr : VehicleTracker) (b : BBox) (t : Z) (conf : Q)
    (line_x : Z) :
  let tr' := set_confidence (tracker_update tr b t) conf in
  check_line_crossing tr line_x = true ->
  check_line_crossing tr' line_x = true ->
  exists prev_pos curr_pos,
    positions tr !! (length (positions tr) - 2)%nat = Some prev_pos
    /\ positions tr !! (length (positions tr) - 1)%nat = Some curr_pos
    /\ ((fst prev_pos < line_x /\ line_x < fst curr_pos /\ fst (get_center b) <= line_x)
        \/ (fst prev_pos > line_x /\ line_x > fst curr_pos /\ fst (get_center b) >= line_x)).
Proof.
  intros tr' H1 H2.
  apply check_line_crossing_spec in H1 as (Hlen & prev & curr & Hprev & Hcurr & Hcond).
  apply check_line_crossing_spec in H2 as (_ & prev' & curr' & Hprev' & Hcurr' & Hcond').
  subst tr'. cbn [set_confidence tracker_update positions] in Hprev', Hcurr'.
  destruct (deque_append_last_two _ (get_center b) _ Hcurr) as [Hp Hc].
  cbv zeta in Hp, Hc. rewrite Hp in Hprev'. rewrite Hc in Hcurr'.
  injection Hprev' as <-. injection Hcurr' as <-.
  exists prev, curr. split; [done|]. split; [done|]. lia.
Qed.

Lemma consecutive_crossings_reverse_witness :
  exists prev_pos curr_pos,
    positions crossing_tracker !! 4%nat = Some prev_pos
    /\ positions crossing_tracker !! 5%nat = Some curr_pos
    /\ fst prev_pos < 200 /\ 200 < fst curr_pos.
Proof.
  destruct (consecutive_crossings_reverse crossing_tracker
              (det_bbox (wide_detection 100)) 1100000 (9 # 10) 200)
    as (prev & curr & Hprev & Hcurr & Hcond); [reflexivity | reflexivity |].
  exists prev, curr. split; [exact Hprev|]. split; [exact Hcurr|].
  cbn in Hprev, Hcurr. injection Hprev as <-. injection Hcurr as <-. cbn. lia.
Defined.

(** ** More on the association *)

Lemma filter_ext_elem {A} (P Q : A -> Prop) `{!forall x, Decision (P x)}
    `{!forall x, Decision (Q x)} (l : list A) :
  (forall x, x ∈ l -> (P x <-> Q x)) -> filter P l = filter Q l.
Proof.
  induction l as [|x l IH]; intros Hext; [done|].
  rewrite !filter_cons.
  assert (Hx : P x <-> Q x) by (apply Hext; left).
  rewrite IH by (intros y Hy; apply Hext; by right).
  destruct (decide (P x)), (decide (Q x)); tauto.
Qed.

(** The two results of the greedy loop list the detections below [k] in
    input order: the matched ones as the keys of the dict, the others as
    the unmatched list. *)
Lemma match_loop_order trs detections k :
  NoDup (dict_keys trs) ->
  let st := match_loop trs detections (seq 0 k) in
  dict_keys (ms_matched st)
  = filter (fun d => is_Some (dict_get d (ms_matched st))) (seq 0 k)
  /\ ms_unmatched_detections st
     = filter (fun d => dict_get d (ms_matched st) = None) (seq 0 k).
Proof.
  intros Hnd. induction k as [|k IH]; cbv zeta; [done|].
  cbv zeta in IH. destruct IH as [IHm IHu].
  destruct (match_inv_loop trs detections k Hnd) as (Hlt & _).
  rewrite match_loop_S, seq_S, !filter_app. cbn [Nat.add].
  set (st := match_loop trs detections (seq 0 k)) in *.
  assert (Hfresh : dict_get k (ms_matched st) = None).
  { destruct (dict_get k (ms_matched st)) as [tid|] eqn:Hget; [|done].
    apply Hlt in Hget. lia. }
  unfold match_step.
  destruct (snd (best_tracker (iou_matrix trs detections k) (ms_matched_trackers st)
                   (length trs))) as [t|];
    cbn [ms_matched ms_unmatched_detections].
  - set (tid := nth t (dict_keys trs) 0).
    assert (Hother : forall d, d ∈ seq 0 k ->
              dict_get d (dict_set k tid (ms_matched st)) = dict_get d (ms_matched st)).
    { intros d Hd. apply elem_of_seq in Hd. apply dict_get_set_ne. lia. }
    assert (Hkeys : dict_keys (dict_set k tid (ms_matched st))
                    = dict_keys (ms_matched st) ++ [k]).
    { rewrite (dict_set_fresh _ _ _ (proj1 (dict_get_None _ _) Hfresh)).
      unfold dict_keys. by rewrite fmap_app. }
    split.
    + rewrite Hkeys, IHm. f_equal.
      * apply filter_ext_elem. intros d Hd. by rewrite Hother.
      * rewrite filter_cons_True; [done|].
        rewrite dict_get_set_eq. eauto.
    + rewrite IHu, filter_cons_False, filter_nil, app_nil_r.
      * apply filter_ext_elem. intros d Hd. by rewrite Hother.
      * by rewrite dict_get_set_eq.
  - split.
    + rewrite filter_cons_False, filter_nil, app_nil_r; [done|].
      rewrite Hfresh. by intros [? ?].
    + rewrite IHu. f_equal. by rewrite filter_cons_True.
Qed.

(** What the loop invariant gives for the results of
    [match_detections_to_trackers]. *)
Lemma match_results trs detections :
  NoDup (dict_keys trs) ->
  let matched := fst (match_detections_to_trackers trs detections) in
  let unmatched := snd (match_detections_to_trackers trs detections) in
  NoDup (dict_keys matched)
  /\ NoDup unmatched
  /\ (forall d, d ∈ unmatched <-> (d < length detections)%nat /\ dict_get d matched = None)
  /\ (forall d tid, dict_get d matched = Some tid ->
                    (d < length detections)%nat /\ tid ∈ dict_keys trs)
  /\ NoDup (snd <$> matched)
  /\ dict_keys matched
     = filter (fun d => is_Some (dict_get d matched)) (seq 0 (length detections))
  /\ unmatched = filter (fun d => dict_get d matched = None) (seq 0 (length detections)).
Proof.
  intros Hnd matched unmatched. subst matched unmatched.
  rewrite match_detections_to_trackers_loop. cbn [fst snd].
  destruct (match_inv_loop trs detections (length detections) Hnd)
    as (Hlt & Hndm & Hndu & Hun & Hmt & Hgm & Hgu).
  destruct (match_loop_order trs detections (length detections) Hnd) as [Hm Hu].
  set (st := match_loop trs detections (seq 0 (length detections))) in *.
  split; [done|]. split; [done|]. split; [done|].
  split; [|split; [|done]].
  - intros d tid Hd. split; [by apply Hlt in Hd|].
    destruct (Hgm _ _ Hd) as (t & Hk & _). apply list_elem_of_lookup. eauto.
  - apply NoDup_alt. intros i j tid Hi Hj.
    apply list_lookup_fmap_Some in Hi as ([d1 t1] & -> & Hi).
    apply list_lookup_fmap_Some in Hj as ([d2 t2] & Heq & Hj). simpl in Heq. subst t2.
    assert (Hg1 : dict_get d1 (ms_matched st) = Some t1) by (by eapply dict_get_lookup).
    assert (Hg2 : dict_get d2 (ms_matched st) = Some t1) by (by eapply dict_get_lookup).
    assert (d1 = d2) as <-.
    { destruct (Nat.lt_trichotomy d1 d2) as [Hlt12|[->|Hlt21]]; [|done|]; exfalso.
      - destruct (Hgm _ _ Hg2) as (t & _ & Hfree & _). apply Hfree. by exists d1.
      - destruct (Hgm _ _ Hg1) as (t & _ & Hfree & _). apply Hfree. by exists d2. }
    eapply NoDup_lookup; [exact Hndm | |]; unfold dict_keys; rewrite list_lookup_fmap.
    + by rewrite Hi.
    + by rewrite Hj.
Qed.

Lemma match_lengths trs detections :
  NoDup (dict_keys trs) ->
  let matched := fst (match_detections_to_trackers trs detections) in
  let unmatched := snd (match_detections_to_trackers trs detections) in
  (length matched + length unmatched = length detections)%nat
  /\ (length matched <= length trs)%nat.
Proof.
  intros Hnd matched unmatched.
  destruct (match_results trs detections Hnd) as (Hndm & Hndu & Hun & Hkey & Hvals & _).
  fold matched unmatched in Hndm, Hndu, Hun, Hkey, Hvals.
  split.
  - assert (Hperm : dict_keys matched ++ unmatched ≡ₚ seq 0 (length detections)).
    { apply NoDup_Permutation.
      - apply NoDup_app. split; [done|]. split; [|done].
        intros d Hd Hd'. apply Hun in Hd' as [_ Hnone].
        apply dict_get_None in Hnone. done.
      - apply NoDup_seq.
      - intros d. rewrite elem_of_app, elem_of_seq, Hun. split.
        + intros [Hd|[Hd _]]; [|lia].
          apply dict_get_is_Some in Hd as [tid Hd]. apply Hkey in Hd. lia.
        + intros [_ Hd]. destruct (dict_get d matched) as [tid|] eqn:Hget.
          * left. apply dict_get_is_Some. rewrite Hget. eauto.
          * right. split; [lia | done]. }
    apply Permutation_length in Hperm.
    rewrite length_app, length_seq in Hperm. unfold dict_keys in Hperm.
    by rewrite length_fmap in Hperm.
  - rewrite <- (length_fmap snd matched), <- (length_fmap fst trs).
    apply submseteq_length, NoDup_submseteq; [done|].
    intros tid Htid. apply list_elem_of_fmap in Htid as ([d t] & -> & Hin).
    apply (dict_get_elem _ _ _ Hndm) in Hin. apply Hkey in Hin as [_ Hin]. exact Hin.
Qed.

(** X4: the results of [match_detections_to_trackers] split the detection
    indices: the matched indices (the keys of the dict) and the unmatched
    list are, each in input order, the indices with and without a match,
    so their lengths add up to the number of detections; no track id is
    matched twice, and there are at most as many matches as trackers. *)
Theorem matching_partition (trs : list (Z * VehicleTracker)) (detections : list Detection)
    (Hnd : NoDup (dict_keys trs)) :
  let matched := fst (match_detections_to_trackers trs detections) in
  let unmatched := snd (match_detections_to_trackers trs detections) in
  dict_keys matched
  = filter (fun d => is_Some (dict_get d matched)) (seq 0 (length detections))
  /\ unmatched = filter (fun d => dict_get d matched = None) (seq 0 (length detections))
  /\ (length matched + length unmatched = length detections)%nat
  /\ NoDup (snd <$> matched)
  /\ (length matched <= length trs)%nat.
Proof.
  intros matched unmatched.
  destruct (match_results trs detections Hnd) as (_ & _ & _ & _ & Hvals & Hm & Hu).
  destruct (match_lengths trs detections Hnd) as [Hsum Hle].
  done.
Qed.

Lemma matching_partition_witness :
  let trs := [(1, crossing_tracker)] in
  let detections := [wide_detection 260; wide_detection 1000] in
  snd (match_detections_to_trackers trs detections) = [1%nat]
  /\ (length (fst (match_detections_to_trackers trs detections)) <= 1)%nat.
Proof.
  intros trs detections.
  assert (Hnd : NoDup (dict_keys trs)) by apply NoDup_singleton.
  destruct (matching_partition trs detections Hnd) as (_ & Hu & _ & _ & Hle).
  split; [rewrite Hu; vm_compute; reflexivity | exact Hle].
Defined.

(** ** The update phase and the creation phase, entry by entry *)

Lemma dict_get_app_l {K V} `{EqDecision K} (d d' : list (K * V)) k v :
  dict_get k d = Some v -> dict_get k (d ++ d') = Some v.
Proof.
  induction d as [|[k0 v0] d IH]; simpl; [done|].
  destruct (decide (k = k0)); auto.
Qed.

Lemma dict_get_app_r {K V} `{EqDecision K} (d d' : list (K * V)) k :
  dict_get k d = None -> dict_get k (d ++ d') = dict_get k d'.
Proof.
  induction d as [|[k0 v0] d IH]; simpl; [done|].
  destruct (decide (k = k0)); [done | auto].
Qed.

Lemma dict_set_keys {K V} `{EqDecision K} (d : list (K * V)) k v :
  is_Some (dict_get k d) -> dict_keys (dict_set k v d) = dict_keys d.
Proof.
  induction d as [|[k0 v0] d IH]; simpl; [by intros [? ?]|].
  destruct (decide (k = k0)) as [->|Hne]; simpl; [done|].
  intros Hk. by rewrite IH.
Qed.

(** The loop over the matched pairs, when no track id occurs twice in
    them: the [j]-th pair updates its tracker with the [j]-th reading of
    the clock, and the other trackers are left alone. *)
Lemma apply_matched_effect now detections ms trs tick :
  NoDup (snd <$> ms) ->
  (forall d tid, (d, tid) ∈ ms -> is_Some (detections !! d) /\ is_Some (dict_get tid trs)) ->
  let r := foldl (apply_matched now detections) (trs, tick) ms in
  snd r = (tick + length ms)%nat
  /\ dict_keys (fst r) = dict_keys trs
  /\ (forall tid, tid ∉ (snd <$> ms) -> dict_get tid (fst r) = dict_get tid trs)
  /\ (forall j d tid det tr0,
        ms !! j = Some (d, tid) -> detections !! d = Some det ->
        dict_get tid trs = Some tr0 ->
        dict_get tid (fst r)
        = Some (set_confidence (tracker_update tr0 (det_bbox det) (now (tick + j)%nat))
                               (det_confidence det))).
Proof.
  revert trs tick. induction ms as [|[d0 t0] ms IH]; intros trs tick Hnd Hvalid; cbv zeta.
  - cbn. split; [lia|]. split; [done|]. split; [done|]. intros j ? ? ? ? Hj. done.
  - rewrite fmap_cons in Hnd. apply NoDup_cons in Hnd as [Ht0 Hnd].
    destruct (Hvalid d0 t0 ltac:(left)) as [[det0 Hdet0] [tr00 Htr00]].
    set (u0 := set_confidence (tracker_update tr00 (det_bbox det0) (now tick))
                              (det_confidence det0)).
    set (trs' := dict_set t0 u0 trs).
    assert (Hstep : apply_matched now detections (trs, tick) (d0, t0) = (trs', S tick)).
    { unfold apply_matched. by rewrite Hdet0, Htr00. }
    cbn [foldl]. rewrite Hstep.
    assert (Hother : forall tid, tid <> t0 -> dict_get tid trs' = dict_get tid trs).
    { intros tid Hne. apply dict_get_set_ne. congruence. }
    assert (Hvalid' : forall d tid, (d, tid) ∈ ms ->
              is_Some (detections !! d) /\ is_Some (dict_get tid trs')).
    { intros d tid Hin. destruct (Hvalid d tid ltac:(by right)) as [? ?].
      split; [done|]. rewrite Hother; [done|].
      intros ->. apply Ht0. apply list_elem_of_fmap. by exists (d, t0). }
    destruct (IH trs' (S tick) Hnd Hvalid') as (Htick & Hkeys & Hrest & Hupd).
    cbv zeta in Htick, Hkeys, Hrest, Hupd.
    split; [rewrite Htick; cbn [length]; lia|].
    split; [rewrite Hkeys; apply dict_set_keys; eauto|].
    split.
    + intros tid Hnin. rewrite fmap_cons in Hnin. apply not_elem_of_cons in Hnin as [Hne Hnin].
      rewrite Hrest by done. by apply Hother.
    + intros [|j] d tid det tr0 Hj Hdet Htr0.
      * injection Hj as -> ->. rewrite Hrest by done.
        subst trs'. rewrite dict_get_set_eq. subst u0.
        rewrite Nat.add_0_r. congruence.
      * change (ms !! j = Some (d, tid)) in Hj.
        assert (Hne : tid <> t0).
        { intros ->. apply Ht0. apply list_elem_of_fmap. exists (d, t0).
          split; [done|]. apply list_elem_of_lookup. eauto. }
        replace (tick + S j)%nat with (S tick + j)%nat by lia.
        apply (Hupd j d tid det tr0 Hj Hdet). by rewrite Hother.
Qed.

(** The loop over the unmatched detections, when all keys of the dict are
    below the next track id: the [j]-th detection gets the entry
    [created_entry ... j], appended after the trackers of the dict. *)
Lemma create_tracker_entries now detections idxs trs next_id tick :
  Forall (fun k => k < next_id) (dict_keys trs) ->
  Forall (fun i => (i < length detections)%nat) idxs ->
  exists news,
    foldl (create_tracker now detections) (trs, next_id, tick) idxs
    = (trs ++ news, next_id + Z.of_nat (length idxs), (tick + length idxs)%nat)
    /\ length news = length idxs
    /\ (forall j i det,
          idxs !! j = Some i -> detections !! i = Some det ->
          news !! j = Some (created_entry now next_id tick j det)).
Proof.
  revert trs next_id tick. induction idxs as [|i0 idxs IH]; intros trs next_id tick Hlt Hvalid.
  - exists []. rewrite app_nil_r. cbn [foldl length].
    rewrite Nat.add_0_r. change (Z.of_nat 0) with 0. rewrite Z.add_0_r.
    split; [done|]. split; [done|]. intros j ? ? Hj. done.
  - apply Forall_cons in Hvalid as [Hi0 Hvalid].
    destruct (lookup_lt_is_Some_2 detections i0 Hi0) as [det0 Hdet0].
    set (tr := VehicleTracker_init next_id (det_bbox det0) (det_display_category det0)
                 (det_confidence det0) (now tick)).
    assert (Hstep : create_tracker now detections (trs, next_id, tick) i0
                    = (trs ++ [(next_id, tr)], next_id + 1, S tick)).
    { unfold create_tracker. rewrite Hdet0. cbv zeta. rewrite dict_set_fresh; [done|].
      intros Hin. rewrite Forall_forall in Hlt. apply Hlt in Hin. lia. }
    cbn [foldl]. rewrite Hstep.
    destruct (IH (trs ++ [(next_id, tr)]) (next_id + 1) (S tick))
      as (news & Heq & Hlen & Hnews); [|done|].
    { unfold dict_keys. rewrite fmap_app. apply Forall_app. split.
      - eapply Forall_impl; [exact Hlt|]. simpl. intros; lia.
      - repeat constructor. simpl. lia. }
    exists ((next_id, tr) :: news). split; [|split].
    + rewrite Heq, <- app_assoc. cbn [length app]. f_equal; [f_equal; lia | lia].
    + cbn [length]. by rewrite Hlen.
    + intros [|j] i det Hj Hdet.
      * injection Hj as ->. assert (det = det0) as -> by congruence.
        cbn [lookup list_lookup]. unfold created_entry. subst tr.
        rewrite Nat.add_0_r, Z.add_0_r. done.
      * change (idxs !! j = Some i) in Hj.
        change (news !! j = Some (created_entry now next_id tick (S j) det)).
        rewrite (Hnews j i det Hj Hdet).
        unfold created_entry.
        replace (next_id + 1 + Z.of_nat j) with (next_id + Z.of_nat (S j)) by lia.
        replace (S tick + j)%nat with (tick + S j)%nat by lia. done.
Qed.

(** The trackers the crossing loop of [update] runs over, for a counter
    that satisfies the invariant: the [j]-th matched pair reads the clock
    at [tick + j], the [j]-th unmatched detection at
    [tick + length matched + j], and the loop starts at
    [tick + length detections]. *)
Lemma update_decompose now tick c detections :
  counter_inv c ->
  let matched := fst (match_detections_to_trackers (trackers c) detections) in
  let unmatched := snd (match_detections_to_trackers (trackers c) detections) in
  exists trs1 news,
    created_trackers now tick c detections
    = (trs1 ++ news, next_track_id c + Z.of_nat (length unmatched),
       (tick + length detections)%nat)
    /\ dict_keys trs1 = dict_keys (trackers c)
    /\ (forall tid, tid ∉ (snd <$> matched) -> dict_get tid trs1 = dict_get tid (trackers c))
    /\ (forall j d tid,
          matched !! j = Some (d, tid) ->
          exists det tr0,
            detections !! d = Some det
            /\ dict_get tid (trackers c) = Some tr0
            /\ dict_get tid trs1
               = Some (set_confidence
                         (tracker_update tr0 (det_bbox det) (now (tick + j)%nat))
                         (det_confidence det)))
    /\ length news = length unmatched
    /\ (forall j i,
          unmatched !! j = Some i ->
          exists det,
            detections !! i = Some det
            /\ news !! j = Some (created_entry now (next_track_id c)
                                  (tick + length matched) j det)).
Proof.
  intros Hinv matched unmatched.
  pose proof Hinv as (Hnd & Hall & _).
  destruct (match_results (trackers c) detections Hnd)
    as (Hndm & Hndu & Hun & Hkey & Hvals & _).
  destruct (match_lengths (trackers c) detections Hnd) as [Hsum _].
  fold matched unmatched in Hndm, Hndu, Hun, Hkey, Hvals, Hsum.
  assert (Hvalid : forall d tid, (d, tid) ∈ matched ->
            is_Some (detections !! d) /\ is_Some (dict_get tid (trackers c))).
  { intros d tid Hin. apply (dict_get_elem _ _ _ Hndm) in Hin.
    apply Hkey in Hin as [Hd Htid]. split.
    - by apply lookup_lt_is_Some_2.
    - by apply dict_get_is_Some. }
  destruct (apply_matched_effect now detections matched (trackers c) tick Hvals Hvalid)
    as (Htick & Hkeys & Hrest & Hupd).
  cbv zeta in Htick, Hkeys, Hrest, Hupd.
  assert (Hup : updated_trackers now tick c detections
                = (fst (foldl (apply_matched now detections) (trackers c, tick) matched),
                   (tick + length matched)%nat)).
  { unfold updated_trackers. fold matched. rewrite <- Htick. apply surjective_pairing. }
  set (trs1 := fst (foldl (apply_matched now detections) (trackers c, tick) matched)) in *.
  assert (Hlt : Forall (fun k => k < next_track_id c) (dict_keys trs1)).
  { rewrite Hkeys. unfold dict_keys. apply Forall_fmap.
    eapply Forall_impl; [exact Hall|]. intros e (_ & Hlt & _). exact Hlt. }
  assert (Hidx : Forall (fun i => (i < length detections)%nat) unmatched).
  { apply Forall_forall. intros i Hi. by apply Hun in Hi as [? _]. }
  destruct (create_tracker_entries now detections unmatched trs1 (next_track_id c)
              (tick + length matched) Hlt Hidx) as (news & Heq & Hlen & Hnews).
  exists trs1, news.
  split.
  { unfold created_trackers. rewrite Hup. fold unmatched. rewrite Heq.
    f_equal. lia. }
  split; [exact Hkeys|]. split; [exact Hrest|]. split.
  { intros j d tid Hj.
    destruct (Hvalid d tid) as [[det Hdet] [tr0 Htr0]];
      [apply list_elem_of_lookup; eauto|].
    exists det, tr0. split; [done|]. split; [done|]. by eapply Hupd. }
  split; [exact Hlen|].
  intros j i Hj.
  assert (Hi : (i < length detections)%nat).
  { rewrite Forall_forall in Hidx. apply Hidx, list_elem_of_lookup. eauto. }
  destruct (lookup_lt_is_Some_2 detections i Hi) as [det Hdet].
  exists det. split; [done|]. by eapply Hnews.
Qed.

Lemma loop_rel_fields tr2 tr' :
  loop_rel tr2 tr' ->
  track_id tr' = track_id tr2 /\ category tr' = category tr2
  /\ confidence tr' = confidence tr2 /\ positions tr' = positions tr2
  /\ bbox tr' = bbox tr2 /\ last_seen tr' = last_seen tr2.
Proof. intros [->|(_ & _ & ct & ->)]; done. Qed.

(** X5: what [update] does to the trackers it had, in a counter reached by
    any sequence of calls.  A tracker matched by the [j]-th pair of the
    matching gets, if it is still live after the update, the box and the
    confidence of its detection, the center of that box appended to its
    positions (a full history drops its oldest entry), and the time of
    the [j]-th clock reading of the update as its last-seen time; its id
    and its category stay.  A tracker that no detection matched keeps its
    box, confidence, positions, last-seen time, id and category. *)
Theorem update_applies_matches (now : nat -> Z) (lp : Q) (dm : Direction -> option Event)
    (ops : list Op) (detections : list Detection) (frame_shape : Z * Z)
    (tid : Z) (tr0 tr' : VehicleTracker) :
  let w := run now (start lp dm) ops in
  let c := w_counter w in
  let u := update now (w_tick w) c detections frame_shape in
  let matched := fst (match_detections_to_trackers (trackers c) detections) in
  dict_get tid (trackers c) = Some tr0 ->
  dict_get tid (trackers (ur_counter u)) = Some tr' ->
  track_id tr' = tid
  /\ category tr' = category tr0
  /\ (forall j d,
        matched !! j = Some (d, tid) ->
        exists det,
          detections !! d = Some det
          /\ bbox tr' = det_bbox det
          /\ confidence tr' = det_confidence det
          /\ positions tr' = deque_append (positions tr0) (get_center (det_bbox det))
          /\ last_seen tr' = now (w_tick w + j)%nat)
  /\ (tid ∉ (snd <$> matched) ->
      bbox tr' = bbox tr0 /\ confidence tr' = confidence tr0
      /\ positions tr' = positions tr0 /\ last_seen tr' = last_seen tr0).
Proof.
  intros w c u matched Hget0 Hget'.
  assert (Hinv : counter_inv c) by apply counter_inv_reachable.
  destruct (update_decompose now (w_tick w) c detections Hinv)
    as (trs1 & news & Hcreated & Hkeys & Hrest & Hupd & _).
  fold matched in Hrest, Hupd.
  destruct (update_lookup _ _ _ _ frame_shape _ _ _ Hinv Hcreated _ _ Hget')
    as (tr2 & Hget2 & Hrel & _).
  apply loop_rel_fields in Hrel as (Hid & Hcat & Hconf & Hpos & Hbox & Hseen).
  assert (Hid0 : track_id tr0 = tid).
  { destruct Hinv as (_ & Hall & _). rewrite Forall_forall in Hall.
    apply dict_get_Some_elem in Hget0. by destruct (Hall _ Hget0) as (? & _). }
  assert (Hin1 : forall tr1, dict_get tid trs1 = Some tr1 -> tr2 = tr1).
  { intros tr1 H1. apply (dict_get_app_l _ news) in H1. congruence. }
  destruct (decide (tid ∈ (snd <$> matched))) as [Hin|Hnin].
  - apply list_elem_of_fmap in Hin as ([d t] & Ht & Hin). simpl in Ht. subst t.
    apply list_elem_of_lookup in Hin as [j Hj].
    destruct (Hupd j d tid Hj) as (det & tr0' & Hdet & Hget0' & Hget1).
    assert (tr0' = tr0) as -> by congruence.
    apply Hin1 in Hget1. subst tr2. cbn in Hid, Hcat, Hconf, Hpos, Hbox, Hseen.
    split; [congruence|]. split; [congruence|]. split.
    + intros j' d' Hj'.
      assert (j' = j) as ->.
      { destruct (match_results (trackers c) detections (proj1 Hinv))
          as (_ & _ & _ & _ & Hvals & _).
        eapply NoDup_lookup; [exact Hvals | |]; rewrite list_lookup_fmap.
        - fold matched. by rewrite Hj'.
        - fold matched. by rewrite Hj. }
      assert (d' = d) as -> by congruence.
      exists det. done.
    + intros Hnin. exfalso. apply Hnin. apply list_elem_of_fmap. exists (d, tid).
      split; [done|]. apply list_elem_of_lookup. eauto.
  - assert (Hget1 : dict_get tid trs1 = Some tr0) by (rewrite Hrest; done).
    apply Hin1 in Hget1. subst tr2.
    split; [congruence|]. split; [congruence|]. split.
    + intros j d Hj. exfalso. apply Hnin. apply list_elem_of_fmap. exists (d, tid).
      split; [done|]. apply list_elem_of_lookup. eauto.
    + done.
Qed.

Lemma update_applies_matches_witness :
  let w := run steady_clock (start (1 # 2) default_direction_mapping) (five_frames (300, 400)) in
  let u := update steady_clock (w_tick w) (w_counter w) [wide_detection 260] (300, 400) in
  dict_get 1 (trackers (ur_counter u)) = Some (mark_counted crossing_tracker IN)
  /\ category (mark_counted crossing_tracker IN) = "Car".
Proof.
  intros w u.
  assert (Hget' : dict_get 1 (trackers (ur_counter u)) = Some (mark_counted crossing_tracker IN))
    by (vm_compute; reflexivity).
  split; [exact Hget'|].
  assert (Hget0 : exists tr0, dict_get 1 (trackers (w_counter w)) = Some tr0
                              /\ category tr0 = "Car").
  { vm_compute. eexists. split; reflexivity. }
  destruct Hget0 as (tr0 & Hget0 & Hcat).
  destruct (update_applies_matches steady_clock (1 # 2) default_direction_mapping
              (five_frames (300, 400)) [wide_detection 260] (300, 400) 1 tr0 _ Hget0 Hget')
    as (_ & Hcat' & _).
  by rewrite Hcat'.
Defined.

(** A tracker as [VehicleTracker.__init__] leaves it is not counted by the
    crossing test: it has one position. *)
Lemma count_decision_init dm line_x tid b cat conf t :
  count_decision dm line_x (VehicleTracker_init tid b cat conf t) = None.
Proof. reflexivity. Qed.

Lemma dict_keys_length {K V} (d : list (K * V)) : length (dict_keys d) = length d.
Proof. unfold dict_keys. apply length_fmap. Qed.

Lemma dict_keys_lookup {K V} (d d' : list (K * V)) i k v :
  dict_keys d' = dict_keys d -> d !! i = Some (k, v) ->
  exists v', d' !! i = Some (k, v').
Proof.
  intros Hkeys Hi.
  assert (Hk : dict_keys d' !! i = Some k).
  { rewrite Hkeys. unfold dict_keys. rewrite list_lookup_fmap, Hi. done. }
  unfold dict_keys in Hk. rewrite list_lookup_fmap in Hk.
  destruct (d' !! i) as [[k' v']|]; [|done]. simpl in Hk. injection Hk as ->. eauto.
Qed.

Lemma counter_inv_fresh_id c tid :
  counter_inv c -> next_track_id c <= tid -> dict_get tid (trackers c) = None.
Proof.
  intros (_ & Hall & _) Hle. apply dict_get_None. intros Hin.
  unfold dict_keys in Hin. apply list_elem_of_fmap in Hin as (e & -> & Hin).
  rewrite Forall_forall in Hall. destruct (Hall _ Hin) as (_ & Hlt & _). lia.
Qed.

(** X6: the trackers [update] creates, in a counter reached by any sequence
    of calls.  The [j]-th detection that the matching leaves unmatched
    gets the track id [next_track_id + j], which no live tracker has; the
    new tracker has the box, the display category and the confidence of
    the detection, one position, and is uncounted; [next_track_id] grows
    by the number of unmatched detections.  The tracker is in the dict
    after the call, exactly as created, unless more than two seconds lie
    between its creation and its turn in the crossing loop, in which case
    it is removed in the same call. *)
Theorem update_creates_trackers (now : nat -> Z) (lp : Q) (dm : Direction -> option Event)
    (ops : list Op) (detections : list Detection) (frame_shape : Z * Z) (j i : nat) :
  let w := run now (start lp dm) ops in
  let c := w_counter w in
  let u := update now (w_tick w) c detections frame_shape in
  let matched := fst (match_detections_to_trackers (trackers c) detections) in
  let unmatched := snd (match_detections_to_trackers (trackers c) detections) in
  unmatched !! j = Some i ->
  exists det,
    detections !! i = Some det
    /\ let tid := next_track_id c + Z.of_nat j in
       let created := now (w_tick w + length matched + j)%nat in
       let checked := now (w_tick w + length detections + length (trackers c) + j)%nat in
       let tr := VehicleTracker_init tid (det_bbox det) (det_display_category det)
                   (det_confidence det) created in
       dict_get tid (trackers c) = None
       /\ next_track_id (ur_counter u) = next_track_id c + Z.of_nat (length unmatched)
       /\ positions tr = [get_center (det_bbox det)]
       /\ dict_get tid (trackers (ur_counter u))
          = if decide (checked - created <= 2000000) then Some tr else None.
Proof.
  intros w c u matched unmatched Hj.
  assert (Hinv : counter_inv c) by apply counter_inv_reachable.
  destruct (update_decompose now (w_tick w) c detections Hinv)
    as (trs1 & news & Hcreated & Hkeys & _ & _ & Hlen & Hnews).
  fold matched unmatched in Hcreated, Hlen, Hnews.
  destruct (Hnews j i Hj) as (det & Hdet & Hnew).
  exists det. split; [exact Hdet|]. cbv zeta.
  split; [apply counter_inv_fresh_id; [exact Hinv | lia]|].
  split; [exact (update_next_track_id_eq _ _ _ _ frame_shape _ _ _ Hcreated)|].
  split; [reflexivity|].
  assert (Hlen1 : length trs1 = length (trackers c)).
  { rewrite <- !dict_keys_length. by rewrite Hkeys. }
  assert (Hat : (trs1 ++ news) !! (length (trackers c) + j)%nat
                = Some (created_entry now (next_track_id c) (w_tick w + length matched) j det)).
  { rewrite <- Hlen1, lookup_app_r by lia.
    replace (length trs1 + j - length trs1)%nat with j by lia. exact Hnew. }
  pose proof (update_at _ _ _ _ frame_shape _ _ _ Hinv Hcreated _ _ _ Hat) as Hres.
  assert (Hage : max_age c = 2%Q) by apply max_age_reachable.
  rewrite Hage in Hres.
  rewrite count_decision_init in Hres.
  replace (w_tick w + length detections + (length (trackers c) + j))%nat
    with (w_tick w + length detections + length (trackers c) + j)%nat in Hres by lia.
  fold u in Hres.
  set (tr := VehicleTracker_init _ _ _ _ _) in *.
  destruct (is_stale tr 2 _) eqn:Hstale.
  - apply is_stale_two in Hstale. cbn [last_seen tr VehicleTracker_init] in Hstale.
    destruct Hres as (_ & -> & _). rewrite decide_False; [done|].
    subst tr. cbn in Hstale. lia.
  - apply is_stale_two_false in Hstale. destruct Hres as (_ & -> & _).
    rewrite decide_True; [done|]. subst tr. cbn in Hstale. lia.
Qed.

Lemma update_creates_trackers_witness :
  let u := update steady_clock 0 (VehicleCounter_init (1 # 2) default_direction_mapping)
             [wide_detection 100] (300, 400) in
  next_track_id (ur_counter u) = 2
  /\ exists tr, dict_get 1 (trackers (ur_counter u)) = Some tr
                /\ positions tr = [(100, 5)].
Proof.
  intros u.
  destruct (update_creates_trackers steady_clock (1 # 2) default_direction_mapping []
              [wide_detection 100] (300, 400) 0 0 eq_refl)
    as (det & Hdet & _ & Hnext & Hpos & Hget).
  injection Hdet as <-.
  split; [exact Hnext|].
  eexists. split; [exact Hget|]. reflexivity.
Defined.

(** X7: which of the trackers it had [update] keeps, in a counter reached
    by any sequence of calls.  The tracker at position [i] of the dict has
    its turn in the crossing loop at clock reading
    [tick + length detections + i]; it is in the dict after the call if
    and only if at most two seconds lie between that reading and the time
    it was last seen, which is the reading of its update if a detection
    matched it in this call. *)
Theorem update_keeps_fresh_trackers (now : nat -> Z) (lp : Q)
    (dm : Direction -> option Event) (ops : list Op) (detections : list Detection)
    (frame_shape : Z * Z) (i : nat) (tid : Z) (tr0 : VehicleTracker) :
  let w := run now (start lp dm) ops in
  let c := w_counter w in
  let u := update now (w_tick w) c detections frame_shape in
  let matched := fst (match_detections_to_trackers (trackers c) detections) in
  let checked := now (w_tick w + length detections + i)%nat in
  trackers c !! i = Some (tid, tr0) ->
  (forall j d, matched !! j = Some (d, tid) ->
     (is_Some (dict_get tid (trackers (ur_counter u)))
      <-> checked - now (w_tick w + j)%nat <= 2000000))
  /\ (tid ∉ (snd <$> matched) ->
      (is_Some (dict_get tid (trackers (ur_counter u)))
       <-> checked - last_seen tr0 <= 2000000)).
Proof.
  intros w c u matched checked Hi.
  assert (Hinv : counter_inv c) by apply counter_inv_reachable.
  destruct (update_decompose now (w_tick w) c detections Hinv)
    as (trs1 & news & Hcreated & Hkeys & Hrest & Hupd & _).
  fold matched in Hrest, Hupd.
  destruct (dict_keys_lookup _ trs1 _ _ _ Hkeys Hi) as (tr1 & Hi1).
  assert (Hnd1 : NoDup (dict_keys trs1)) by (rewrite Hkeys; apply Hinv).
  pose proof (dict_get_lookup _ _ _ _ Hnd1 Hi1) as Hget1.
  pose proof (dict_get_lookup _ _ _ _ (proj1 Hinv) Hi) as Hget0.
  assert (Hat : (trs1 ++ news) !! i = Some (tid, tr1)).
  { rewrite lookup_app_l; [done|]. by eapply lookup_lt_Some. }
  pose proof (update_at _ _ _ _ frame_shape _ _ _ Hinv Hcreated _ _ _ Hat) as Hres.
  assert (Hage : max_age c = 2%Q) by apply max_age_reachable.
  rewrite Hage in Hres.
  fold u checked in Hres.
  assert (Hiff : is_Some (dict_get tid (trackers (ur_counter u)))
                 <-> checked - last_seen tr1 <= 2000000).
  { destruct (is_stale tr1 2 checked) eqn:Hstale.
    - apply is_stale_two in Hstale. destruct Hres as (_ & -> & _).
      split; [intros [? ?]; done | lia].
    - apply is_stale_two_false in Hstale. destruct Hres as (_ & Hres).
      split; [done|]. intros _.
      destruct (count_decision _ _ tr1) as [[dir ct]|]; destruct Hres as [-> _]; eauto. }
  split.
  - intros j d Hj. destruct (Hupd j d tid Hj) as (det & tr0' & _ & _ & Hget1').
    rewrite Hget1 in Hget1'. injection Hget1' as ->. exact Hiff.
  - intros Hnin. rewrite (Hrest tid Hnin), Hget0 in Hget1. injection Hget1 as ->.
    exact Hiff.
Qed.

Lemma update_keeps_fresh_trackers_witness :
  let w := run steady_clock (start (1 # 2) default_direction_mapping) (five_frames (300, 400)) in
  let u := update steady_clock (w_tick w) (w_counter w) [] (300, 400) in
  is_Some (dict_get 1 (trackers (ur_counter u))).
Proof.
  intros w u.
  assert (Hi : exists tr0, trackers (w_counter w) !! 0%nat = Some (1, tr0)
                           /\ last_seen tr0 = 800000).
  { vm_compute. eexists; split; reflexivity. }
  destruct Hi as (tr0 & Hi & Hseen).
  destruct (update_keeps_fresh_trackers steady_clock (1 # 2) default_direction_mapping
              (five_frames (300, 400)) [] (300, 400) 0 1 tr0 Hi) as [_ Hun].
  apply Hun.
  - vm_compute. intros Hin. inversion Hin.
  - rewrite Hseen. vm_compute. discriminate.
Defined.

(** A track id that was given out and is not live stays that way. *)
Lemma gone_step now w op tid :
  counter_inv (w_counter w) ->
  tid < next_track_id (w_counter w) ->
  dict_get tid (trackers (w_counter w)) = None ->
  tid < next_track_id (w_counter (step now w op))
  /\ dict_get tid (trackers (w_counter (step now w op))) = None.
Proof.
  intros Hinv Hlt Hnone.
  destruct op as [detections frame_shape| |capacity]; cbn [step w_counter]; [|done|done].
  split.
  - pose proof (update_next_le now (w_tick w) (w_counter w) detections frame_shape Hinv). lia.
  - destruct (dict_get tid (trackers (ur_counter
               (update now (w_tick w) (w_counter w) detections frame_shape))))
      as [tr'|] eqn:Hget'; [|reflexivity]. exfalso.
    destruct (created_trackers now (w_tick w) (w_counter w) detections)
      as [[trs2 next_id2] tick2] eqn:Hcreated.
    destruct (update_lookup _ _ _ _ frame_shape _ _ _ Hinv Hcreated _ _ Hget')
      as (tr2 & Hget2 & _).
    destruct (created_lookup _ _ _ _ _ _ _ Hinv Hcreated _ _ Hget2)
      as [(_ & tr0 & Hget0 & _)|(Hle & _)]; [congruence | lia].
Qed.

Lemma gone_run now w ops tid :
  counter_inv (w_counter w) ->
  tid < next_track_id (w_counter w) ->
  dict_get tid (trackers (w_counter w)) = None ->
  tid < next_track_id (w_counter (run now w ops))
  /\ dict_get tid (trackers (w_counter (run now w ops))) = None.
Proof.
  revert w. induction ops as [|op ops IH]; intros w Hinv Hlt Hnone; [done|].
  change (run now w (op :: ops)) with (run now (step now w op) ops).
  destruct (gone_step now w op tid Hinv Hlt Hnone) as [Hlt' Hnone'].
  apply IH; [by apply counter_inv_step | done | done].
Qed.

Lemma next_track_id_run now w ops :
  counter_inv (w_counter w) ->
  next_track_id (w_counter w) <= next_track_id (w_counter (run now w ops)).
Proof.
  revert w. induction ops as [|op ops IH]; intros w Hinv; [done|].
  change (run now w (op :: ops)) with (run now (step now w op) ops).
  etrans; [|apply IH; by apply counter_inv_step].
  destruct op as [detections frame_shape| |capacity]; cbn [step w_counter]; [|done|done].
  by apply update_next_le.
Qed.

Lemma ids_positive_step now w op :
  counter_inv (w_counter w) ->
  1 <= next_track_id (w_counter w) ->
  Forall (fun k => 1 <= k) (dict_keys (trackers (w_counter w))) ->
  1 <= next_track_id (w_counter (step now w op))
  /\ Forall (fun k => 1 <= k) (dict_keys (trackers (w_counter (step now w op)))).
Proof.
  intros Hinv Hnext Hall.
  destruct op as [detections frame_shape| |capacity]; cbn [step w_counter]; [|done|done].
  split.
  - pose proof (update_next_le now (w_tick w) (w_counter w) detections frame_shape Hinv). lia.
  - apply Forall_forall. intros tid Hin.
    apply dict_get_is_Some in Hin as [tr' Hget'].
    destruct (created_trackers now (w_tick w) (w_counter w) detections)
      as [[trs2 next_id2] tick2] eqn:Hcreated.
    destruct (update_lookup _ _ _ _ frame_shape _ _ _ Hinv Hcreated _ _ Hget')
      as (tr2 & Hget2 & _).
    destruct (created_lookup _ _ _ _ _ _ _ Hinv Hcreated _ _ Hget2)
      as [(_ & tr0 & Hget0 & _)|(Hle & _)]; [|lia].
    rewrite Forall_forall in Hall. apply Hall.
    apply dict_get_is_Some. eauto.
Qed.

Lemma ids_positive_run now lp dm ops :
  1 <= next_track_id (w_counter (run now (start lp dm) ops))
  /\ Forall (fun k => 1 <= k) (dict_keys (trackers (w_counter (run now (start lp dm) ops)))).
Proof.
  induction ops as [|op ops IH] using rev_ind.
  - split; [done|]. apply Forall_nil_2.
  - rewrite run_snoc. destruct IH as [Hn Hall].
    apply ids_positive_step; [apply counter_inv_reachable | done | done].
Qed.

(** X8: track ids over a sequence of calls.  The ids of the live trackers
    are distinct, at least 1 and below [next_track_id]; [next_track_id]
    never decreases; and the id of a tracker that was removed is never
    given to another tracker. *)
Theorem track_ids_never_reused (now : nat -> Z) (lp : Q) (dm : Direction -> option Event)
    (ops ops' : list Op) :
  let c := w_counter (run now (start lp dm) ops) in
  let c' := w_counter (run now (start lp dm) (ops ++ ops')) in
  NoDup (dict_keys (trackers c))
  /\ (forall tid, tid ∈ dict_keys (trackers c) -> 1 <= tid < next_track_id c)
  /\ next_track_id c <= next_track_id c'
  /\ (forall tid, tid < next_track_id c -> dict_get tid (trackers c) = None ->
                  dict_get tid (trackers c') = None).
Proof.
  intros c c'.
  assert (Hinv : counter_inv c) by apply counter_inv_reachable.
  destruct (ids_positive_run now lp dm ops) as [Hn Hpos]. fold c in Hn, Hpos.
  split; [apply Hinv|]. split.
  { intros tid Hin. split.
    - rewrite Forall_forall in Hpos. by apply Hpos.
    - destruct Hinv as (_ & Hall & _). unfold dict_keys in Hin.
      apply list_elem_of_fmap in Hin as (e & -> & Hin).
      rewrite Forall_forall in Hall. by destruct (Hall _ Hin) as (_ & Hlt & _). }
  assert (Hrun : c' = w_counter (run now (run now (start lp dm) ops) ops')).
  { unfold c', run. by rewrite foldl_app. }
  split.
  { rewrite Hrun. by apply next_track_id_run. }
  intros tid Hlt Hnone. rewrite Hrun.
  by apply gone_run.
Qed.

Lemma track_ids_never_reused_witness :
  let w := run steady_clock (start (1 # 2) default_direction_mapping)
             [OpUpdate [wide_detection 100] (300, 400)] in
  dict_keys (trackers (w_counter w)) = [1]
  /\ 1 <= 1 < next_track_id (w_counter w).
Proof.
  intros w.
  destruct (track_ids_never_reused steady_clock (1 # 2) default_direction_mapping
              [OpUpdate [wide_detection 100] (300, 400)] []) as (_ & Hrange & _).
  split; [reflexivity|]. apply Hrange. vm_compute. left.
Defined.

(** ** The shape of the trackers *)

(** With exactly five positions the first five and the last five are the
    same, so the displacement is zero and there is no direction. *)
Lemma get_trajectory_direction_five tr :
  length (positions tr) = 5%nat -> get_trajectory_direction tr = None.
Proof.
  intros Hlen. unfold get_trajectory_direction. rewrite Hlen. cbn [Nat.ltb Nat.leb].
  assert (Hd : (displacement (positions tr) == 0)%Q).
  { unfold displacement. cbv zeta. rewrite Hlen. cbn [Nat.sub]. rewrite drop_0.
    rewrite firstn_all2 by lia. lra. }
  destruct (Qgtb (py_abs (displacement (positions tr))) 30) eqn:Hgt; [|done].
  apply Qgtb_true in Hgt. exfalso. unfold py_abs in Hgt.
  destruct (Qlt_le_dec (displacement (positions tr)) 0); lra.
Qed.

Lemma get_trajectory_direction_six tr dir :
  get_trajectory_direction tr = Some dir -> (6 <= length (positions tr))%nat.
Proof.
  intros Hdir. pose proof (get_trajectory_direction_length _ _ Hdir) as Hlen.
  destruct (decide (length (positions tr) = 5%nat)) as [Hfive|Hne]; [|lia].
  rewrite get_trajectory_direction_five in Hdir; done.
Qed.

Lemma last_deque_append ps p : last (deque_append ps p) = Some p.
Proof. unfold deque_append. destruct (maxlen <=? length ps)%nat; apply last_snoc. Qed.

Lemma tracker_shape_init tid b cat conf t :
  tracker_shape (VehicleTracker_init tid b cat conf t).
Proof. repeat split; try done. Qed.

Lemma tracker_shape_update tr b t conf :
  tracker_shape tr -> tracker_shape (set_confidence (tracker_update tr b t) conf).
Proof.
  intros (Hlast & Hflags & Hcounted & Huncounted).
  split; [apply last_deque_append|]. split; [done|]. split; [|done].
  cbn. intros Hc. destruct (Hcounted Hc) as [Hdir Hlen]. split; [done|].
  pose proof (deque_append_length_ge (positions tr) (get_center b)). lia.
Qed.

Lemma tracker_shape_mark dm line_x tr dir count_type :
  tracker_shape tr ->
  count_decision dm line_x tr = Some (dir, count_type) ->
  tracker_shape (mark_counted tr count_type).
Proof.
  intros (Hlast & _) Hdec.
  apply count_decision_Some in Hdec as (_ & _ & Hdir & _).
  apply get_trajectory_direction_six in Hdir.
  split; [done|]. split; [done|]. split; [|done]. intros _. split; [by eexists | done].
Qed.

(** The tracker [update] leaves under a track id comes from the tracker
    the crossing loop found there: it is that tracker, if the crossing
    decision was negative, or that tracker marked as counted. *)
Lemma update_lookup_decision now tick c detections frame_shape trs2 next_id2 tick2 tid tr' :
  counter_inv c ->
  created_trackers now tick c detections = (trs2, next_id2, tick2) ->
  dict_get tid (trackers (ur_counter (update now tick c detections frame_shape))) = Some tr' ->
  exists tr2,
    dict_get tid trs2 = Some tr2
    /\ ((count_decision (direction_mapping c) (line_x_of c frame_shape) tr2 = None
         /\ tr' = tr2)
        \/ exists dir count_type,
             count_decision (direction_mapping c) (line_x_of c frame_shape) tr2
             = Some (dir, count_type)
             /\ tr' = mark_counted tr2 count_type).
Proof.
  intros Hinv Hcreated Hget'.
  destruct (update_lookup _ _ _ _ frame_shape _ _ _ Hinv Hcreated _ _ Hget')
    as (tr2 & Hget2 & _).
  exists tr2. split; [done|].
  pose proof (dict_get_Some_elem _ _ _ Hget2) as Hin.
  apply list_elem_of_lookup in Hin as [i Hi].
  pose proof (update_at _ _ _ _ frame_shape _ _ _ Hinv Hcreated _ _ _ Hi) as Hres.
  destruct (is_stale tr2 (max_age c) _).
  - destruct Hres as (_ & Hnone & _). congruence.
  - destruct Hres as (_ & Hres).
    destruct (count_decision _ _ tr2) as [[dir ct]|] eqn:Hdec.
    + destruct Hres as [Hget _]. right. exists dir, ct. split; [done | congruence].
    + destruct Hres as [Hget _]. left. split; [done | congruence].
Qed.

Lemma tracker_shape_step now w op :
  counter_inv (w_counter w) ->
  Forall (fun e => tracker_shape (snd e)) (trackers (w_counter w)) ->
  Forall (fun e => tracker_shape (snd e)) (trackers (w_counter (step now w op))).
Proof.
  intros Hinv Hall.
  destruct op as [detections frame_shape| |capacity]; cbn [step w_counter]; [|done|done].
  apply Forall_forall. intros [tid tr'] Hin. cbn [snd].
  pose proof (counter_inv_update now (w_tick w) _ detections frame_shape Hinv) as Hinv'.
  apply (dict_get_elem _ _ _ (proj1 Hinv')) in Hin.
  destruct (update_decompose now (w_tick w) (w_counter w) detections Hinv)
    as (trs1 & news & Hcreated & Hkeys & Hrest & Hupd & Hlen & Hnews).
  destruct (update_lookup_decision _ _ _ _ frame_shape _ _ _ _ _ Hinv Hcreated Hin)
    as (tr2 & Hget2 & Hrel).
  assert (Hshape0 : forall tr0, dict_get tid (trackers (w_counter w)) = Some tr0 ->
                                tracker_shape tr0).
  { intros tr0 Hget0. rewrite Forall_forall in Hall.
    exact (Hall _ (dict_get_Some_elem _ _ _ Hget0)). }
  assert (Hshape2 : tracker_shape tr2).
  { destruct (dict_get tid trs1) as [tr1|] eqn:Hget1.
    - rewrite (dict_get_app_l _ _ _ _ Hget1) in Hget2. injection Hget2 as <-.
      set (matched := fst (match_detections_to_trackers (trackers (w_counter w)) detections))
        in *.
      destruct (decide (tid ∈ (snd <$> matched))) as [Hm|Hnm].
      + apply list_elem_of_fmap in Hm as ([d t] & Ht & Hm). simpl in Ht. subst t.
        apply list_elem_of_lookup in Hm as [j Hj].
        destruct (Hupd j d tid Hj) as (det & tr0 & _ & Hget0 & Hget1').
        rewrite Hget1 in Hget1'. injection Hget1' as ->.
        apply tracker_shape_update. by apply Hshape0.
      + rewrite (Hrest tid Hnm) in Hget1. by apply Hshape0.
    - rewrite (dict_get_app_r _ _ _ Hget1) in Hget2.
      apply dict_get_Some_elem, list_elem_of_lookup in Hget2 as [j Hj].
      pose proof (lookup_lt_Some _ _ _ Hj) as Hlt. rewrite Hlen in Hlt.
      destruct (lookup_lt_is_Some_2 _ _ Hlt) as [i Hi].
      destruct (Hnews j i Hi) as (det & _ & Hnew).
      rewrite Hj in Hnew. injection Hnew as _ ->. apply tracker_shape_init. }
  destruct Hrel as [[_ ->]|(dir & ct & Hdec & ->)]; [done|].
  by eapply tracker_shape_mark.
Qed.

Lemma tracker_shape_run now lp dm ops :
  Forall (fun e => tracker_shape (snd e)) (trackers (w_counter (run now (start lp dm) ops))).
Proof.
  induction ops as [|op ops IH] using rev_ind; [apply Forall_nil_2|].
  rewrite run_snoc. apply tracker_shape_step; [apply counter_inv_reachable | done].
Qed.

(** X9: the shape of every live tracker of a counter reached by any
    sequence of calls.  It holds between 1 and 30 positions, the last of
    which is the center of its current box; [crossed_line] and [counted]
    are equal; a counted tracker has a count type and at least six
    positions (with five, the first five and the last five positions are
    the same and the displacement is zero); an uncounted tracker has no
    count type; and the tracker's own id is its key in the dict. *)
Theorem live_tracker_shape (now : nat -> Z) (lp : Q) (dm : Direction -> option Event)
    (ops : list Op) (tid : Z) (tr : VehicleTracker) :
  let c := w_counter (run now (start lp dm) ops) in
  dict_get tid (trackers c) = Some tr ->
  track_id tr = tid
  /\ (1 <= length (positions tr) <= 30)%nat
  /\ last (positions tr) = Some (get_center (bbox tr))
  /\ crossed_line tr = counted tr
  /\ (counted tr = true -> is_Some (direction tr) /\ (6 <= length (positions tr))%nat)
  /\ (counted tr = false -> direction tr = None).
Proof.
  intros c Hget. apply dict_get_Some_elem in Hget.
  pose proof (counter_inv_reachable now lp dm ops) as (_ & Hall & _).
  pose proof (tracker_shape_run now lp dm ops) as Hshape.
  rewrite Forall_forall in Hall, Hshape.
  destruct (Hall _ Hget) as (Hid & _ & Hlen & _).
  destruct (Hshape _ Hget) as (Hlast & Hflags & Hc & Hu).
  done.
Qed.

Lemma live_tracker_shape_witness :
  let w := run steady_clock (start (1 # 2) default_direction_mapping)
             (five_frames (300, 400) ++ [OpUpdate [wide_detection 260] (300, 400)]) in
  exists tr, dict_get 1 (trackers (w_counter w)) = Some tr
             /\ counted tr = true /\ (6 <= length (positions tr))%nat.
Proof.
  intros w. exists (mark_counted crossing_tracker IN).
  assert (Hget : dict_get 1 (trackers (w_counter w)) = Some (mark_counted crossing_tracker IN))
    by (vm_compute; reflexivity).
  split; [exact Hget|]. split; [reflexivity|].
  destruct (live_tracker_shape steady_clock (1 # 2) default_direction_mapping _ 1 _ Hget)
    as (_ & _ & _ & _ & Hc & _).
  by apply Hc.
Defined.

(** ** The tallies and the count events *)

Lemma dd_get_incr k k' (d : gmap string Z) :
  dd_get k' (dd_incr k d) = if decide (k' = k) then dd_get k d + 1 else dd_get k' d.
Proof.
  unfold dd_incr, dd_get at 1.
  destruct (decide (k' = k)) as [->|Hne].
  - by rewrite lookup_insert_eq.
  - by rewrite lookup_insert_ne.
Qed.

Lemma dd_get_touch k k' (d : gmap string Z) : dd_get k' (dd_touch k d) = dd_get k' d.
Proof.
  unfold dd_touch. destruct (d !! k) eqn:Hk; [done|].
  unfold dd_get. destruct (decide (k' = k)) as [->|Hne].
  - by rewrite lookup_insert_eq, Hk.
  - by rewrite lookup_insert_ne.
Qed.

Lemma count_events_of_nil e cat : count_events_of e cat [] = 0.
Proof. reflexivity. Qed.

Lemma count_events_of_cons e cat ev log :
  count_events_of e cat (ev :: log)
  = (if decide (ev_count_type ev = e /\ ev_category ev = cat) then 1 else 0)
    + count_events_of e cat log.
Proof.
  unfold count_events_of. rewrite filter_cons.
  destruct (decide (ev_count_type ev = e /\ ev_category ev = cat)); simpl; lia.
Qed.

Lemma count_events_of_app e cat log1 log2 :
  count_events_of e cat (log1 ++ log2)
  = count_events_of e cat log1 + count_events_of e cat log2.
Proof. unfold count_events_of. rewrite filter_app, length_app. lia. Qed.

(** The crossing loop adds one to a per-category tally for each of its
    count events of that count type and category. *)
Lemma count_loop_counts now dm max_age line_x items cnts totals tick e cat :
  dd_get cat (pe_get e (cl_counts (count_loop now dm max_age line_x items cnts totals tick)))
  = dd_get cat (pe_get e cnts)
    + count_events_of e cat (cl_log (count_loop now dm max_age line_x items cnts totals tick)).
Proof.
  revert cnts totals tick. induction items as [|[tid tr] items IH]; intros;
    cbn [count_loop].
  - cbn [cl_counts cl_log]. rewrite count_events_of_nil. lia.
  - destruct (is_stale tr max_age (now tick));
      [cbn [cl_counts cl_log]; by rewrite IH|].
    destruct (count_decision dm line_x tr) as [[dir ct]|];
      [|cbn [cl_counts cl_log]; by rewrite IH].
    cbn [cl_counts cl_log]. rewrite IH, count_events_of_cons, pe_get_set.
    cbn [ev_count_type ev_category].
    destruct (decide (e = ct)) as [->|Hne].
    + rewrite dd_get_incr.
      destruct (decide (cat = category tr)) as [->|Hcat].
      * rewrite decide_True by done. lia.
      * rewrite decide_False by (intros [_ ?]; congruence). lia.
    + rewrite decide_False by (intros [? _]; congruence). lia.
Qed.

Lemma update_counts now tick c detections frame_shape e cat :
  let u := update now tick c detections frame_shape in
  dd_get cat (pe_get e (counts (ur_counter u)))
  = dd_get cat (pe_get e (counts c)) + count_events_of e cat (ur_log u).
Proof.
  intros u. subst u.
  destruct (created_trackers now tick c detections) as [[trs2 next_id2] tick2] eqn:Hcreated.
  destruct (update_unfold now tick c detections frame_shape _ _ _ Hcreated) as [_ ->].
  cbn [ur_counter ur_log counts]. apply count_loop_counts.
Qed.

Lemma update_total_counts now tick c detections frame_shape e :
  let u := update now tick c detections frame_shape in
  pe_get e (total_counts (ur_counter u))
  = pe_get e (total_counts c) + count_events e (ur_log u).
Proof.
  intros u. subst u.
  destruct (created_trackers now tick c detections) as [[trs2 next_id2] tick2] eqn:Hcreated.
  exact (update_totals _ _ _ _ frame_shape _ _ _ Hcreated e).
Qed.

(** Over calls without [reset_counts], the tallies grow by the count
    events printed meanwhile. *)
Lemma tally_run now w ops :
  forallb (fun op => negb (is_reset op)) ops = true ->
  exists new_log,
    w_log (run now w ops) = w_log w ++ new_log
    /\ (forall e, pe_get e (total_counts (w_counter (run now w ops)))
                  = pe_get e (total_counts (w_counter w)) + count_events e new_log)
    /\ (forall e cat, dd_get cat (pe_get e (counts (w_counter (run now w ops))))
                      = dd_get cat (pe_get e (counts (w_counter w)))
                        + count_events_of e cat new_log).
Proof.
  revert w. induction ops as [|op ops IH]; intros w Hops.
  - exists []. split; [by rewrite app_nil_r|]. change (run now w []) with w.
    split; intros; rewrite ?count_events_nil, ?count_events_of_nil; lia.
  - cbn [forallb] in Hops. apply andb_true_iff in Hops as [Hop Hops].
    change (run now w (op :: ops)) with (run now (step now w op) ops).
    destruct (IH (step now w op) Hops) as (log2 & Hlog & Htot & Hcnt).
    destruct op as [detections frame_shape| |capacity]; [|done|].
    + exists (ur_log (update now (w_tick w) (w_counter w) detections frame_shape) ++ log2).
      split; [by rewrite Hlog, app_assoc|]. split.
      * intros e. rewrite Htot. cbn [step w_counter].
        rewrite update_total_counts, count_events_app. lia.
      * intros e cat. rewrite Hcnt. cbn [step w_counter].
        rewrite update_counts, count_events_of_app. lia.
    + exists log2. split; [by rewrite Hlog|]. split.
      * intros e. by rewrite Htot.
      * intros e cat. rewrite Hcnt. cbn [step w_counter after_parking_availability counts].
        f_equal. destruct e; cbn [pe_get]; apply dd_get_touch.
Qed.

(** X10: what [get_counts] reports.  After any sequence of calls that ends
    with [reset_counts] followed by calls among which there is no
    [reset_counts], [total_in] and [total_out] are the numbers of IN and
    OUT count events printed since that reset, [net_count] is their
    difference, and the entry of a category in [in_counts] and
    [out_counts] is the number of those events for the category, an
    absent entry standing for no event.  The same holds, with all the
    count events, when [reset_counts] was never called. *)
Theorem get_counts_tally (now : nat -> Z) (lp : Q) (dm : Direction -> option Event)
    (before ops : list Op) (reset : bool) :
  let w0 := if reset then step now (run now (start lp dm) before) OpReset
            else start lp dm in
  let w := run now w0 ops in
  let since := drop (length (w_log w0)) (w_log w) in
  let r := get_counts (w_counter w) in
  forallb (fun op => negb (is_reset op)) ops = true ->
  total_in r = count_events IN since
  /\ total_out r = count_events OUT since
  /\ net_count r = count_events IN since - count_events OUT since
  /\ (forall cat, default 0 (in_counts r !! cat) = count_events_of IN cat since)
  /\ (forall cat, default 0 (out_counts r !! cat) = count_events_of OUT cat since).
Proof.
  intros w0 w since r Hops.
  destruct (tally_run now w0 ops Hops) as (new_log & Hlog & Htot & Hcnt).
  assert (Hsince : since = new_log).
  { unfold since. fold w in Hlog. rewrite Hlog. by rewrite drop_app_length. }
  assert (Hzero : (forall e, pe_get e (total_counts (w_counter w0)) = 0)
                  /\ (forall e cat, dd_get cat (pe_get e (counts (w_counter w0))) = 0)).
  { unfold w0. destruct reset; split; intros []; done. }
  destruct Hzero as [Htot0 Hcnt0].
  rewrite Hsince. fold w in Htot, Hcnt. unfold r, get_counts.
  cbn [total_in total_out net_count in_counts out_counts].
  rewrite !Htot, !Htot0.
  split; [lia|]. split; [lia|]. split; [lia|].
  split; intros cat.
  - specialize (Hcnt IN cat). rewrite Hcnt0 in Hcnt. exact Hcnt.
  - specialize (Hcnt OUT cat). rewrite Hcnt0 in Hcnt. exact Hcnt.
Qed.

Lemma get_counts_tally_witness :
  let w := run steady_clock (start (1 # 2) default_direction_mapping)
             (five_frames (300, 400) ++ [OpUpdate [wide_detection 260] (300, 400)]) in
  total_in (get_counts (w_counter w)) = 1
  /\ in_counts (get_counts (w_counter w)) !! "Car" = Some 1.
Proof.
  intros w.
  destruct (get_counts_tally steady_clock (1 # 2) default_direction_mapping []
              (five_frames (300, 400) ++ [OpUpdate [wide_detection 260] (300, 400)])
              false eq_refl) as (Hin & _).
  split; [etrans; [exact Hin | vm_compute; reflexivity] | vm_compute; reflexivity].
Defined.

(** ** Counting and matching *)

Lemma count_decision_counted dm line_x tr :
  counted tr = true -> count_decision dm line_x tr = None.
Proof. intros Hc. unfold count_decision. by rewrite Hc. Qed.

(** After an update, no live tracker would be counted at the line of that
    update: the ones with a positive decision were counted by it. *)
Lemma update_quiet now tick c detections frame_shape :
  counter_inv c ->
  Forall (fun e => count_decision (direction_mapping c) (line_x_of c frame_shape) (snd e) = None)
         (trackers (ur_counter (update now tick c detections frame_shape))).
Proof.
  intros Hinv. apply Forall_forall. intros [tid tr'] Hin. cbn [snd].
  pose proof (counter_inv_update now tick _ detections frame_shape Hinv) as Hinv'.
  apply (dict_get_elem _ _ _ (proj1 Hinv')) in Hin.
  destruct (created_trackers now tick c detections) as [[trs2 next_id2] tick2] eqn:Hcreated.
  destruct (update_lookup_decision _ _ _ _ frame_shape _ _ _ _ _ Hinv Hcreated Hin)
    as (tr2 & _ & [[Hdec ->]|(dir & ct & _ & ->)]); [done|].
  by apply count_decision_counted.
Qed.

Lemma line_x_of_width c c' frame_shape frame_shape' :
  line_position c' = line_position c -> snd frame_shape' = snd frame_shape ->
  line_x_of c' frame_shape' = line_x_of c frame_shape.
Proof. unfold line_x_of. by intros -> ->. Qed.

Lemma quiet_run now lp dm ops width :
  frames_of_width width ops = true ->
  let c := w_counter (run now (start lp dm) ops) in
  Forall (fun e => count_decision dm (py_int (inject_Z width * lp)) (snd e) = None)
         (trackers c).
Proof.
  induction ops as [|op ops IH] using rev_ind; intros Hops; [apply Forall_nil_2|].
  unfold frames_of_width in Hops. rewrite forallb_app in Hops.
  apply andb_true_iff in Hops as [Hops Hop]. specialize (IH Hops). cbv zeta in IH.
  cbv zeta. rewrite run_snoc.
  destruct (config_run now (start lp dm) ops) as (_ & Hlp & Hdm & _).
  cbn [start w_counter VehicleCounter_init line_position direction_mapping] in Hlp, Hdm.
  destruct op as [detections frame_shape| |capacity]; cbn [step w_counter]; [|done|done].
  cbn [forallb] in Hop. rewrite andb_true_r in Hop. apply Z.eqb_eq in Hop.
  pose proof (update_quiet now (w_tick (run now (start lp dm) ops)) _ detections frame_shape
                (counter_inv_reachable now lp dm ops)) as Hq.
  rewrite Hdm in Hq. unfold line_x_of in Hq. rewrite Hlp, Hop in Hq. exact Hq.
Qed.

(** X11: a tracker is only counted in an update in which a detection was
    matched to it, as long as the frames keep their width.  After any
    sequence of calls whose frames all have the same width, every count
    event of a further update on a frame of that width is for a tracker
    that the matching of this update paired with a detection; an update
    without detections counts nothing and leaves the tallies as they
    were. *)
Theorem counted_only_when_matched (now : nat -> Z) (lp : Q) (dm : Direction -> option Event)
    (ops : list Op) (detections : list Detection) (frame_shape : Z * Z) :
  let w := run now (start lp dm) ops in
  let c := w_counter w in
  let u := update now (w_tick w) c detections frame_shape in
  let matched := fst (match_detections_to_trackers (trackers c) detections) in
  frames_of_width (snd frame_shape) ops = true ->
  (forall ev, ev ∈ ur_log u -> ev_track ev ∈ (snd <$> matched))
  /\ (detections = [] ->
      ur_log u = []
      /\ counts (ur_counter u) = counts c
      /\ total_counts (ur_counter u) = total_counts c).
Proof.
  intros w c u matched Hops.
  assert (Hinv : counter_inv c) by apply counter_inv_reachable.
  pose proof (quiet_run now lp dm ops (snd frame_shape) Hops) as Hquiet.
  cbv zeta in Hquiet. fold w c in Hquiet.
  destruct (config_run now (start lp dm) ops) as (_ & Hlp & Hdm & _).
  cbn [start w_counter VehicleCounter_init line_position direction_mapping] in Hlp, Hdm.
  fold w c in Hlp, Hdm.
  destruct (update_decompose now (w_tick w) c detections Hinv)
    as (trs1 & news & Hcreated & Hkeys & Hrest & Hupd & Hlen & Hnews).
  fold matched in Hrest, Hupd, Hlen, Hnews.
  assert (Hev : forall ev, ev ∈ ur_log u -> ev_track ev ∈ (snd <$> matched)).
  { intros ev Hin.
    destruct (update_log_elem _ _ _ _ frame_shape _ _ _ Hinv Hcreated _ Hin)
      as (tr2 & Hget2 & Hdec & _).
    destruct (decide (ev_track ev ∈ (snd <$> matched))) as [Hm|Hnm]; [done|]. exfalso.
    destruct (dict_get (ev_track ev) trs1) as [tr1|] eqn:Hget1.
    - rewrite (dict_get_app_l _ _ _ _ Hget1) in Hget2. injection Hget2 as <-.
      rewrite (Hrest _ Hnm) in Hget1.
      rewrite Forall_forall in Hquiet.
      pose proof (Hquiet _ (dict_get_Some_elem _ _ _ Hget1)) as Hnone. cbn [snd] in Hnone.
      unfold line_x_of in Hdec. rewrite Hdm, Hlp in Hdec. congruence.
    - rewrite (dict_get_app_r _ _ _ Hget1) in Hget2.
      apply dict_get_Some_elem, list_elem_of_lookup in Hget2 as [j Hj].
      pose proof (lookup_lt_Some _ _ _ Hj) as Hlt. rewrite Hlen in Hlt.
      destruct (lookup_lt_is_Some_2 _ _ Hlt) as [i Hi].
      destruct (Hnews j i Hi) as (det & _ & Hnew).
      rewrite Hj in Hnew. injection Hnew as _ ->.
      by rewrite count_decision_init in Hdec. }
  split; [exact Hev|].
  intros ->.
  assert (Hlog : ur_log u = []).
  { destruct (ur_log u) as [|ev log] eqn:Hlog; [done|]. exfalso.
    assert (Hin : ev ∈ ev :: log) by left.
    apply Hev in Hin. unfold matched in Hin.
    replace (fst (match_detections_to_trackers (trackers c) [])) with (@nil (nat * Z)) in Hin.
    - inversion Hin.
    - unfold match_detections_to_trackers. by destruct (trackers c). }
  split; [exact Hlog|].
  pose proof (update_log_eq _ _ _ _ frame_shape _ _ _ Hcreated) as Hlog'.
  fold u in Hlog'. rewrite Hlog in Hlog'.
  destruct (update_unfold now (w_tick w) c [] frame_shape _ _ _ Hcreated) as [_ Hu].
  fold u in Hu. rewrite Hu. cbn [ur_counter counts total_counts].
  symmetry in Hlog'. revert Hlog'.
  generalize (trs1 ++ news) (counts c) (total_counts c) (w_tick w + length (@nil Detection))%nat.
  clear. intros items. induction items as [|[tid tr] items IH]; intros cnts totals tick;
    cbn [count_loop]; [done|].
  destruct (is_stale tr (max_age c) (now tick)); [cbn [cl_log cl_counts cl_total_counts]; apply IH|].
  destruct (count_decision _ _ tr) as [[dir ct]|];
    cbn [cl_log cl_counts cl_total_counts]; [done | apply IH].
Qed.

Lemma counted_only_when_matched_witness :
  let w := run steady_clock (start (1 # 2) default_direction_mapping) (five_frames (300, 400)) in
  ur_log (update steady_clock (w_tick w) (w_counter w) [] (720, 400)) = [].
Proof.
  intros w.
  destruct (counted_only_when_matched steady_clock (1 # 2) default_direction_mapping
              (five_frames (300, 400)) [] (720, 400) eq_refl) as [_ Hidle].
  by destruct (Hidle eq_refl) as [Hlog _].
Defined.

(** ** The order of the trackers *)

Lemma dict_del_keys_sublist {K V} `{EqDecision K} (d : list (K * V)) k :
  dict_keys (dict_del k d) `sublist_of` dict_keys d.
Proof.
  induction d as [|[k' v] d IH]; [done|]. cbn [dict_del].
  destruct (decide (k = k')).
  - apply sublist_cons. reflexivity.
  - cbn. by apply sublist_skip.
Qed.

Lemma dict_del_all_keys_sublist {K V} `{EqDecision K} (d : list (K * V)) (ks : list K) :
  dict_keys (foldl (fun d k => dict_del k d) d ks) `sublist_of` dict_keys d.
Proof.
  revert d. induction ks as [|k ks IH]; intros d; [done|]. cbn [foldl].
  etrans; [apply IH | apply dict_del_keys_sublist].
Qed.

Lemma dict_keys_app {K V} (d d' : list (K * V)) :
  dict_keys (d ++ d') = dict_keys d ++ dict_keys d'.
Proof. apply map_app. Qed.

(** X12: the order of the trackers after [update], in a counter reached by
    any sequence of calls.  The dict lists the trackers that were live
    before in their former order, followed by the new trackers in the
    order of their ids, without the ones removed as stale; the matching
    of the next frame goes through the trackers in this order. *)
Theorem update_keeps_order (now : nat -> Z) (lp : Q) (dm : Direction -> option Event)
    (ops : list Op) (detections : list Detection) (frame_shape : Z * Z) :
  let w := run now (start lp dm) ops in
  let c := w_counter w in
  let u := update now (w_tick w) c detections frame_shape in
  let unmatched := snd (match_detections_to_trackers (trackers c) detections) in
  dict_keys (trackers (ur_counter u))
  `sublist_of` (dict_keys (trackers c)
                ++ ((fun j => next_track_id c + Z.of_nat j) <$> seq 0 (length unmatched))).
Proof.
  intros w c u unmatched.
  assert (Hinv : counter_inv c) by apply counter_inv_reachable.
  destruct (update_decompose now (w_tick w) c detections Hinv)
    as (trs1 & news & Hcreated & Hkeys & _ & _ & Hlen & Hnews).
  fold unmatched in Hlen, Hnews.
  unfold u. rewrite (update_trackers_eq _ _ _ _ frame_shape _ _ _ Hcreated).
  etrans; [apply dict_del_all_keys_sublist|].
  rewrite (dict_rel_keys _ _ _ (count_loop_rel _ _ _ _ _ _ _ _)).
  rewrite dict_keys_app, Hkeys.
  apply sublist_app; [reflexivity|].
  change (dict_keys news) with (fst <$> news).
  assert (Hnew : fst <$> news
                 = (fun j => next_track_id c + Z.of_nat j) <$> seq 0 (length unmatched));
    [|by rewrite Hnew].
  apply list_eq. intros j. rewrite !list_lookup_fmap.
  destruct (decide (j < length unmatched)%nat) as [Hlt|Hge].
  - destruct (lookup_lt_is_Some_2 _ _ Hlt) as [i Hi].
    destruct (Hnews j i Hi) as (det & _ & ->).
    rewrite lookup_seq_lt by done. reflexivity.
  - rewrite (lookup_ge_None_2 news) by lia.
    rewrite (lookup_ge_None_2 (seq 0 _)) by (rewrite length_seq; lia). reflexivity.
Qed.

(** ** Parking availability *)

(** X13: the bounds of the parking information.  [available] is never
    negative; it is the capacity minus the cars parked when that many fit;
    it is zero when more cars are parked than fit; and when more cars were
    counted out than in, the cars parked are negative and [available]
    exceeds the capacity.  For a positive capacity the occupancy lies
    between 0 and 100 exactly when the cars parked lie between 0 and the
    capacity; for a capacity of zero or less it is 0. *)
Theorem parking_availability_bounds (c : VehicleCounter) (capacity : Z) :
  exists r,
    get_parking_availability c capacity = Returned r
    /\ av_total_capacity r = capacity
    /\ 0 <= av_available r
    /\ (av_currently_parked r <= capacity ->
        av_available r + av_currently_parked r = capacity)
    /\ (capacity < av_currently_parked r -> av_available r = 0)
    /\ (av_currently_parked r < 0 -> capacity < av_available r)
    /\ (0 < capacity ->
        ((0 <= av_occupancy_percent r <= 100)%Q <-> 0 <= av_currently_parked r <= capacity))
    /\ (capacity <= 0 -> av_occupancy_percent r = 0%Q).
Proof.
  unfold get_parking_availability. cbv zeta.
  set (net := dd_get "Car" (pe_get IN (counts c)) - dd_get "Car" (pe_get OUT (counts c))).
  destruct (0 <? capacity) eqn:Hcap.
  - apply Z.ltb_lt in Hcap. unfold py_truediv.
    destruct (capacity =? 0) eqn:Hz; [apply Z.eqb_eq in Hz; lia|].
    cbn [outcome_map]. eexists. split; [reflexivity|].
    cbn [av_total_capacity av_available av_currently_parked av_occupancy_percent].
    split; [done|]. split; [lia|]. split; [lia|]. split; [lia|]. split; [lia|].
    split; [|lia]. intros _.
    assert (Hc : (0 < inject_Z capacity)%Q) by (rewrite <- (Zlt_Qlt 0); done).
    set (q := (inject_Z net / inject_Z capacity)%Q).
    assert (Hq : (q * inject_Z capacity == inject_Z net)%Q).
    { unfold q. field. lra. }
    rewrite (Zle_Qle 0 net), (Zle_Qle net capacity).
    change (inject_Z 0) with 0%Q. rewrite <- Hq.
    split; intros [H1 H2]; split; nra.
  - apply Z.ltb_ge in Hcap. cbn [outcome_map]. eexists. split; [reflexivity|].
    cbn [av_total_capacity av_available av_currently_parked av_occupancy_percent].
    split; [done|]. split; [lia|]. split; [lia|]. split; [lia|]. split; [lia|].
    split; [lia | done].
Qed.

Lemma parking_availability_bounds_witness :
  exists r,
    get_parking_availability (VehicleCounter_init (1 # 2) default_direction_mapping) 100
    = Returned r
    /\ av_available r = 100.
Proof.
  destruct (parking_availability_bounds
              (VehicleCounter_init (1 # 2) default_direction_mapping) 100)
    as (r & Hr & _ & _ & Hfit & _).
  exists r. split; [exact Hr|].
  injection Hr as <-. cbn in Hfit |- *. reflexivity.
Defined.

(** X14: the parking information follows the count events of cars only.
    After [reset_counts] (or from construction on) and calls without
    [reset_counts], [cars_in] and [cars_out] are the numbers of IN and
    OUT count events for the category ['Car'] since then; the count
    events of the other categories do not enter. *)
Theorem parking_counts_car_events (now : nat -> Z) (lp : Q) (dm : Direction -> option Event)
    (before ops : list Op) (reset : bool) (capacity : Z) :
  let w0 := if reset then step now (run now (start lp dm) before) OpReset
            else start lp dm in
  let w := run now w0 ops in
  let since := drop (length (w_log w0)) (w_log w) in
  let cars_in := count_events_of IN "Car" since in
  let cars_out := count_events_of OUT "Car" since in
  forallb (fun op => negb (is_reset op)) ops = true ->
  exists r,
    get_parking_availability (w_counter w) capacity = Returned r
    /\ av_cars_in r = cars_in
    /\ av_cars_out r = cars_out
    /\ av_currently_parked r = cars_in - cars_out
    /\ av_available r = Z.max 0 (capacity - (cars_in - cars_out)).
Proof.
  intros w0 w since cars_in cars_out Hops.
  destruct (tally_run now w0 ops Hops) as (new_log & Hlog & _ & Hcnt).
  assert (Hsince : since = new_log).
  { unfold since. fold w in Hlog. rewrite Hlog. by rewrite drop_app_length. }
  assert (Hcnt0 : forall e cat, dd_get cat (pe_get e (counts (w_counter w0))) = 0).
  { unfold w0. destruct reset; intros []; done. }
  fold w in Hcnt.
  assert (Hin : dd_get "Car" (pe_get IN (counts (w_counter w))) = cars_in).
  { rewrite Hcnt, Hcnt0. unfold cars_in. rewrite Hsince. lia. }
  assert (Hout : dd_get "Car" (pe_get OUT (counts (w_counter w))) = cars_out).
  { rewrite Hcnt, Hcnt0. unfold cars_out. rewrite Hsince. lia. }
  unfold get_parking_availability. cbv zeta. rewrite Hin, Hout.
  destruct (0 <? capacity) eqn:Hcap.
  - unfold py_truediv. apply Z.ltb_lt in Hcap.
    destruct (capacity =? 0) eqn:Hz; [apply Z.eqb_eq in Hz; lia|].
    cbn [outcome_map]. eexists. split; [reflexivity|]. done.
  - cbn [outcome_map]. eexists. split; [reflexivity|]. done.
Qed.

Lemma parking_counts_car_events_witness :
  let w := run steady_clock (start (1 # 2) default_direction_mapping)
             (five_frames (300, 400) ++ [OpUpdate [wide_detection 260] (300, 400)]) in
  exists r, get_parking_availability (w_counter w) 100 = Returned r /\ av_cars_in r = 1.
Proof.
  intros w.
  destruct (parking_counts_car_events steady_clock (1 # 2) default_direction_mapping []
              (five_frames (300, 400) ++ [OpUpdate [wide_detection 260] (300, 400)])
              false 100 eq_refl) as (r & Hr & Hin & _).
  exists r. split; [exact Hr|]. etrans; [exact Hin|]. vm_compute. reflexivity.
Defined.

Lemma after_parking_availability_idem c :
  after_parking_availability (after_parking_availability c) = after_parking_availability c.
Proof.
  unfold after_parking_availability.
  cbn [counts trackers next_track_id line_position direction_mapping total_counts
       max_distance max_age at_IN at_OUT].
  assert (Htouch : forall d : gmap string Z, dd_touch "Car" (dd_touch "Car" d) = dd_touch "Car" d).
  { intros d. unfold dd_touch at 1.
    destruct (dd_touch "Car" d !! "Car") eqn:Hk; [done|].
    unfold dd_touch in Hk. destruct (d !! "Car") eqn:Hd; [congruence|].
    by rewrite lookup_insert_eq in Hk. }
  by rewrite !Htouch.
Qed.

Lemma dd_touch_lookup k (d : gmap string Z) : dd_touch k d !! k = Some (dd_get k d).
Proof.
  unfold dd_touch, dd_get. destruct (d !! k) eqn:Hk; [by rewrite Hk|].
  by rewrite lookup_insert_eq.
Qed.

Lemma get_parking_availability_after c capacity :
  get_parking_availability (after_parking_availability c) capacity
  = get_parking_availability c capacity.
Proof.
  unfold get_parking_availability. cbv zeta.
  assert (Hin : dd_get "Car" (pe_get IN (counts (after_parking_availability c)))
                = dd_get "Car" (pe_get IN (counts c))) by apply dd_get_touch.
  assert (Hout : dd_get "Car" (pe_get OUT (counts (after_parking_availability c)))
                 = dd_get "Car" (pe_get OUT (counts c))) by apply dd_get_touch.
  by rewrite Hin, Hout.
Qed.

(** X15: the counts endpoint and the entry for cars.  The counts of a
    response are copied before the parking information reads the two
    tables, and that read inserts the key ['Car'] with 0 where it is
    absent.  So the next response lists ['Car'] in [in_counts] and
    [out_counts] even when no car was counted, with the numbers of every
    category, the totals and the parking information unchanged; the
    capacity is the one of the parking row, or 100 without a row. *)
Theorem api_vehicle_counts_snapshot (c : VehicleCounter) (parking : option ParkingSlot) :
  let r1 := api_vehicle_counts c parking in
  let r2 := api_vehicle_counts (snd r1) parking in
  let counts1 := fst (fst r1) in
  let counts2 := fst (fst r2) in
  in_counts counts1 = pe_get IN (counts c)
  /\ in_counts counts2 !! "Car" = Some (default 0 (in_counts counts1 !! "Car"))
  /\ out_counts counts2 !! "Car" = Some (default 0 (out_counts counts1 !! "Car"))
  /\ (forall cat, default 0 (in_counts counts2 !! cat) = default 0 (in_counts counts1 !! cat))
  /\ (forall cat, default 0 (out_counts counts2 !! cat) = default 0 (out_counts counts1 !! cat))
  /\ total_in counts2 = total_in counts1
  /\ total_out counts2 = total_out counts1
  /\ snd (fst r2) = snd (fst r1)
  /\ snd r2 = snd r1
  /\ snd (fst r1)
     = get_parking_availability c (match parking with
                                   | Some p => total_capacity p
                                   | None => 100
                                   end).
Proof.
  intros r1 r2 counts1 counts2.
  unfold counts1, counts2, r2, r1, api_vehicle_counts. cbn [fst snd].
  unfold get_counts. cbn [in_counts out_counts total_in total_out].
  split; [done|].
  split; [apply dd_touch_lookup|]. split; [apply dd_touch_lookup|].
  split; [intros cat; apply dd_get_touch|]. split; [intros cat; apply dd_get_touch|].
  split; [done|]. split; [done|].
  split; [apply get_parking_availability_after|].
  split; [apply after_parking_availability_idem | done].
Qed.

(** ** The detection service *)

(** The display category of a class name of the model is one of the four
    display categories, and it is ['Car'] exactly for the classes that
    are parking applicable. *)
Lemma class_tables_facts (original_class : string) :
  (original_class ∈ class_names -> classify_vehicle original_class ∈ display_categories)
  /\ (is_parking_applicable original_class = true
      <-> classify_vehicle original_class = "Car").
Proof.
  unfold classify_vehicle, is_parking_applicable, class_names, display_categories,
    PARKING_CLASSES, CLASS_MAPPING.
  rewrite bool_decide_eq_true, list_elem_of_singleton.
  cbn [dict_get].
  rewrite !elem_of_cons, !elem_of_nil.
  repeat (destruct (decide (original_class = _)) as [->|?]);
    cbn; intuition congruence.
Qed.

(** X16: the two class tables agree.  [classify_vehicle] gives one of the
    four display categories for the six class names of the model and
    ['Unknown'] for every other string; a class is parking applicable
    exactly when it is ['car'], which is exactly when its display
    category is ['Car'].  Both lookups compare the string exactly. *)
Theorem classify_parking_agree (original_class : string) :
  (original_class ∈ class_names -> classify_vehicle original_class ∈ display_categories)
  /\ (classify_vehicle original_class = "Unknown" <-> original_class ∉ class_names)
  /\ (is_parking_applicable original_class = true <-> original_class = "car")
  /\ (is_parking_applicable original_class = true
      <-> classify_vehicle original_class = "Car").
Proof.
  unfold classify_vehicle, is_parking_applicable, class_names, display_categories,
    PARKING_CLASSES, CLASS_MAPPING.
  rewrite bool_decide_eq_true, list_elem_of_singleton.
  cbn [dict_get].
  rewrite !elem_of_cons, !elem_of_nil.
  repeat (destruct (decide (original_class = _)) as [->|?]);
    cbn; intuition congruence.
Qed.

Lemma classify_parking_agree_witness :
  classify_vehicle "microbus" ∈ display_categories /\ is_parking_applicable "car" = true.
Proof.
  destruct (classify_parking_agree "microbus") as (Hcat & _).
  destruct (classify_parking_agree "car") as (_ & _ & Hpark & _).
  split; [apply Hcat; unfold class_names; rewrite !elem_of_cons; tauto | by apply Hpark].
Defined.

(** Indexing [class_names]: the ids from -6 to 5 give a class name, every
    other id raises. *)
Lemma py_index_class_names i :
  (-6 <= i < 6 -> exists cls, py_index class_names i = Returned cls /\ cls ∈ class_names)
  /\ (~ (-6 <= i < 6) -> py_index class_names i = Raised "IndexError").
Proof.
  split.
  - intros Hi.
    assert (Hcases : i = -6 \/ i = -5 \/ i = -4 \/ i = -3 \/ i = -2 \/ i = -1
                     \/ i = 0 \/ i = 1 \/ i = 2 \/ i = 3 \/ i = 4 \/ i = 5) by lia.
    repeat (destruct Hcases as [->|Hcases]); [..|subst i];
      (eexists; split; [reflexivity|]; unfold class_names; rewrite !elem_of_cons; tauto).
  - intros Hi. unfold py_index. cbv zeta.
    change (Z.of_nat (length class_names)) with 6.
    destruct (i <? 0) eqn:Hneg.
    + apply Z.ltb_lt in Hneg.
      destruct (0 <=? i + 6) eqn:Hlo; [|done]. apply Z.leb_le in Hlo. lia.
    + apply Z.ltb_ge in Hneg.
      destruct (0 <=? i) eqn:Hlo; [|done].
      destruct (i <? 6) eqn:Hhi; [|done]. apply Z.ltb_lt in Hhi. lia.
Qed.

(** A detection as the loop body builds it from a box and a class name. *)
Lemma make_detection_Returned box detection :
  make_detection box = Returned detection ->
  class_id_in_range box
  /\ vd_class_id detection = py_int (box_cls box)
  /\ py_index class_names (vd_class_id detection) = Returned (vd_original_class detection)
  /\ vd_original_class detection ∈ class_names
  /\ vd_display_category detection = classify_vehicle (vd_original_class detection)
  /\ vd_parking_applicable detection = is_parking_applicable (vd_original_class detection)
  /\ vd_confidence detection = box_conf box
  /\ vd_bbox detection = box_xyxy box.
Proof.
  unfold make_detection, class_id_in_range. cbv zeta.
  destruct (py_index_class_names (py_int (box_cls box))) as [Hin Hout].
  destruct (decide (-6 <= py_int (box_cls box) < 6)) as [Hr|Hr].
  - destruct (Hin Hr) as (cls & Hcls & Hmem). rewrite Hcls. intros [= <-].
    cbn [vd_class_id vd_original_class vd_display_category vd_parking_applicable
         vd_confidence vd_bbox]. done.
  - rewrite (Hout Hr). done.
Qed.

Lemma make_detection_in_range box :
  class_id_in_range box -> exists detection, make_detection box = Returned detection.
Proof.
  intros Hr. unfold make_detection. cbv zeta.
  destruct (py_index_class_names (py_int (box_cls box))) as [Hin _].
  destruct (Hin Hr) as (cls & -> & _). eauto.
Qed.

Lemma make_detection_out_of_range box :
  ~ class_id_in_range box -> make_detection box = Raised "IndexError".
Proof.
  intros Hr. unfold make_detection. cbv zeta.
  destruct (py_index_class_names (py_int (box_cls box))) as [_ Hout].
  by rewrite (Hout Hr).
Qed.

Lemma collect_detections_in_range boxes acc :
  Forall class_id_in_range boxes ->
  exists detections,
    collect_detections boxes acc = Returned (acc ++ detections)
    /\ Forall2 (fun box detection => make_detection box = Returned detection) boxes detections.
Proof.
  revert acc. induction boxes as [|box boxes IH]; intros acc Hall.
  - exists []. split; [by rewrite app_nil_r | constructor].
  - apply Forall_cons in Hall as [Hbox Hall].
    destruct (make_detection_in_range box Hbox) as (detection & Hdet).
    destruct (IH (acc ++ [detection]) Hall) as (detections & Hcol & Hall2).
    exists (detection :: detections). cbn [collect_detections]. rewrite Hdet, Hcol.
    split; [by rewrite <- app_assoc | by constructor].
Qed.

Lemma collect_detections_out_of_range boxes acc :
  ~ Forall class_id_in_range boxes ->
  collect_detections boxes acc = Raised "IndexError".
Proof.
  revert acc. induction boxes as [|box boxes IH]; intros acc Hall.
  - exfalso. apply Hall. constructor.
  - cbn [collect_detections].
    destruct (decide (-6 <= py_int (box_cls box) < 6)) as [Hr|Hr].
    + destruct (make_detection_in_range box Hr) as (detection & ->).
      apply IH. intros Hrest. apply Hall. by constructor.
    + by rewrite (make_detection_out_of_range box Hr).
Qed.

(** The detections of [detect_vehicles] are built by the loop body. *)
Lemma detect_vehicles_elem inference detection :
  detection ∈ detect_vehicles inference ->
  exists box, make_detection box = Returned detection.
Proof.
  destruct inference as [[results|exc]|]; cbn [detect_vehicles];
    [|intros Hin; inversion Hin..].
  destruct (decide (Forall class_id_in_range (concat results))) as [Hall|Hall].
  - destruct (collect_detections_in_range _ [] Hall) as (detections & -> & Hall2).
    cbn [app]. intros Hin. apply list_elem_of_lookup in Hin as [i Hi].
    destruct (Forall2_lookup_r _ _ _ _ _ Hall2 Hi) as (box & _ & Hbox). eauto.
  - rewrite (collect_detections_out_of_range _ [] Hall). intros Hin. inversion Hin.
Qed.

(** X17: [detect_vehicles] returns all the boxes or none.  When every box
    of the model's results has a class id from -6 to 5, the list has one
    detection per box, in the order of the results, with the box, the
    confidence and the truncated class id of its box, and the class name
    that the id indexes (a negative id counts from the end of the list of
    names).  One box with another class id, a failing inference call or
    a model that cannot be loaded gives the empty list: the detections of
    the boxes before it are dropped as well. *)
Theorem detect_vehicles_all_or_nothing (results : list (list Box)) :
  let detections := detect_vehicles (Some (Returned results)) in
  (Forall class_id_in_range (concat results) ->
   length detections = length (concat results)
   /\ forall i box, concat results !! i = Some box ->
        exists detection,
          detections !! i = Some detection
          /\ vd_bbox detection = box_xyxy box
          /\ vd_confidence detection = box_conf box
          /\ vd_class_id detection = py_int (box_cls box)
          /\ py_index class_names (vd_class_id detection)
             = Returned (vd_original_class detection))
  /\ (~ Forall class_id_in_range (concat results) -> detections = [])
  /\ (forall exc, detect_vehicles (Some (Raised exc)) = [])
  /\ detect_vehicles None = [].
Proof.
  cbv zeta. cbn [detect_vehicles]. split; [|split; [|done]].
  - intros Hall.
    destruct (collect_detections_in_range _ [] Hall) as (detections & -> & Hall2).
    cbn [app]. split; [symmetry; by eapply Forall2_length|].
    intros i box Hi.
    destruct (Forall2_lookup_l _ _ _ _ _ Hall2 Hi) as (detection & Hdet & Hmake).
    exists detection. split; [done|].
    apply make_detection_Returned in Hmake as (_ & Hid & Hname & _ & _ & _ & Hconf & Hbox).
    done.
  - intros Hall. by rewrite (collect_detections_out_of_range _ [] Hall).
Qed.

Lemma detect_vehicles_all_or_nothing_witness :
  detect_vehicles (Some (Returned [[mkBox (-1) (9 # 10) (mkBBox 0 0 10 10)]]))
  = [mkVehicleDetection (-1) "truck" "Truck" (9 # 10) (mkBBox 0 0 10 10) false]
  /\ detect_vehicles (Some (Returned [[mkBox 1 (9 # 10) (mkBBox 0 0 10 10)];
                                      [mkBox 6 (9 # 10) (mkBBox 0 0 10 10)]])) = [].
Proof.
  split; [reflexivity|].
  destruct (detect_vehicles_all_or_nothing
              [[mkBox 1 (9 # 10) (mkBBox 0 0 10 10)]; [mkBox 6 (9 # 10) (mkBBox 0 0 10 10)]])
    as (_ & Hnone & _).
  apply Hnone. intros Hall. cbn [concat app] in Hall.
  apply Forall_cons in Hall as [_ Hall]. apply Forall_cons in Hall as [Hbad _].
  unfold class_id_in_range in Hbad. vm_compute in Hbad. destruct Hbad as [_ Hbad]. done.
Defined.

(** What the loop body puts in a detection. *)
Lemma made_detection_facts (box : Box) (detection : VehicleDetection) :
  make_detection box = Returned detection ->
  vd_original_class detection ∈ class_names
  /\ vd_display_category detection = classify_vehicle (vd_original_class detection)
  /\ vd_display_category detection ∈ display_categories
  /\ vd_parking_applicable detection = is_parking_applicable (vd_original_class detection)
  /\ (vd_parking_applicable detection = true <-> vd_display_category detection = "Car").
Proof.
  intros Hmake.
  apply make_detection_Returned in Hmake as (_ & _ & _ & Hname & Hcat & Hpark & _).
  destruct (class_tables_facts (vd_original_class detection)) as (Hfour & Hagree).
  split; [done|]. split; [done|]. split; [rewrite Hcat; by apply Hfour|].
  split; [done|]. by rewrite Hpark, Hcat.
Qed.

(** X18: what [detect_vehicles] puts in a detection.  For every detection
    of the returned list the class name is one of the six names of the
    model, the display category is the one [classify_vehicle] gives for
    it and is one of the four display categories, never ['Unknown'], and
    the detection is parking applicable, as [is_parking_applicable] says
    for its class name, exactly when its display category is ['Car']. *)
Theorem detections_well_formed (inference : option (outcome (list (list Box))))
    (detection : VehicleDetection) :
  detection ∈ detect_vehicles inference ->
  vd_original_class detection ∈ class_names
  /\ vd_display_category detection = classify_vehicle (vd_original_class detection)
  /\ vd_display_category detection ∈ display_categories
  /\ vd_parking_applicable detection = is_parking_applicable (vd_original_class detection)
  /\ (vd_parking_applicable detection = true <-> vd_display_category detection = "Car").
Proof.
  intros Hin.
  destruct inference as [[results|exc]|]; cbn [detect_vehicles] in Hin;
    [|inversion Hin..].
  destruct (decide (Forall class_id_in_range (concat results))) as [Hall|Hall].
  - destruct (collect_detections_in_range _ [] Hall) as (detections & Hcol & Hall2).
    rewrite Hcol in Hin. cbn [app] in Hin.
    apply list_elem_of_lookup in Hin as [i Hi].
    destruct (Forall2_lookup_r _ _ _ _ _ Hall2 Hi) as (box & _ & Hbox).
    by eapply made_detection_facts.
  - rewrite (collect_detections_out_of_range _ [] Hall) in Hin. inversion Hin.
Qed.

Lemma detections_well_formed_witness :
  vd_display_category
    (mkVehicleDetection 2 "microbus" "Bus" (9 # 10) (mkBBox 0 0 10 10) false)
  ∈ display_categories.
Proof.
  refine (proj1 (proj2 (proj2
    (detections_well_formed (Some (Returned [[mkBox 2 (9 # 10) (mkBBox 0 0 10 10)]])) _ _)))).
  vm_compute. left.
Defined.

(** The two assignments to [summary['by_category']] in the loop body add
    one to the count of the category, like [+= 1] on a [defaultdict]. *)
Lemma summary_step_by_category summary det :
  sm_by_category (summary_step summary det)
  = dd_incr (vd_display_category det) (sm_by_category summary).
Proof.
  unfold summary_step, dd_incr, dd_get. cbv zeta. cbn [sm_by_category].
  destruct (sm_by_category summary !! vd_display_category det) as [v|] eqn:Hk.
  - by rewrite Hk.
  - by rewrite lookup_insert_eq, insert_insert_eq.
Qed.

Lemma summary_fold detections summary :
  let s := foldl summary_step summary detections in
  sm_total s = sm_total summary
  /\ sum_counts (sm_by_category s)
     = sum_counts (sm_by_category summary) + Z.of_nat (length detections)
  /\ (forall cat,
        dd_get cat (sm_by_category s)
        = dd_get cat (sm_by_category summary)
          + Z.of_nat (length (filter (fun d => vd_display_category d = cat) detections)))
  /\ (forall cat,
        is_Some (sm_by_category s !! cat)
        <-> is_Some (sm_by_category summary !! cat)
            \/ exists d, d ∈ detections /\ vd_display_category d = cat)
  /\ sm_parking_applicable s
     = sm_parking_applicable summary
       + Z.of_nat (length (filter (fun d => vd_parking_applicable d = true) detections)).
Proof.
  revert summary. induction detections as [|det detections IH]; intros summary; cbv zeta.
  - cbn [foldl length filter]. split; [done|]. split; [lia|]. split; [intros; cbn; lia|].
    split; [|cbn; lia]. intros cat. split; [by left|].
    intros [H|(d & Hd & _)]; [done | inversion Hd].
  - cbn [foldl]. destruct (IH (summary_step summary det)) as (Ht & Hs & Hc & Hk & Hp).
    rewrite Ht, Hs, Hp. clear Ht Hs Hp.
    rewrite summary_step_by_category in *.
    split; [done|]. split; [rewrite sum_counts_incr; cbn [length]; lia|].
    split; [|split].
    + intros cat. rewrite Hc, dd_get_incr, filter_cons.
      destruct (decide (cat = vd_display_category det)) as [->|Hne].
      * rewrite decide_True by done. cbn [length]. lia.
      * rewrite decide_False by congruence. lia.
    + intros cat. rewrite Hk. unfold dd_incr.
      rewrite lookup_insert_is_Some. setoid_rewrite elem_of_cons.
      split.
      * intros [[<-|[_ H]]|(d & Hd & Hcat)]; eauto.
      * intros [H|(d & [->|Hd] & Hcat)]; eauto.
        destruct (decide (vd_display_category det = cat)); eauto.
    + cbn [summary_step sm_parking_applicable]. rewrite filter_cons.
      destruct (vd_parking_applicable det) eqn:Hpa.
      * rewrite decide_True by done. cbn [length]. lia.
      * rewrite decide_False by done. lia.
Qed.

Lemma filter_length_ext_elem {A} (P Q : A -> Prop) `{!forall x, Decision (P x)}
    `{!forall x, Decision (Q x)} (l : list A) :
  (forall x, x ∈ l -> (P x <-> Q x)) -> length (filter P l) = length (filter Q l).
Proof. intros Hext. by rewrite (filter_ext_elem P Q l Hext). Qed.

(** X19: the detection summary adds up.  [total] is the number of
    detections and the sum of the counts of [by_category]; the count of a
    category is the number of detections with that display category, and
    a category is a key exactly when a detection has it;
    [parking_applicable] is the number of detections with the flag and
    lies between 0 and [total].  For the detections [detect_vehicles]
    returns, [parking_applicable] is the count of ['Car']. *)
Theorem detection_summary_adds_up (detections : list VehicleDetection) :
  let s := get_detection_summary detections in
  sm_total s = Z.of_nat (length detections)
  /\ sum_counts (sm_by_category s) = sm_total s
  /\ (forall cat,
        default 0 (sm_by_category s !! cat)
        = Z.of_nat (length (filter (fun d => vd_display_category d = cat) detections)))
  /\ (forall cat,
        is_Some (sm_by_category s !! cat)
        <-> exists d, d ∈ detections /\ vd_display_category d = cat)
  /\ sm_parking_applicable s
     = Z.of_nat (length (filter (fun d => vd_parking_applicable d = true) detections))
  /\ 0 <= sm_parking_applicable s <= sm_total s
  /\ (forall inference,
        detections = detect_vehicles inference ->
        sm_parking_applicable s = default 0 (sm_by_category s !! "Car")).
Proof.
  cbv zeta. unfold get_detection_summary.
  destruct (summary_fold detections
              {| sm_total := Z.of_nat (length detections); sm_by_category := ∅;
                 sm_parking_applicable := 0 |}) as (Ht & Hs & Hc & Hk & Hp).
  cbn [sm_total sm_by_category sm_parking_applicable] in Ht, Hs, Hc, Hk, Hp.
  rewrite sum_counts_empty in Hs.
  set (s := foldl summary_step _ detections) in *.
  assert (Hc' : forall cat,
             default 0 (sm_by_category s !! cat)
             = Z.of_nat (length (filter (fun d => vd_display_category d = cat) detections))).
  { intros cat. specialize (Hc cat). rewrite dd_get_empty in Hc. exact Hc. }
  split; [exact Ht|]. split; [rewrite Ht; lia|]. split; [exact Hc'|]. split.
  { intros cat. rewrite Hk, lookup_empty. split; [intros [[? ?]|H]; done | by right]. }
  split; [rewrite Hp; lia|]. split.
  { rewrite Hp, Ht.
    pose proof (length_filter (fun d => vd_parking_applicable d = true) detections). lia. }
  intros inference ->. rewrite Hp, (Hc' "Car"), Z.add_0_l. f_equal.
  apply filter_length_ext_elem. intros d Hd.
  apply detect_vehicles_elem in Hd as (box & Hmake).
  by destruct (made_detection_facts box d Hmake) as (_ & _ & _ & _ & Hiff).
Qed.

Lemma detection_summary_adds_up_witness :
  let detections := detect_vehicles (Some (Returned [[mkBox 1 (9 # 10) (mkBBox 0 0 10 10);
                                                      mkBox 0 (8 # 10) (mkBBox 0 0 10 10)]])) in
  sm_parking_applicable (get_detection_summary detections) = 1.
Proof.
  intros detections.
  destruct (detection_summary_adds_up detections) as (_ & _ & _ & _ & _ & _ & Hcar).
  rewrite (Hcar _ eq_refl). reflexivity.
Defined.

(** ** The parking slot row *)

Lemma slot_step_accounting p op :
  let p' := fst (slot_step p op) in
  let ok := snd (slot_step p op) in
  total_capacity p' = total_capacity p
  /\ occupied_count p' + available_count p' = occupied_count p + available_count p
  /\ occupied_count p'
     = occupied_count p
       + (match op with Allocate _ => if ok then 1 else 0 | Release _ => 0 end)
       - (match op with Release _ => if ok then 1 else 0 | Allocate _ => 0 end)
  /\ (0 <= occupied_count p -> 0 <= occupied_count p')
  /\ (0 <= available_count p -> 0 <= available_count p')
  /\ (ok = false -> p' = p).
Proof.
  destruct op as [t|t]; cbn [slot_step]; unfold allocate_slot, release_slot.
  - destruct (0 <? available_count p) eqn:Ha; cbn; [apply Z.ltb_lt in Ha|];
      repeat split; try done; lia.
  - destruct (0 <? occupied_count p) eqn:Ho; cbn; [apply Z.ltb_lt in Ho|];
      repeat split; try done; lia.
Qed.

Lemma slot_run_accounting p ops :
  let p' := fst (slot_run p ops) in
  let results := snd (slot_run p ops) in
  length results = length ops
  /\ total_capacity p' = total_capacity p
  /\ occupied_count p' + available_count p' = occupied_count p + available_count p
  /\ occupied_count p'
     = occupied_count p + successes true ops results - successes false ops results
  /\ (0 <= occupied_count p -> 0 <= occupied_count p')
  /\ (0 <= available_count p -> 0 <= available_count p').
Proof.
  revert p. induction ops as [|op ops IH]; intros p; cbv zeta.
  - cbn. repeat split; try done; lia.
  - cbn [slot_run].
    destruct (slot_step_accounting p op) as (Ht & Hsum & Hocc & Ho & Ha & _).
    destruct (slot_step p op) as [p1 ok]. cbn [fst snd] in Ht, Hsum, Hocc, Ho, Ha.
    destruct (IH p1) as (Hlen & Ht' & Hsum' & Hocc' & Ho' & Ha').
    destruct (slot_run p1 ops) as [p2 results].
    cbn [fst snd] in Hlen, Ht', Hsum', Hocc', Ho', Ha' |- *.
    split; [cbn [length]; lia|]. split; [lia|]. split; [lia|]. split.
    + rewrite Hocc', Hocc. cbn [successes]. destruct op, ok; lia.
    + split; intros; [apply Ho', Ho | apply Ha', Ha]; done.
Qed.

(** X20: the accounting of the parking row.  Over any sequence of
    [allocate_slot] and [release_slot] calls the capacity and the sum of
    the occupied and the available count stay as they were, the occupied
    count changes by the successful allocations minus the successful
    releases, and counts that were not negative stay so.
    [allocate_slot] succeeds exactly when a slot is available and
    [release_slot] exactly when one is occupied; a call that returns
    [False] leaves the row as it was, and a release after a successful
    allocation restores the two counts. *)
Theorem parking_slot_accounting (p : ParkingSlot) (ops : list SlotOp) (t t' : Z) :
  let p' := fst (slot_run p ops) in
  let results := snd (slot_run p ops) in
  (length results = length ops
   /\ total_capacity p' = total_capacity p
   /\ occupied_count p' + available_count p' = occupied_count p + available_count p
   /\ occupied_count p'
      = occupied_count p + successes true ops results - successes false ops results
   /\ (0 <= occupied_count p -> 0 <= occupied_count p')
   /\ (0 <= available_count p -> 0 <= available_count p'))
  /\ (snd (allocate_slot p t) = true <-> 0 < available_count p)
  /\ (snd (release_slot p t) = true <-> 0 < occupied_count p)
  /\ (snd (allocate_slot p t) = false -> fst (allocate_slot p t) = p)
  /\ (snd (release_slot p t) = false -> fst (release_slot p t) = p)
  /\ (0 < available_count p -> 0 <= occupied_count p ->
      let p2 := fst (release_slot (fst (allocate_slot p t)) t') in
      snd (release_slot (fst (allocate_slot p t)) t') = true
      /\ occupied_count p2 = occupied_count p
      /\ available_count p2 = available_count p).
Proof.
  cbv zeta. split; [apply slot_run_accounting|].
  unfold allocate_slot, release_slot.
  destruct (0 <? available_count p) eqn:Ha; [apply Z.ltb_lt in Ha | apply Z.ltb_ge in Ha];
    (destruct (0 <? occupied_count p) eqn:Ho; [apply Z.ltb_lt in Ho | apply Z.ltb_ge in Ho]);
    cbn [fst snd occupied_count available_count];
    (split; [split; (done || lia)|]); (split; [split; (done || lia)|]);
    (split; [done|]); (split; [done|]); intros Ha' Ho'; try lia.
  - replace (0 <? occupied_count p + 1) with true by (symmetry; apply Z.ltb_lt; lia).
    cbn. split; [done | lia].
  - replace (0 <? occupied_count p + 1) with true by (symmetry; apply Z.ltb_lt; lia).
    cbn. split; [done | lia].
Qed.

Lemma parking_slot_accounting_witness :
  let p := mkParkingSlot 100 0 100 0 in
  occupied_count (fst (release_slot (fst (allocate_slot p 1)) 2)) = 0
  /\ 0 <= available_count (fst (slot_run p [Allocate 1; Allocate 2; Release 3])).
Proof.
  intros p.
  destruct (parking_slot_accounting p [Allocate 1; Allocate 2; Release 3] 1 2)
    as ((_ & _ & _ & _ & _ & Hav) & _ & _ & _ & _ & Hround).
  split.
  - destruct Hround as (_ & Hocc & _); [cbn; lia | cbn; lia | exact Hocc].
  - apply Hav. cbn. lia.
Defined.

(** ** The categories that are counted *)

Lemma count_events_of_none e cat log :
  Forall (fun ev => ev_category ev <> cat) log -> count_events_of e cat log = 0.
Proof.
  induction log as [|ev log IH]; intros Hall; [done|].
  apply Forall_cons in Hall as [Hev Hall].
  rewrite count_events_of_cons, IH by done.
  rewrite decide_False by (intros [_ ?]; done). lia.
Qed.

(** The categories of the trackers the crossing loop runs over are those
    of the live trackers and of the detections. *)
Lemma created_categories (P : string -> Prop) now tick c detections trs2 next_id2 tick2 :
  counter_inv c ->
  created_trackers now tick c detections = (trs2, next_id2, tick2) ->
  Forall (fun det => P (det_display_category det)) detections ->
  Forall (fun e => P (category (snd e))) (trackers c) ->
  forall tid tr2, dict_get tid trs2 = Some tr2 -> P (category tr2).
Proof.
  intros Hinv Hcreated Hdets Hall tid tr2 Hget2.
  destruct (update_decompose now tick c detections Hinv)
    as (trs1 & news & Hcreated' & Hkeys & Hrest & Hupd & Hlen & Hnews).
  rewrite Hcreated in Hcreated'. injection Hcreated' as -> _ _.
  rewrite Forall_forall in Hall. rewrite Forall_forall in Hdets.
  destruct (dict_get tid trs1) as [tr1|] eqn:Hget1.
  - rewrite (dict_get_app_l _ _ _ _ Hget1) in Hget2. injection Hget2 as <-.
    set (matched := fst (match_detections_to_trackers (trackers c) detections)) in *.
    destruct (decide (tid ∈ (snd <$> matched))) as [Hm|Hnm].
    + apply list_elem_of_fmap in Hm as ([d t] & Ht & Hm). simpl in Ht. subst t.
      apply list_elem_of_lookup in Hm as [j Hj].
      destruct (Hupd j d tid Hj) as (det & tr0 & _ & Hget0 & Hget1').
      rewrite Hget1 in Hget1'. injection Hget1' as ->. cbn [category].
      exact (Hall _ (dict_get_Some_elem _ _ _ Hget0)).
    + rewrite (Hrest tid Hnm) in Hget1.
      exact (Hall _ (dict_get_Some_elem _ _ _ Hget1)).
  - rewrite (dict_get_app_r _ _ _ Hget1) in Hget2.
    apply dict_get_Some_elem, list_elem_of_lookup in Hget2 as [j Hj].
    pose proof (lookup_lt_Some _ _ _ Hj) as Hlt. rewrite Hlen in Hlt.
    destruct (lookup_lt_is_Some_2 _ _ Hlt) as [i Hi].
    destruct (Hnews j i Hi) as (det & Hdet & Hnew).
    rewrite Hj in Hnew. injection Hnew as _ ->. cbn [category VehicleTracker_init].
    apply Hdets, list_elem_of_lookup. eauto.
Qed.

Lemma categories_step (P : string -> Prop) now w op :
  counter_inv (w_counter w) ->
  detections_in P op ->
  Forall (fun e => P (category (snd e))) (trackers (w_counter w))
  /\ Forall (fun ev => P (ev_category ev)) (w_log w)
  /\ (forall e cat, ~ P cat -> dd_get cat (pe_get e (counts (w_counter w))) = 0) ->
  Forall (fun e => P (category (snd e))) (trackers (w_counter (step now w op)))
  /\ Forall (fun ev => P (ev_category ev)) (w_log (step now w op))
  /\ (forall e cat, ~ P cat -> dd_get cat (pe_get e (counts (w_counter (step now w op)))) = 0).
Proof.
  intros Hinv Hop (Hall & Hlog & Hcnt).
  destruct op as [detections frame_shape| |capacity]; cbn [step w_counter w_log].
  - cbn [detections_in] in Hop.
    destruct (created_trackers now (w_tick w) (w_counter w) detections)
      as [[trs2 next_id2] tick2] eqn:Hcreated.
    pose proof (created_categories P _ _ _ _ _ _ _ Hinv Hcreated Hop Hall) as Hcat2.
    assert (Hnew : Forall (fun ev => P (ev_category ev))
                     (ur_log (update now (w_tick w) (w_counter w) detections frame_shape))).
    { apply Forall_forall. intros ev Hin.
      destruct (update_log_elem _ _ _ _ frame_shape _ _ _ Hinv Hcreated _ Hin)
        as (tr2 & Hget2 & _ & Hc & _).
      cbn beta. rewrite Hc. by eapply Hcat2. }
    split; [|split].
    + apply Forall_forall. intros [tid tr'] Hin. cbn [snd].
      pose proof (counter_inv_update now (w_tick w) _ detections frame_shape Hinv) as Hinv'.
      apply (dict_get_elem _ _ _ (proj1 Hinv')) in Hin.
      destruct (update_lookup _ _ _ _ frame_shape _ _ _ Hinv Hcreated _ _ Hin)
        as (tr2 & Hget2 & Hrel & _).
      apply loop_rel_fields in Hrel as (_ & Hc & _). rewrite Hc. by eapply Hcat2.
    + apply Forall_app. done.
    + intros e cat Hcat. rewrite update_counts, Hcnt by done.
      rewrite count_events_of_none; [done|].
      eapply Forall_impl; [exact Hnew|]. intros ev Hev Heq. apply Hcat. by rewrite <- Heq.
  - split; [done|]. split; [done|]. intros [] cat _; apply dd_get_empty.
  - split; [done|]. split; [done|]. intros e cat Hcat.
    cbn [after_parking_availability counts].
    rewrite <- (Hcnt e cat Hcat). destruct e; cbn [pe_get]; apply dd_get_touch.
Qed.

Lemma categories_run (P : string -> Prop) now lp dm ops :
  Forall (detections_in P) ops ->
  let w := run now (start lp dm) ops in
  Forall (fun e => P (category (snd e))) (trackers (w_counter w))
  /\ Forall (fun ev => P (ev_category ev)) (w_log w)
  /\ (forall e cat, ~ P cat -> dd_get cat (pe_get e (counts (w_counter w))) = 0).
Proof.
  induction ops as [|op ops IH] using rev_ind; intros Hops; cbv zeta.
  - split; [apply Forall_nil_2|]. split; [apply Forall_nil_2|]. intros [] cat _; apply dd_get_empty.
  - apply Forall_app in Hops as [Hops Hop]. apply Forall_cons in Hop as [Hop _].
    rewrite run_snoc.
    apply categories_step; [apply counter_inv_reachable | exact Hop | by apply IH].
Qed.

Lemma from_service_detections_in op :
  from_service op -> detections_in (fun cat => cat ∈ display_categories) op.
Proof.
  destruct op as [detections frame_shape| |capacity]; [|done|done].
  intros [inference ->]. cbn [detections_in].
  apply Forall_fmap, Forall_forall. intros det Hin. cbn.
  apply detect_vehicles_elem in Hin as (box & Hmake).
  by destruct (made_detection_facts box det Hmake) as (_ & _ & Hcat & _).
Qed.

(** X21: the counter with the detection service.  When the detections of
    every update are the ones [detect_vehicles] returns, as in
    [get_frame_with_counting], every live tracker and every count event
    has one of the four display categories, and the tallies of every
    other category, ['Unknown'] among them, are 0 whatever calls of
    [reset_counts] and of the counts endpoint come in between. *)
Theorem service_counts_display_categories (now : nat -> Z) (lp : Q)
    (dm : Direction -> option Event) (ops : list Op) :
  Forall from_service ops ->
  let w := run now (start lp dm) ops in
  (forall tid tr, dict_get tid (trackers (w_counter w)) = Some tr ->
                  category tr ∈ display_categories)
  /\ (forall ev, ev ∈ w_log w -> ev_category ev ∈ display_categories)
  /\ (forall e cat, cat ∉ display_categories ->
                    dd_get cat (pe_get e (counts (w_counter w))) = 0)
  /\ (forall e, dd_get "Unknown" (pe_get e (counts (w_counter w))) = 0).
Proof.
  intros Hops w.
  assert (Hin : Forall (detections_in (fun cat => cat ∈ display_categories)) ops).
  { eapply Forall_impl; [exact Hops|]. apply from_service_detections_in. }
  destruct (categories_run _ now lp dm ops Hin) as (Hall & Hlog & Hcnt). fold w in Hall, Hlog, Hcnt.
  rewrite Forall_forall in Hall. rewrite Forall_forall in Hlog.
  split; [intros tid tr Hget; exact (Hall _ (dict_get_Some_elem _ _ _ Hget))|].
  split; [exact Hlog|]. split; [exact Hcnt|].
  intros e. apply Hcnt. unfold display_categories. rewrite !elem_of_cons, elem_of_nil.
  intros [?|[?|[?|[?|[]]]]]; done.
Qed.

Lemma service_counts_display_categories_witness :
  let frame := (Some (Returned [[mkBox 1 (9 # 10) (mkBBox 0 0 200 10)]]), (300, 400)) in
  let w := run steady_clock (start (1 # 2) default_direction_mapping) [frame_op frame] in
  exists tr, dict_get 1 (trackers (w_counter w)) = Some tr
             /\ category tr ∈ display_categories.
Proof.
  intros frame w.
  assert (Hops : Forall from_service [frame_op frame]).
  { apply Forall_singleton. by exists (fst frame). }
  destruct (service_counts_display_categories steady_clock (1 # 2) default_direction_mapping
              [frame_op frame] Hops) as (Hcat & _).
  eexists. split; [vm_compute; reflexivity|].
  eapply (Hcat 1). vm_compute. reflexivity.
Defined.

(** ** The direction of a trajectory *)

Lemma sum_Z_app xs ys : sum_Z (xs ++ ys) = sum_Z xs + sum_Z ys.
Proof.
  induction xs as [|x xs IH]; [done|].
  change (sum_Z ((x :: xs) ++ ys)) with (x + sum_Z (xs ++ ys)).
  change (sum_Z (x :: xs)) with (x + sum_Z xs). lia.
Qed.

Lemma sum_Z_reverse xs : sum_Z (reverse xs) = sum_Z xs.
Proof.
  induction xs as [|x xs IH]; [done|].
  rewrite reverse_cons, sum_Z_app, IH.
  change (sum_Z [x]) with (x + 0). change (sum_Z (x :: xs)) with (x + sum_Z xs). lia.
Qed.

Lemma mean_reverse (ps : list (Z * Z)) : mean (map fst (reverse ps)) = mean (map fst ps).
Proof.
  unfold mean. change (map fst (reverse ps)) with (fst <$> reverse ps).
  rewrite fmap_reverse, sum_Z_reverse, length_reverse. reflexivity.
Qed.

Lemma displacement_reverse ps :
  (displacement (reverse ps) == - displacement ps)%Q.
Proof.
  unfold displacement. cbv zeta.
  rewrite take_reverse, drop_reverse, length_reverse, !mean_reverse.
  replace (take (length ps - (length ps - 5)) ps) with (take 5 ps).
  - lra.
  - destruct (decide (5 <= length ps)%nat) as [Hge|Hlt].
    + f_equal. lia.
    + rewrite !take_ge by lia. done.
Qed.

(** The direction is RIGHT when the mean x of the last five positions is
    more than 30 above the mean x of the first five, LEFT when it is more
    than 30 below, given at least five positions. *)
Lemma get_trajectory_direction_cases tr :
  (get_trajectory_direction tr = Some RIGHT
   <-> (5 <= length (positions tr))%nat /\ (30 < displacement (positions tr))%Q)
  /\ (get_trajectory_direction tr = Some LEFT
      <-> (5 <= length (positions tr))%nat /\ (displacement (positions tr) < -30)%Q).
Proof.
  rewrite !get_trajectory_direction_spec.
  set (d := displacement (positions tr)).
  split; split.
  - intros (Hlen & Habs & Hdir). split; [done|].
    destruct (Qgtb d 0) eqn:Hgt; [|discriminate]. apply Qgtb_true in Hgt.
    unfold py_abs in Habs. destruct (Qlt_le_dec d 0); lra.
  - intros (Hlen & Hd). split; [done|]. split.
    + unfold py_abs. destruct (Qlt_le_dec d 0); lra.
    + assert (Hgt : Qgtb d 0 = true) by (apply Qgtb_true; lra). by rewrite Hgt.
  - intros (Hlen & Habs & Hdir). split; [done|].
    destruct (Qgtb d 0) eqn:Hgt; [discriminate|]. apply Qgtb_false in Hgt.
    unfold py_abs in Habs. destruct (Qlt_le_dec d 0); lra.
  - intros (Hlen & Hd). split; [done|]. split.
    + unfold py_abs. destruct (Qlt_le_dec d 0); lra.
    + assert (Hgt : Qgtb d 0 = false) by (apply Qgtb_false; lra). by rewrite Hgt.
Qed.

(** X22: the trajectory direction of the reversed history.  A tracker with
    the positions of another in reverse order has the opposite
    displacement; its direction is LEFT exactly when the other's is
    RIGHT, RIGHT exactly when the other's is LEFT, and undetermined
    exactly when the other's is. *)
Theorem trajectory_direction_reverses (tr tr' : VehicleTracker) :
  positions tr' = reverse (positions tr) ->
  (displacement (positions tr') == - displacement (positions tr))%Q
  /\ (get_trajectory_direction tr' = Some LEFT <-> get_trajectory_direction tr = Some RIGHT)
  /\ (get_trajectory_direction tr' = Some RIGHT <-> get_trajectory_direction tr = Some LEFT)
  /\ (get_trajectory_direction tr' = None <-> get_trajectory_direction tr = None).
Proof.
  intros Hrev.
  assert (Hd : (displacement (positions tr') == - displacement (positions tr))%Q)
    by (rewrite Hrev; apply displacement_reverse).
  assert (Hlen : length (positions tr') = length (positions tr))
    by (rewrite Hrev; apply length_reverse).
  destruct (get_trajectory_direction_cases tr) as [HR HL].
  destruct (get_trajectory_direction_cases tr') as [HR' HL'].
  assert (HLR : get_trajectory_direction tr' = Some LEFT
                <-> get_trajectory_direction tr = Some RIGHT).
  { rewrite HL', HR, Hlen. split; intros [? ?]; split; try done; lra. }
  assert (HRL : get_trajectory_direction tr' = Some RIGHT
                <-> get_trajectory_direction tr = Some LEFT).
  { rewrite HR', HL, Hlen. split; intros [? ?]; split; try done; lra. }
  split; [exact Hd|]. split; [exact HLR|]. split; [exact HRL|].
  destruct (get_trajectory_direction tr) as [[]|], (get_trajectory_direction tr') as [[]|];
    split; intros H; try done; try discriminate;
    try (by apply HLR in H); try (by apply HRL in H);
    try (by (destruct HLR as [HLR1 HLR2]; specialize (HLR2 eq_refl)));
    try (by (destruct HRL as [HRL1 HRL2]; specialize (HRL2 eq_refl)));
    try (by (destruct HLR as [HLR1 HLR2]; specialize (HLR1 eq_refl)));
    try (by (destruct HRL as [HRL1 HRL2]; specialize (HRL1 eq_refl))).
Qed.

Lemma trajectory_direction_reverses_witness :
  get_trajectory_direction
    {| track_id := 1; category := "Car"; confidence := 9 # 10;
       positions := reverse (positions crossing_tracker);
       bbox := mkBBox 60 0 460 10;
       counted := false; direction := None; crossed_line := false;
       last_seen := 1000000 |}
  = Some LEFT.
Proof.
  set (tr' := {| track_id := 1; positions := reverse (positions crossing_tracker) |}).
  apply (proj1 (proj2 (trajectory_direction_reverses crossing_tracker tr' eq_refl))).
  vm_compute. reflexivity.
Defined.

(** ** The count display *)

Lemma dd_touch_lookup_ne k k' (d : gmap string Z) : k' <> k -> dd_touch k d !! k' = d !! k'.
Proof.
  intros Hne. unfold dd_touch. destruct (d !! k); [done|]. by rewrite lookup_insert_ne.
Qed.

Lemma touch_all_facts (cats : list string) (d : gmap string Z) :
  let d' := foldl (fun d cat => dd_touch cat d) d cats in
  (forall cat, dd_get cat d' = dd_get cat d)
  /\ (forall cat, cat ∈ cats -> d' !! cat = Some (dd_get cat d))
  /\ (forall cat, cat ∉ cats -> d' !! cat = d !! cat)
  /\ sum_counts d' = sum_counts d.
Proof.
  revert d. induction cats as [|k cats IH]; intros d; cbv zeta.
  - cbn [foldl]. split; [done|]. split; [intros cat Hin; inversion Hin|]. done.
  - cbn [foldl]. destruct (IH (dd_touch k d)) as (Hget & Hin & Hout & Hsum).
    split; [intros cat; by rewrite Hget, dd_get_touch|]. split; [|split].
    + intros cat Hcat. destruct (decide (cat ∈ cats)) as [Hc|Hc].
      * by rewrite (Hin cat Hc), dd_get_touch.
      * apply elem_of_cons in Hcat as [->|Hcat]; [|done].
        by rewrite (Hout k Hc), dd_touch_lookup.
    + intros cat Hcat. apply not_elem_of_cons in Hcat as [Hne Hcat].
      by rewrite (Hout cat Hcat), dd_touch_lookup_ne.
    + by rewrite Hsum, sum_counts_touch.
Qed.

(** X23: what drawing the count display does to the counter.  The two
    tables get the keys ['Car'], ['2-Wheeler'], ['Bus'] and ['Truck'],
    with 0 where a key was absent, so [get_counts] lists the four
    categories after a frame was drawn; every count, the sums, the
    totals, the trackers and the parking information stay as they were,
    and the invariant of the counter is kept. *)
Theorem draw_count_display_effect (c : VehicleCounter) (capacity : Z) :
  let c' := after_draw_count_display c in
  (forall e cat, cat ∈ drawn_categories ->
                 pe_get e (counts c') !! cat = Some (dd_get cat (pe_get e (counts c))))
  /\ (forall e cat, cat ∉ drawn_categories ->
                    pe_get e (counts c') !! cat = pe_get e (counts c) !! cat)
  /\ (forall e cat, dd_get cat (pe_get e (counts c')) = dd_get cat (pe_get e (counts c)))
  /\ (forall e, sum_counts (pe_get e (counts c')) = sum_counts (pe_get e (counts c)))
  /\ total_counts c' = total_counts c
  /\ trackers c' = trackers c
  /\ next_track_id c' = next_track_id c
  /\ get_parking_availability c' capacity = get_parking_availability c capacity
  /\ (counter_inv c -> counter_inv c').
Proof.
  intros c'.
  destruct (touch_all_facts drawn_categories (at_IN (counts c))) as (Hg1 & Hi1 & Ho1 & Hs1).
  destruct (touch_all_facts drawn_categories (at_OUT (counts c))) as (Hg2 & Hi2 & Ho2 & Hs2).
  assert (Hget : forall e cat, dd_get cat (pe_get e (counts c')) = dd_get cat (pe_get e (counts c))).
  { intros [] cat; [apply Hg1 | apply Hg2]. }
  assert (Hsum : forall e, sum_counts (pe_get e (counts c')) = sum_counts (pe_get e (counts c))).
  { intros []; [apply Hs1 | apply Hs2]. }
  split; [intros [] cat Hcat; [by apply Hi1 | by apply Hi2]|].
  split; [intros [] cat Hcat; [by apply Ho1 | by apply Ho2]|].
  split; [exact Hget|]. split; [exact Hsum|].
  split; [done|]. split; [done|]. split; [done|]. split.
  - unfold get_parking_availability. cbv zeta. by rewrite !Hget.
  - intros (Hnd & Hall & Htot). split; [exact Hnd|]. split; [exact Hall|].
    intros e. rewrite Hsum. apply Htot.
Qed.

Lemma draw_count_display_effect_witness :
  in_counts (get_counts (after_draw_count_display
                           (VehicleCounter_init (1 # 2) default_direction_mapping)))
  !! "Bus" = Some 0.
Proof.
  destruct (draw_count_display_effect
              (VehicleCounter_init (1 # 2) default_direction_mapping) 100) as (Hin & _).
  apply (Hin IN "Bus"). unfold drawn_categories. rewrite !elem_of_cons. tauto.
Defined.
